(** * MMORTS session runtime: hex kernel, chunked map, credential validation,
      session roster and connection queues.

    A shallow embedding of the Go sources
    - [external/hexcore/hex]   (axial coordinates, [Ring], [Edge]),
    - [internal/gamemap]       ([HexChunk], [GameMap]),
    - [internal/server]        ([JWTValidator], [Session], [Connection]),
    together with the properties of the specification that concern them. *)

From Stdlib Require Import ZArith Lia Ascii String.
From stdpp Require Import gmap strings list fin_maps pretty.

#[local] Open Scope Z_scope.

(** ** Go machine integers *)

(** Go's [int] and [int64] are 64-bit two's complement on the platforms the
    server targets; arithmetic wraps around silently. *)
Module GoInt.

Definition min_int : Z := - 2 ^ 63.
Definition max_int : Z := 2 ^ 63 - 1.

Definition wrap (z : Z) : Z := (z + 2 ^ 63) mod 2 ^ 64 - 2 ^ 63.

Definition add (a b : Z) : Z := wrap (a + b).
Definition sub (a b : Z) : Z := wrap (a - b).
Definition mul (a b : Z) : Z := wrap (a * b).
Definition neg (a : Z) : Z := wrap (- a).

(** [a % b] truncates towards zero; it panics when [b = 0]. *)
Definition rem (a b : Z) : option Z :=
  if b =? 0 then None else Some (Z.rem a b).

Definition in_range (z : Z) : Prop := min_int <= z <= max_int.

(** [float64(x)] for an integer [x]: round to 53 significant bits, ties to
    even.  Every integer of magnitude at most [2^53] is represented
    exactly. *)
Definition float64_of_int (x : Z) : Z :=
  let a := Z.abs x in
  if a <=? 2 ^ 53 then x
  else
    let e := Z.log2 a - 52 in
    let q := a / 2 ^ e in
    let r := a mod 2 ^ e in
    let half := 2 ^ (e - 1) in
    let q' := if (half <? r) || ((r =? half) && Z.odd q) then q + 1 else q in
    Z.sgn x * (q' * 2 ^ e).

(** [int(f)] for an integral float [f]; a value that does not fit is
    converted to the minimal integer (the amd64 behaviour). *)
Definition int_of_float64 (f : Z) : Z :=
  if (min_int <=? f) && (f <=? max_int) then f else min_int.

(** [int(math.Abs(float64(x)))] *)
Definition abs_via_float (x : Z) : Z :=
  int_of_float64 (Z.abs (float64_of_int x)).

End GoInt.

(** ** The hex coordinate kernel ([external/hexcore/hex]) *)

Module hex.

(** [type Axial struct { Q int; R int }] *)
Record Axial : Type := MkAxial { Q : Z; R : Z }.

#[global] Instance Axial_eq_dec : EqDecision Axial.
Proof. solve_decision. Defined.

#[global] Instance Axial_countable : Countable Axial.
Proof.
  refine (inj_countable' (λ a, (Q a, R a)) (λ p, MkAxial p.1 p.2) _).
  by intros [].
Defined.

(** [type Cube struct { X, Y, Z int }] *)
Record Cube : Type := MkCube { X : Z; Y : Z; Zc : Z }.

(** [var Directions = []Axial{...}] *)
Definition Directions : list Axial :=
  [ MkAxial 1 0; MkAxial 1 (-1); MkAxial 0 (-1);
    MkAxial (-1) 0; MkAxial (-1) 1; MkAxial 0 1 ].

Definition Add (a b : Axial) : Axial :=
  MkAxial (GoInt.add (Q a) (Q b)) (GoInt.add (R a) (R b)).

Definition Mul (a : Axial) (k : Z) : Axial :=
  MkAxial (GoInt.mul (Q a) k) (GoInt.mul (R a) k).

Definition ToCube (a : Axial) : Cube :=
  let x := Q a in
  let z := R a in
  let y := GoInt.sub (GoInt.neg x) z in
  MkCube x y z.

Definition DistanceCube (a b : Cube) : Z :=
  let dx := GoInt.abs_via_float (GoInt.sub (X a) (X b)) in
  let dy := GoInt.abs_via_float (GoInt.sub (Y a) (Y b)) in
  let dz := GoInt.abs_via_float (GoInt.sub (Zc a) (Zc b)) in
  if (dy <? dx) && (dz <? dx) then dx
  else if dz <? dy then dy
  else dz.

Definition DistanceAxial (a b : Axial) : Z :=
  DistanceCube (ToCube a) (ToCube b).

(** A Go panic (index out of range, negative slice capacity, division by
    zero) is modelled by [None]. *)

(** The inner loop of [Ring]:
    [for step := 0; step < k; step++ { res = append(res, cur); cur = cur.Add(d) }]. *)
Fixpoint ring_side (steps : nat) (d : Axial) (st : Axial * list Axial)
  : Axial * list Axial :=
  match steps with
  | O => st
  | S n => ring_side n d (Add st.1 d, st.2 ++ [st.1])
  end.

(** The outer loop of [Ring]: [for side := 0; side < 6; side++]. *)
Definition ring_sides (k : Z) (st : Axial * list Axial) : Axial * list Axial :=
  foldl (λ st d, ring_side (Z.to_nat k) d st) st Directions.

(** [func Ring(c Axial, k int) []Axial].  [make([]Axial, 0, 6*k)] panics
    for a negative capacity. *)
Definition Ring (c : Axial) (k : Z) : option (list Axial) :=
  if k =? 0 then Some [c]
  else if GoInt.mul 6 k <? 0 then None
  else
    d4 ← Directions !! 4%nat;
    let cur := Add c (Mul d4 k) in
    Some (ring_sides k (cur, [])).2.

(** First loop of [Edge]: the ring indices [i] whose cell [a] has
    [DistanceAxial(c, a.Add(Directions[side])) == R+1]. *)
Definition edge_idxs (c : Axial) (R : Z) (ds : Axial) (r : list Axial) : list Z :=
  (imap (λ i a, (Z.of_nat i, a)) r)
    ≫= (λ ia, if DistanceAxial c (Add ia.2 ds) =? GoInt.add R 1
                then [ia.1] else []).

(** [Directions[side]], evaluated in the body of that loop: an index out of
    range panics as soon as the ring has a first cell. *)
Definition edge_dir (side : Z) (r : list Axial) : option Axial :=
  match r with
  | [] => Some (MkAxial 0 0)
  | _ :: _ => if side <? 0 then None else Directions !! Z.to_nat side
  end.

(** The fallback segmentation of [Edge]. *)
Definition edge_fallback (R : Z) (side : Z) (r : list Axial) : option (list Axial) :=
  start ← GoInt.rem (GoInt.mul side R) (Z.of_nat (length r));
  mapM (λ i : nat,
          j ← GoInt.rem (GoInt.add start (Z.of_nat i)) (Z.of_nat (length r));
          if j <? 0 then None else r !! Z.to_nat j)
       (seq 0 (Z.to_nat R)).

(** The smallest-gap scan of [Edge]; the state is [(startIdx, minGap)]. *)
Definition edge_gap_step (idxs : list Z) (L : Z) (acc : option (Z * Z)) (i : nat)
  : option (Z * Z) :=
  '(startIdx, minGap) ← acc;
  j ← GoInt.rem (GoInt.add (Z.of_nat i) 1) (Z.of_nat (length idxs));
  xj ← (if j <? 0 then None else idxs !! Z.to_nat j);
  xi ← idxs !! i;
  gap ← GoInt.rem (GoInt.add (GoInt.sub xj xi) L) L;
  Some (if gap <? minGap then (j, gap) else (startIdx, minGap)).

Definition edge_segment (R : Z) (r : list Axial) (idxs : list Z) : option (list Axial) :=
  let L := Z.of_nat (length r) in
  '(startIdx, _) ← foldl (edge_gap_step idxs L) (Some (0, 2 ^ 31 - 1))
                        (seq 0 (length idxs));
  mapM (λ k : nat,
          i ← GoInt.rem (GoInt.add startIdx (Z.of_nat k)) (Z.of_nat (length idxs));
          x ← (if i <? 0 then None else idxs !! Z.to_nat i);
          if x <? 0 then None else r !! Z.to_nat x)
       (seq 0 (Z.to_nat R)).

(** [func Edge(c Axial, R int, side int) []Axial] *)
Definition Edge (c : Axial) (R : Z) (side : Z) : option (list Axial) :=
  if R <=? 0 then Some [c]
  else
    r ← Ring c R;
    ds ← edge_dir side r;
    let idxs := edge_idxs c R ds r in
    if negb (Z.of_nat (length idxs) =? R) then edge_fallback R side r
    else edge_segment R r idxs.

End hex.

(** ** Loops that fill a map *)

(** [for _, k := range ks { m[k] = f(k) }] *)
Definition insert_all {K : Type} `{Countable K} {V : Type}
    (f : K → V) (m : gmap K V) (ks : list K) : gmap K V :=
  foldl (λ acc k, <[k := f k]> acc) m ks.

(** ** Configuration ([internal/config]) *)

Module config.

Record ServerConfig : Type := MkServerConfig {
  Host : string; Port : Z; TickRate : Z
}.

Record JWTConfig : Type := MkJWTConfig {
  Issuer : string; PublicKeyURL : string; PublicKeyRefreshHrs : Z
}.

Record RedisConfig : Type := MkRedisConfig {
  Address : string; Password : string; DB : Z; BlacklistPrefix : string
}.

Record SessionConfig : Type := MkSessionConfig {
  MaxPlayers : Z; InitialMapRadius : Z
}.

Record ChatConfig : Type := MkChatConfig {
  MaxMessageLength : Z; RateLimit : Z
}.

(** [type Config struct]; the database section plays no part here. *)
Record Config : Type := MkConfig {
  Server : ServerConfig;
  JWT : JWTConfig;
  Redis : RedisConfig;
  Session : SessionConfig;
  Chat : ChatConfig
}.

(** The defaults [Load] fills in for options left at zero. *)
Definition with_defaults (cfg : Config) : Config :=
  let srv := Server cfg in
  let jwt := JWT cfg in
  let chat := Chat cfg in
  let ses := Session cfg in
  MkConfig
    (MkServerConfig (Host srv) (Port srv)
       (if TickRate srv =? 0 then 20 else TickRate srv))
    (MkJWTConfig (Issuer jwt) (PublicKeyURL jwt)
       (if PublicKeyRefreshHrs jwt =? 0 then 24 else PublicKeyRefreshHrs jwt))
    (Redis cfg)
    (MkSessionConfig
       (if MaxPlayers ses =? 0 then 100 else MaxPlayers ses)
       (if InitialMapRadius ses =? 0 then 5 else InitialMapRadius ses))
    (MkChatConfig
       (if MaxMessageLength chat =? 0 then 500 else MaxMessageLength chat)
       (if RateLimit chat =? 0 then 10 else RateLimit chat)).

End config.

(** ** Players ([pkg/models]) *)

Module models.

(** [type Player struct]; instants are nanoseconds since the epoch, the
    zero [time.Time] is [0]. *)
Record Player : Type := MkPlayer {
  ID : string;
  Username : string;
  Email : string;
  UserType : string;
  Permissions : Z;
  Activated : Z;
  AuthMethod : string;
  Connected : bool;
  ConnectedAt : Z;
  LastSeen : Z;
  SessionID : string;
  EmpireID : string
}.

Definition IsActive (p : Player) : bool := 0 <? Activated p.
Definition IsBanned (p : Player) : bool := Activated p =? -1.
Definition IsConnected (p : Player) : bool := Connected p.

End models.

(** ** Wire protocol ([internal/network]) *)

Module network.

Definition MsgTypeJoin : string := "join".
Definition MsgTypeLeave : string := "leave".
Definition MsgTypeChat : string := "chat".
Definition MsgTypePing : string := "ping".

Definition MsgTypeWelcome : string := "welcome".
Definition MsgTypePlayerJoined : string := "player_joined".
Definition MsgTypePlayerLeft : string := "player_left".
Definition MsgTypeChatBroadcast : string := "chat".
Definition MsgTypeSessionStatus : string := "session_status".
Definition MsgTypeError : string := "error".
Definition MsgTypePong : string := "pong".

(** [type ClientMessage struct]; the payload is raw JSON text. *)
Record ClientMessage : Type := MkClientMessage {
  ClientType : string;
  ClientPayload : string
}.

Record ChatPayload : Type := MkChatPayload { ChatMessage : string }.

Record SessionStatus : Type := MkSessionStatus {
  State : string;
  PlayerCount : Z;
  MaxPlayers : Z;
  ServerTick : Z;
  Uptime : Z
}.

(** The payloads the server puts into the [interface{}] field of a
    [ServerMessage]. *)
Inductive Payload : Type :=
| WelcomePayload (PlayerID Username SessionID : string) (Status : SessionStatus)
| PlayerJoinedPayload (PlayerID Username Email : string)
| PlayerLeftPayload (PlayerID Username : string)
| ChatBroadcastPayload (PlayerID Username Message : string) (Timestamp : Z)
| ErrorPayload (Code Message : string)
| PongPayload (timestamp : Z).

Record ServerMessage : Type := MkServerMessage {
  Type_ : string;
  Payload_ : Payload
}.

End network.

(** ** The chunked world map ([internal/gamemap]) *)

Module gamemap.
Import hex.

(** [for x := lo; x <= hi; x++] over Go integers, for [hi] below the
    largest integer. *)
Definition int_range (lo hi : Z) : list Z :=
  (λ i : nat, lo + Z.of_nat i) <$> seq 0 (Z.to_nat (hi - lo + 1)).

Definition minInt (a b : Z) : Z := if a <? b then a else b.
Definition maxInt (a b : Z) : Z := if b <? a then a else b.

(** [type Hex struct { WorldPos hex.Axial; Terrain string }] *)
Record Hex : Type := MkHex { WorldPos : Axial; Terrain : string }.

(** [type HexChunk struct] *)
Record HexChunk : Type := MkHexChunk {
  ChunkPos : Axial;
  Hexes : gmap Axial Hex;
  Generated : bool;
  Radius : Z
}.

Definition defaultRadius : Z := 9.

(** The body of the inner loop of [generateHexes]. *)
Definition generateHex (chunkPos : Axial) (radius : Z) (q : Z)
    (cells : gmap Axial Hex) (r : Z) : gmap Axial Hex :=
  let localPos := MkAxial q r in
  let worldPos :=
    MkAxial (GoInt.add (GoInt.mul (Q chunkPos) radius) (Q localPos))
            (GoInt.add (GoInt.mul (R chunkPos) radius) (R localPos)) in
  <[localPos := MkHex worldPos "plains"]> cells.

(** The body of the outer loop of [generateHexes]. *)
Definition generateColumn (chunkPos : Axial) (radius : Z)
    (cells : gmap Axial Hex) (q : Z) : gmap Axial Hex :=
  let r1 := maxInt (GoInt.neg radius) (GoInt.sub (GoInt.neg q) radius) in
  let r2 := minInt radius (GoInt.add (GoInt.neg q) radius) in
  foldl (generateHex chunkPos radius q) cells (int_range r1 r2).

(** [func (c *HexChunk) generateHexes()] *)
Definition generateHexes (c : HexChunk) : HexChunk :=
  let cells :=
    foldl (generateColumn (ChunkPos c) (Radius c)) (Hexes c)
          (int_range (GoInt.neg (Radius c)) (Radius c)) in
  MkHexChunk (ChunkPos c) cells true (Radius c).

(** [func NewHexChunk(chunkPos hex.Axial) *HexChunk] *)
Definition NewHexChunk (chunkPos : Axial) : HexChunk :=
  let chunk := MkHexChunk chunkPos ∅ false defaultRadius in
  generateHexes chunk.

(** The keys the loop nest of [generateHexes] (and of [generateChunks])
    visits, in visiting order. *)
Definition disk_coords (radius : Z) : list Axial :=
  q ← int_range (GoInt.neg radius) radius;
  MkAxial q <$>
    int_range (maxInt (GoInt.neg radius) (GoInt.sub (GoInt.neg q) radius))
              (minInt radius (GoInt.add (GoInt.neg q) radius)).

(** The cell [generateHexes] stores at a local position. *)
Definition hex_at (chunkPos : Axial) (radius : Z) (localPos : Axial) : Hex :=
  MkHex (MkAxial (GoInt.add (GoInt.mul (Q chunkPos) radius) (Q localPos))
                 (GoInt.add (GoInt.mul (R chunkPos) radius) (R localPos)))
        "plains".

(** [func (c *HexChunk) GetHex(localPos hex.Axial)]: the cell and whether
    it exists. *)
Definition HexChunk_GetHex (c : HexChunk) (localPos : Axial) : option Hex :=
  Hexes c !! localPos.

(** [func (c *HexChunk) HexCount() int] *)
Definition HexCount (c : HexChunk) : Z := Z.of_nat (size (Hexes c)).

(** [type GameMap struct] *)
Record GameMap : Type := MkGameMap {
  Chunks : gmap Axial HexChunk;
  ChunkRadius : Z
}.

Definition generateChunkAt (q : Z) (chunks : gmap Axial HexChunk) (r : Z)
  : gmap Axial HexChunk :=
  let chunkPos := MkAxial q r in
  let chunk := NewHexChunk chunkPos in
  <[chunkPos := chunk]> chunks.

Definition generateChunkColumn (chunkRadius : Z) (chunks : gmap Axial HexChunk)
    (q : Z) : gmap Axial HexChunk :=
  let r1 := maxInt (GoInt.neg chunkRadius) (GoInt.sub (GoInt.neg q) chunkRadius) in
  let r2 := minInt chunkRadius (GoInt.add (GoInt.neg q) chunkRadius) in
  foldl (generateChunkAt q) chunks (int_range r1 r2).

(** [func (gm *GameMap) generateChunks() error]; the error is always [nil]. *)
Definition generateChunks (gm : GameMap) : GameMap * option string :=
  let chunks :=
    foldl (generateChunkColumn (ChunkRadius gm)) (Chunks gm)
          (int_range (GoInt.neg (ChunkRadius gm)) (ChunkRadius gm)) in
  (MkGameMap chunks (ChunkRadius gm), None).

(** [func New(chunkRadius int)]: the map or an error. *)
Definition New (chunkRadius : Z) : string + GameMap :=
  let gm := MkGameMap ∅ chunkRadius in
  match generateChunks gm with
  | (_, Some err) => inl err
  | (gm', None) => inr gm'
  end.

(** [func (gm *GameMap) GetChunk(pos hex.Axial)] *)
Definition GetChunk (gm : GameMap) (pos : Axial) : option HexChunk :=
  Chunks gm !! pos.

(** [func (gm *GameMap) GetHex(worldPos hex.Axial)]: a placeholder. *)
Definition GetHex (gm : GameMap) (worldPos : Axial) : string + Hex :=
  inl "not implemented".

End gamemap.


(** ** The session runtime ([internal/server]) *)

Module server.

(** *** Strings of the token extraction *)

(** [splitString(s, sep)]: the pieces of [s] between occurrences of the
    first byte of [sep]. *)
Fixpoint split_on (c : ascii) (s : string) : list string :=
  match s with
  | EmptyString => [EmptyString]
  | String a s' =>
      if Ascii.eqb a c then EmptyString :: split_on c s'
      else match split_on c s' with
           | p :: ps => String a p :: ps
           | [] => [String a EmptyString]
           end
  end.

(** [sep[0]] panics for an empty separator once [s] has a first byte. *)
Definition splitString (s sep : string) : option (list string) :=
  match s, sep with
  | EmptyString, _ => Some [EmptyString]
  | _, EmptyString => None
  | _, String c _ => Some (split_on c s)
  end.

Definition is_blank (a : ascii) : bool :=
  Ascii.eqb a " "%char || Ascii.eqb a "009"%char.

Fixpoint trim_left (s : string) : string :=
  match s with
  | String a s' => if is_blank a then trim_left s' else s
  | EmptyString => EmptyString
  end.

Definition trimSpace (s : string) : string :=
  String.rev (trim_left (String.rev (trim_left s))).

Definition splitAndTrim (s sep : string) : option (list string) :=
  match splitString s sep with
  | Some parts =>
      Some (filter (λ p : string, p ≠ EmptyString) (trimSpace <$> parts))
  | None => None
  end.

Definition parseProtocols (protocols : string) : option (list string) :=
  splitAndTrim protocols ",".

(** *** Requests and credentials *)

(** The parts of an [http.Request] the handler reads. *)
Record Request : Type := MkRequest {
  RemoteAddr : string;
  Header : gmap string string;
  Query : gmap string string
}.

Definition Header_Get (r : Request) (k : string) : string :=
  default EmptyString (Header r !! k).
Definition Query_Get (r : Request) (k : string) : string :=
  default EmptyString (Query r !! k).

(** [func extractTokenFromHeader(r *http.Request) string] *)
Definition extractTokenFromHeader (r : Request) : option string :=
  let protocols := Header_Get r "Sec-WebSocket-Protocol" in
  let from_protocol : option (option string) :=
    if bool_decide (protocols ≠ EmptyString) then
      match parseProtocols protocols with
      | Some [p0; p1] =>
          Some (if bool_decide (p0 = "access_token") then Some p1 else None)
      | Some _ => Some None
      | None => None
      end
    else Some None in
  match from_protocol with
  | None => None
  | Some (Some tok) => Some tok
  | Some None =>
      let auth := Header_Get r "Authorization" in
      if bool_decide (auth ≠ EmptyString) && (7 <? String.length auth)%nat
         && bool_decide (String.substring 0 7 auth = "Bearer ")
      then Some (String.substring 7 (String.length auth - 7) auth)
      else
        let token := Query_Get r "token" in
        if bool_decide (token ≠ EmptyString) then Some token else Some EmptyString
  end.

(** [type Claims struct], with the registered claims the validator reads. *)
Module Claims.
Record t : Type := Mk {
  UserID : Z;
  Email : string;
  Username : string;
  UserType : string;
  AuthMethod : string;
  Permissions : Z;
  Activated : Z;
  Issuer : string;
  ExpiresAt : option Z
}.
End Claims.

(** [ecdsa.PublicKey]: a curve point. *)
Record PublicKey : Type := MkPublicKey { KeyX : Z; KeyY : Z }.

#[global] Instance PublicKey_eq_dec : EqDecision PublicKey.
Proof. solve_decision. Defined.

Inductive SigningMethod : Type :=
| SigningMethodECDSA | SigningMethodHMAC | SigningMethodRSA | SigningMethodOther.

(** [jwt.Token]; [Claims] is [None] when the dynamic type of the claims is
    not [*Claims]. *)
Module Token.
Record t : Type := Mk {
  Method : SigningMethod;
  Alg : string;
  Claims : option Claims.t;
  Valid : bool
}.
End Token.

(** [type JWTValidator struct]: configuration and cached key; the handle to
    the revocation store is the external [redis_Exists]. *)
Module JWTValidator.
Record t : Type := Mk {
  config : config.Config;
  publicKey : PublicKey
}.
End JWTValidator.

(** A buffered channel of byte strings. *)
Record Chan : Type := MkChan { buf : list string; cap : nat }.
Definition make_chan (n : nat) : Chan := MkChan [] n.

(** Pointers to connections, and transport handles. *)
Definition ConnId : Type := nat.
Definition WsConn : Type := nat.

(** The collaborators outside this repository: the JWT library, the
    revocation store, the JSON codec and the WebSocket upgrader. *)
Class Externals : Type := {
  jwt_ParseWithClaims :
    string → (Token.t → string + PublicKey) → string + Token.t;
  redis_Exists : string → string + Z;
  json_Marshal : network.ServerMessage → string + string;
  json_Unmarshal_ChatPayload : string → string + network.ChatPayload;
  upgrader_Upgrade : Request → string + WsConn
}.

(** [type Connection struct] *)
Module Connection.
Record t : Type := Mk {
  ws : WsConn;
  player : option models.Player;
  send : Chan;
  authenticated : bool
}.
End Connection.

(** [type SessionStatus struct] *)
Module SessionStatus.
Record t : Type := Mk {
  State : string;
  PlayerCount : Z;
  MaxPlayers : Z;
  ServerTick : Z;
  Uptime : Z
}.
End SessionStatus.

(** [type Session struct] *)
Module Session.
Record t : Type := Mk {
  ID : string;
  CreatedAt : Z;
  players : gmap string models.Player;
  connections : gmap string ConnId;
  gameMap : gamemap.GameMap;
  status : SessionStatus.t;
  broadcast : Chan;
  config : config.Config
}.
End Session.

(** [type Server struct], together with the connection objects its
    pointers refer to and the lines written to the log. *)
Module Server.
Record t : Type := Mk {
  config : config.Config;
  session : Session.t;
  jwtValidator : JWTValidator.t;
  connections : gset ConnId;
  heap : gmap ConnId Connection.t;
  logs : list string
}.
End Server.

Definition log_Printf (line : string) (s : Server.t) : Server.t :=
  Server.Mk (Server.config s) (Server.session s) (Server.jwtValidator s)
            (Server.connections s) (Server.heap s) (Server.logs s ++ [line]).

Definition set_session (ses : Session.t) (s : Server.t) : Server.t :=
  Server.Mk (Server.config s) ses (Server.jwtValidator s)
            (Server.connections s) (Server.heap s) (Server.logs s).

Definition set_heap (h : gmap ConnId Connection.t) (s : Server.t) : Server.t :=
  Server.Mk (Server.config s) (Server.session s) (Server.jwtValidator s)
            (Server.connections s) h (Server.logs s).

Definition set_connections (cs : gset ConnId) (s : Server.t) : Server.t :=
  Server.Mk (Server.config s) (Server.session s) (Server.jwtValidator s)
            cs (Server.heap s) (Server.logs s).

(** *** Credential validation ([auth.go]) *)

Section validation.
Context `{Externals}.

(** The key function handed to [jwt.ParseWithClaims]. *)
Definition keyfunc (v : JWTValidator.t) (token : Token.t) : string + PublicKey :=
  match Token.Method token with
  | SigningMethodECDSA => inr (JWTValidator.publicKey v)
  | _ => inl ("unexpected signing method: " +:+ Token.Alg token)
  end.

Definition player_of_claims (claims : Claims.t) : models.Player :=
  let userIDStr := pretty (Claims.UserID claims) in
  models.MkPlayer userIDStr (Claims.Username claims) (Claims.Email claims)
    (Claims.UserType claims) (Claims.Permissions claims)
    (Claims.Activated claims) (Claims.AuthMethod claims)
    false 0 0 EmptyString userIDStr.

(** [func (v *JWTValidator) ValidateToken(tokenString string)]: the
    player or the error, and the lines logged. *)
Definition ValidateToken (v : JWTValidator.t) (now : Z) (tokenString : string)
  : (string + models.Player) * list string :=
  match jwt_ParseWithClaims tokenString (keyfunc v) with
  | inl err => (inl ("failed to parse token: " +:+ err), [])
  | inr token =>
    match Token.Claims token, Token.Valid token with
    | Some claims, true =>
      let issuer := config.Issuer (config.JWT (JWTValidator.config v)) in
      if bool_decide (Claims.Issuer claims ≠ issuer) then
        (inl ("invalid issuer: expected " +:+ issuer +:+ ", got "
                +:+ Claims.Issuer claims), [])
      else if match Claims.ExpiresAt claims with
              | Some exp => exp <? now
              | None => false
              end then
        (inl "token expired", [])
      else if Claims.Activated claims =? 0 then
        (inl "user not activated", [])
      else if Claims.Activated claims =? -1 then
        (inl "user is banned", [])
      else
        let userIDStr := pretty (Claims.UserID claims) in
        let blacklistKey :=
          config.BlacklistPrefix (config.Redis (JWTValidator.config v))
            +:+ userIDStr in
        match redis_Exists blacklistKey with
        | inl err =>
            (inr (player_of_claims claims),
             ["Warning: Failed to check blacklist: " +:+ err])
        | inr isBlacklisted =>
            if 0 <? isBlacklisted then (inl "token is blacklisted", [])
            else (inr (player_of_claims claims), [])
        end
    | _, _ => (inl "invalid token claims", [])
    end
  end.

End validation.

(** *** Sessions *)

(** [func NewSession(id string, cfg *config.Config)], created at instant
    [now]. *)
Definition NewSession (id : string) (cfg : config.Config) (now : Z)
  : string + Session.t :=
  match gamemap.New (config.InitialMapRadius (config.Session cfg)) with
  | inl err => inl err
  | inr gameMap =>
      inr (Session.Mk id now ∅ ∅ gameMap
             (SessionStatus.Mk "waiting" 0
                (config.MaxPlayers (config.Session cfg)) 0 0)
             (make_chan 256) cfg)
  end.

Definition set_PlayerCount (n : Z) (st : SessionStatus.t) : SessionStatus.t :=
  SessionStatus.Mk (SessionStatus.State st) n (SessionStatus.MaxPlayers st)
                   (SessionStatus.ServerTick st) (SessionStatus.Uptime st).

Definition set_roster (players : gmap string models.Player)
    (connections : gmap string ConnId) (ses : Session.t) : Session.t :=
  Session.Mk (Session.ID ses) (Session.CreatedAt ses) players connections
    (Session.gameMap ses)
    (set_PlayerCount (Z.of_nat (size players)) (Session.status ses))
    (Session.broadcast ses) (Session.config ses).

(** [func (s *Session) AddPlayer(player *models.Player, conn *Connection) error];
    the error is [None] for [nil]. *)
Definition AddPlayer (s : Server.t) (player : models.Player) (conn : ConnId)
  : Server.t * option string :=
  let ses := Server.session s in
  let players := <[models.ID player := player]> (Session.players ses) in
  let connections := <[models.ID player := conn]> (Session.connections ses) in
  let s := set_session (set_roster players connections ses) s in
  (log_Printf ("Player " +:+ models.Username player +:+ " ("
                 +:+ models.ID player +:+ ") joined session " +:+ Session.ID ses) s,
   None).

(** [func (s *Session) RemovePlayer(playerID string)] *)
Definition RemovePlayer (s : Server.t) (playerID : string) : Server.t :=
  let ses := Server.session s in
  match Session.players ses !! playerID with
  | Some player =>
      let s := log_Printf ("Player " +:+ models.Username player +:+ " ("
                 +:+ playerID +:+ ") left session " +:+ Session.ID ses) s in
      let players := delete playerID (Session.players ses) in
      let connections := delete playerID (Session.connections ses) in
      set_session (set_roster players connections ses) s
  | None => s
  end.

(** [func (s *Session) GetPlayer(playerID string)] *)
Definition GetPlayer (s : Server.t) (playerID : string) : option models.Player :=
  Session.players (Server.session s) !! playerID.

(** *** Connections ([connection.go]) *)

(** [func NewConnection(ws *websocket.Conn, server *Server) *Connection] *)
Definition NewConnection (ws : WsConn) : Connection.t :=
  Connection.Mk ws None (make_chan 256) false.

Definition set_send (ch : Chan) (conn : Connection.t) : Connection.t :=
  Connection.Mk (Connection.ws conn) (Connection.player conn) ch
                (Connection.authenticated conn).

Definition set_player (p : option models.Player) (conn : Connection.t)
  : Connection.t :=
  Connection.Mk (Connection.ws conn) p (Connection.send conn)
                (Connection.authenticated conn).

(** What the HTTP client observes. *)
Inductive Response : Type :=
| HttpError (code : Z) (body : string)
| UpgradeFailed
| Established (c : ConnId).

Definition StatusUnauthorized : Z := 401.

Section handlers.
Context `{Externals}.

(** [func (c *Connection) SendMessage(msg *network.ServerMessage)]: the
    [select] with a [default] branch never waits. *)
Definition SendMessage (s : Server.t) (c : ConnId) (msg : network.ServerMessage)
  : Server.t :=
  match json_Marshal msg with
  | inl err => log_Printf ("Failed to marshal message: " +:+ err) s
  | inr data =>
      match Server.heap s !! c with
      | Some conn =>
          let ch := Connection.send conn in
          if (length (buf ch) <? cap ch)%nat then
            set_heap (<[c := set_send (MkChan (buf ch ++ [data]) (cap ch)) conn]>
                        (Server.heap s)) s
          else log_Printf "Send buffer full, dropping message" s
      | None => s
      end
  end.

(** [func (c *Connection) SendError(code, message string)] *)
Definition SendError (s : Server.t) (c : ConnId) (code message : string)
  : Server.t :=
  SendMessage s c
    (network.MkServerMessage network.MsgTypeError
       (network.ErrorPayload code message)).

(** [func (s *Session) BroadcastMessage(msg interface{})]; Go visits the
    connection table in an unspecified order, here the order of
    [map_to_list]. *)
Definition BroadcastMessage (s : Server.t) (msg : network.ServerMessage)
  : Server.t :=
  foldl (λ acc kc, SendMessage acc kc.2 msg) s
        (map_to_list (Session.connections (Server.session s))).

(** [func (s *Session) BroadcastExcept(exclude *Connection, msg *network.ServerMessage)] *)
Definition BroadcastExcept (s : Server.t) (exclude : ConnId)
    (msg : network.ServerMessage) : Server.t :=
  foldl (λ acc kc,
           if bool_decide (kc.2 ≠ exclude) then SendMessage acc kc.2 msg
           else acc)
        s (map_to_list (Session.connections (Server.session s))).

(** [time.Now().Unix()] for an instant in nanoseconds. *)
Definition unix (now : Z) : Z := now `div` 1000000000.

Definition welcome_message (s : Server.t) (player : models.Player)
  : network.ServerMessage :=
  let ses := Server.session s in
  let st := Session.status ses in
  network.MkServerMessage network.MsgTypeWelcome
    (network.WelcomePayload (models.ID player) (models.Username player)
       (Session.ID ses)
       (network.MkSessionStatus
          (SessionStatus.State st) (SessionStatus.PlayerCount st)
          (SessionStatus.MaxPlayers st) (SessionStatus.ServerTick st)
          (SessionStatus.Uptime st))).

Definition player_joined_message (player : models.Player)
  : network.ServerMessage :=
  network.MkServerMessage network.MsgTypePlayerJoined
    (network.PlayerJoinedPayload (models.ID player) (models.Username player)
       (models.Email player)).

Definition mark_connected (ses : Session.t) (now : Z) (p : models.Player)
  : models.Player :=
  models.MkPlayer (models.ID p) (models.Username p) (models.Email p)
    (models.UserType p) (models.Permissions p) (models.Activated p)
    (models.AuthMethod p) true now (models.LastSeen p) (Session.ID ses)
    (models.EmpireID p).

(** [func (c *Connection) handleJoin(payload json.RawMessage)].  The first
    statement reads [c.player.Username]: a nil player panics ([None]). *)
Definition handleJoin (s : Server.t) (c : ConnId) (now : Z) (payload : string)
  : option Server.t :=
  conn ← Server.heap s !! c;
  player ← Connection.player conn;
  let s := log_Printf ("Player join request from " +:+ models.Username player) s in
  if negb (Connection.authenticated conn) then
    Some (SendError s c "not_authenticated" "Connection not authenticated")
  else
    let player := mark_connected (Server.session s) now player in
    let s := set_heap (<[c := set_player (Some player) conn]> (Server.heap s)) s in
    match AddPlayer s player c with
    | (s, Some err) =>
        let s := log_Printf ("Failed to add player to session: " +:+ err) s in
        Some (SendError s c "join_failed" "Failed to join session")
    | (s, None) =>
        let s := SendMessage s c (welcome_message s player) in
        let s := BroadcastExcept s c (player_joined_message player) in
        Some (log_Printf ("Player " +:+ models.Username player
                            +:+ " joined session "
                            +:+ Session.ID (Server.session s)) s)
    end.

(** [func (c *Connection) handleLeave()] *)
Definition handleLeave (s : Server.t) (c : ConnId) : option Server.t :=
  conn ← Server.heap s !! c;
  match Connection.player conn with
  | Some player =>
      let s := RemovePlayer s (models.ID player) in
      Some (BroadcastMessage s
              (network.MkServerMessage network.MsgTypePlayerLeft
                 (network.PlayerLeftPayload (models.ID player)
                    (models.Username player))))
  | None => Some s
  end.

(** [func (c *Connection) handleChat(payload json.RawMessage)] *)
Definition handleChat (s : Server.t) (c : ConnId) (now : Z) (payload : string)
  : option Server.t :=
  conn ← Server.heap s !! c;
  match Connection.authenticated conn, Connection.player conn with
  | true, Some player =>
      match json_Unmarshal_ChatPayload payload with
      | inl err =>
          let s := log_Printf ("Failed to parse chat payload: " +:+ err) s in
          Some (SendError s c "invalid_chat" "Invalid chat message")
      | inr chatMsg =>
          let broadcast :=
            network.MkServerMessage network.MsgTypeChatBroadcast
              (network.ChatBroadcastPayload (models.ID player)
                 (models.Username player) (network.ChatMessage chatMsg)
                 (unix now)) in
          let s := BroadcastMessage s broadcast in
          Some (log_Printf ("Chat from " +:+ models.Username player +:+ ": "
                              +:+ network.ChatMessage chatMsg) s)
      end
  | _, _ =>
      Some (SendError s c "not_authenticated" "Must be authenticated to chat")
  end.

(** [func (c *Connection) handlePing()] *)
Definition handlePing (s : Server.t) (c : ConnId) (now : Z) : option Server.t :=
  _ ← Server.heap s !! c;
  Some (SendMessage s c
          (network.MkServerMessage network.MsgTypePong
             (network.PongPayload (unix now)))).

(** [func (c *Connection) handleMessage(msg *network.ClientMessage)] *)
Definition handleMessage (s : Server.t) (c : ConnId) (now : Z)
    (msg : network.ClientMessage) : option Server.t :=
  let ty := network.ClientType msg in
  let s := log_Printf ("Received message type: " +:+ ty) s in
  if bool_decide (ty = network.MsgTypeJoin) then
    handleJoin s c now (network.ClientPayload msg)
  else if bool_decide (ty = network.MsgTypeLeave) then handleLeave s c
  else if bool_decide (ty = network.MsgTypeChat) then
    handleChat s c now (network.ClientPayload msg)
  else if bool_decide (ty = network.MsgTypePing) then handlePing s c now
  else
    let s := log_Printf ("Unknown message type: " +:+ ty) s in
    Some (SendError s c "unknown_message_type" "Unknown message type").

(** *** Admission at the transport upgrade ([server.go]) *)

(** [func (s *Server) handleWebSocket(w http.ResponseWriter, r *http.Request)]
    up to the registration of the connection; the blocking
    [conn.Handle()] that follows is the message loop over
    [handleMessage]. *)
Definition handleWebSocket (s : Server.t) (now : Z) (r : Request)
  : option (Server.t * Response) :=
  let s := log_Printf ("New WebSocket connection request from " +:+ RemoteAddr r) s in
  tokenString ← extractTokenFromHeader r;
  if bool_decide (tokenString = EmptyString) then
    Some (log_Printf ("Missing JWT token from " +:+ RemoteAddr r) s,
          HttpError StatusUnauthorized "Missing authentication token")
  else
    match ValidateToken (Server.jwtValidator s) now tokenString with
    | (inl err, lines) =>
        let s := foldl (λ acc l, log_Printf l acc) s lines in
        Some (log_Printf ("Invalid JWT token from " +:+ RemoteAddr r +:+ ": " +:+ err) s,
              HttpError StatusUnauthorized ("Invalid token: " +:+ err))
    | (inr player, lines) =>
        let s := foldl (λ acc l, log_Printf l acc) s lines in
        let s := log_Printf ("Authenticated user: " +:+ models.Username player
                               +:+ " (" +:+ models.ID player +:+ ") from "
                               +:+ RemoteAddr r) s in
        match upgrader_Upgrade r with
        | inl err =>
            Some (log_Printf ("WebSocket upgrade failed: " +:+ err) s, UpgradeFailed)
        | inr ws =>
            let c : ConnId := fresh (dom (Server.heap s)) in
            let conn :=
              Connection.Mk ws (Some player) (Connection.send (NewConnection ws))
                            true in
            let s := set_heap (<[c := conn]> (Server.heap s)) s in
            let s := set_connections ({[c]} ∪ Server.connections s) s in
            Some (log_Printf ("WebSocket connection established: "
                                +:+ models.Username player +:+ " ("
                                +:+ RemoteAddr r +:+ ")") s,
                  Established c)
        end
    end.

End handlers.

(** *** Vocabulary of the properties *)

(** The queue after a non-blocking send of [data]. *)
Definition chan_offer (data : string) (ch : Chan) : Chan :=
  if (length (buf ch) <? cap ch)%nat then MkChan (buf ch ++ [data]) (cap ch)
  else ch.

Definition chan_full (ch : Chan) : Prop := (cap ch ≤ length (buf ch))%nat.

(** The connection after [data] was offered to its outbound queue. *)
Definition deliver (data : string) (conn : Connection.t) : Connection.t :=
  set_send (chan_offer data (Connection.send conn)) conn.

(** Under how many subject ids the connection table lists a connection. *)
Definition registrations (d : ConnId) (table : gmap string ConnId) : nat :=
  length (filter (λ kc : string * ConnId, kc.2 = d) (map_to_list table)).

(** Roster and connection table list the same subjects, and the status
    counts them. *)
Definition roster_consistent (ses : Session.t) : Prop :=
  dom (Session.players ses) = dom (Session.connections ses)
  ∧ SessionStatus.PlayerCount (Session.status ses)
    = Z.of_nat (size (Session.players ses)).

(** The status fields no operation of the session changes. *)
Definition status_idle (st : SessionStatus.t) : Prop :=
  SessionStatus.State st = "waiting"
  ∧ SessionStatus.ServerTick st = 0
  ∧ SessionStatus.Uptime st = 0.

(** Two sessions agree on state, tick, uptime and player bound. *)
Definition same_clock (a b : Session.t) : Prop :=
  SessionStatus.State (Session.status a) = SessionStatus.State (Session.status b)
  ∧ SessionStatus.ServerTick (Session.status a)
    = SessionStatus.ServerTick (Session.status b)
  ∧ SessionStatus.Uptime (Session.status a)
    = SessionStatus.Uptime (Session.status b)
  ∧ SessionStatus.MaxPlayers (Session.status a)
    = SessionStatus.MaxPlayers (Session.status b).

Section credential_checks.
Context `{Externals}.

(** The loop shared by [BroadcastMessage] and [BroadcastExcept]: offer
    [msg] to the connections of the table entries [l] that [keep]
    selects. *)
Definition fan_out (keep : ConnId → bool) (msg : network.ServerMessage)
    (s : Server.t) (l : list (string * ConnId)) : Server.t :=
  foldl (λ acc kc, if keep kc.2 then SendMessage acc kc.2 msg else acc) s l.

(** The token parses under the validator's key function, carries claims
    of the expected type and is marked valid by the library: its
    signature verifies with the cached key. *)
Definition verified (v : JWTValidator.t) (tokenString : string)
    (claims : Claims.t) : Prop :=
  ∃ token, jwt_ParseWithClaims tokenString (keyfunc v) = inr token
           ∧ Token.Claims token = Some claims
           ∧ Token.Valid token = true.

Definition blacklistKey (v : JWTValidator.t) (claims : Claims.t) : string :=
  config.BlacklistPrefix (config.Redis (JWTValidator.config v))
    +:+ pretty (Claims.UserID claims).

(** One of the checks of the specification fails on verified claims. *)
Definition claims_refused (v : JWTValidator.t) (now : Z) (claims : Claims.t)
  : Prop :=
  Claims.Issuer claims ≠ config.Issuer (config.JWT (JWTValidator.config v))
  ∨ (∃ exp, Claims.ExpiresAt claims = Some exp ∧ exp < now)
  ∨ Claims.Activated claims = 0
  ∨ Claims.Activated claims = -1
  ∨ (∃ n, redis_Exists (blacklistKey v claims) = inr n ∧ 0 < n).

(** The failure conditions of the specification's [validate]. *)
Definition rejected (v : JWTValidator.t) (now : Z) (tokenString : string)
  : Prop :=
  (¬ ∃ claims, verified v tokenString claims)
  ∨ (∃ claims, verified v tokenString claims ∧ claims_refused v now claims).

End credential_checks.

End server.

(** ** A concrete deployment, to run the model on *)

Module demo.
Import server.

Definition cfg : config.Config :=
  config.MkConfig
    (config.MkServerConfig "0.0.0.0" 8110 20)
    (config.MkJWTConfig "login.gravitas-games.com"
       "https://login.gravitas-games.com/public-key" 24)
    (config.MkRedisConfig "redis:6379" "" 0 "blacklist:")
    (config.MkSessionConfig 100 5)
    (config.MkChatConfig 500 10).

Definition key : PublicKey := MkPublicKey 7 11.

Definition validator : JWTValidator.t := JWTValidator.Mk cfg key.

Definition claims_for (uid : Z) (name : string) (issuer : string)
    (exp : Z) (activated : Z) : Claims.t :=
  Claims.Mk uid (name +:+ "@example.org") name "player" "password" 1
            activated issuer (Some exp).

(** The tokens of the scenarios; anything else is malformed. *)
Definition decode (tokenString : string) : option Token.t :=
  let ok := Token.Mk SigningMethodECDSA "ES256" in
  let iss := "login.gravitas-games.com" in
  if bool_decide (tokenString = "alice") then
    Some (ok (Some (claims_for 123 "alice" iss 2000 1697123456789000000)) true)
  else if bool_decide (tokenString = "bob") then
    Some (ok (Some (claims_for 124 "bob" iss 2000 1697123456789000000)) true)
  else if bool_decide (tokenString = "carol") then
    Some (ok (Some (claims_for 125 "carol" iss 2000 1697123456789000000)) true)
  else if bool_decide (tokenString = "banned") then
    Some (ok (Some (claims_for 126 "mallory" iss 2000 (-1))) true)
  else if bool_decide (tokenString = "revoked") then
    Some (ok (Some (claims_for 666 "eve" iss 2000 1697123456789000000)) true)
  else if bool_decide (tokenString = "flaky") then
    Some (ok (Some (claims_for 777 "dave" iss 2000 1697123456789000000)) true)
  else if bool_decide (tokenString = "hmac") then
    Some (Token.Mk SigningMethodHMAC "HS256"
            (Some (claims_for 123 "alice" iss 2000 1697123456789000000)) true)
  else None.

Definition parse (tokenString : string) (kf : Token.t → string + PublicKey)
  : string + Token.t :=
  match decode tokenString with
  | None => inl "token is malformed"
  | Some token =>
      match kf token with
      | inl err => inl err
      | inr k =>
          if bool_decide (k = key) then inr token
          else inl "signature is invalid"
      end
  end.

Definition exists_key (k : string) : string + Z :=
  if bool_decide (k = "blacklist:666") then inr 1
  else if bool_decide (k = "blacklist:777") then inl "dial tcp: connection refused"
  else inr 0.

(** A rendering that keeps what the scenarios look at. *)
Definition marshal (msg : network.ServerMessage) : string + string :=
  inr (match network.Payload_ msg with
       | network.WelcomePayload _ name _ st =>
           "welcome:" +:+ name +:+ ":" +:+ network.State st +:+ ":"
             +:+ pretty (network.PlayerCount st)
       | network.PlayerJoinedPayload _ name _ => "player_joined:" +:+ name
       | network.PlayerLeftPayload _ name => "player_left:" +:+ name
       | network.ChatBroadcastPayload _ name m _ => "chat:" +:+ name +:+ ":" +:+ m
       | network.ErrorPayload code _ => "error:" +:+ code
       | network.PongPayload _ => "pong"
       end).

#[local] Instance externals : Externals := {|
  jwt_ParseWithClaims := parse;
  redis_Exists := exists_key;
  json_Marshal := marshal;
  json_Unmarshal_ChatPayload := λ raw, inr (network.MkChatPayload raw);
  upgrader_Upgrade := λ _, inr 1%nat
|}.

Definition session0 : Session.t :=
  Session.Mk "main" 0 ∅ ∅ (gamemap.MkGameMap ∅ 5)
    (SessionStatus.Mk "waiting" 0 100 0 0) (make_chan 256) cfg.

Definition server0 : Server.t :=
  Server.Mk cfg session0 validator ∅ ∅ [].

(** Alice as [ValidateToken] makes her, on a fresh connection. *)
Definition alice : models.Player :=
  models.MkPlayer "123" "alice" "alice@example.org" "player" 1
    1697123456789000000 "password" false 0 0 "" "123".

Definition server1 : Server.t :=
  Server.Mk cfg session0 validator {[ 0%nat ]}
    {[ 0%nat := Connection.Mk 1%nat (Some alice) (make_chan 256) true ]} [].


Definition pong : network.ServerMessage :=
  network.MkServerMessage network.MsgTypePong (network.PongPayload 1000).

Definition request (tokenString : string) : Request :=
  MkRequest "10.0.0.7:51000"
    {[ "Sec-WebSocket-Protocol" := "access_token, " +:+ tokenString ]} ∅.

(** Connect with a token, then send [join]. *)
Definition connect_and_join (s : Server.t) (now : Z) (tokenString : string)
  : option Server.t :=
  match handleWebSocket s now (request tokenString) with
  | Some (s, Established c) =>
      handleMessage s c now (network.MkClientMessage "join" "{}")
  | _ => None
  end.

(** Alice, Bob and Carol have joined; their connections are 0, 1 and 2. *)
Definition three_joined : option Server.t :=
  s ← connect_and_join server0 1000 "alice";
  s ← connect_and_join s 1000 "bob";
  connect_and_join s 1000 "carol".

(** The same connection sends [n] chat messages in a row. *)
Fixpoint chats (n : nat) (c : ConnId) (now : Z) (s : Server.t) : option Server.t :=
  match n with
  | O => Some s
  | S n' =>
      s ← handleMessage s c now (network.MkClientMessage "chat" "hi");
      chats n' c now s
  end.

Definition queue (c : ConnId) (s : Server.t) : list string :=
  match Server.heap s !! c with
  | Some conn => buf (Connection.send conn)
  | None => []
  end.

End demo.


(** ** The server as a transition system *)

Module runtime.
Import server.

(** What reaches the server: a request on [/ws], or a frame read by the
    read pump of an established connection. *)
Inductive Event : Type :=
| Connect (now : Z) (r : Request)
| Receive (now : Z) (c : ConnId) (msg : network.ClientMessage).

(** [func New(cfg *config.Config)] once the revocation store answered the
    ping and the validator [v] fetched its key: the session "main" is
    created and no connection is tracked. *)
Definition New (cfg : config.Config) (v : JWTValidator.t) (now : Z)
  : string + Server.t :=
  match NewSession "main" cfg now with
  | inl err => inl err
  | inr session => inr (Server.Mk cfg session v ∅ ∅ [])
  end.

(** A connection changed, if at all, only in the content of its queue and
    in the connection state of its player. *)
Definition conn_evolves (a b : Connection.t) : Prop :=
  Connection.ws b = Connection.ws a
  ∧ models.ID <$> Connection.player b = models.ID <$> Connection.player a
  ∧ Connection.authenticated b = Connection.authenticated a
  ∧ cap (Connection.send b) = cap (Connection.send a)
  ∧ ((length (buf (Connection.send a)) ≤ cap (Connection.send a))%nat →
     (length (buf (Connection.send b)) ≤ cap (Connection.send b))%nat).

Definition heap_evolves (h h' : gmap ConnId Connection.t) : Prop :=
  ∀ d, match h !! d, h' !! d with
       | Some a, Some b => conn_evolves a b
       | None, None => True
       | _, _ => False
       end.

(** The shape of every state the server gets into. *)
Record sound (s : Server.t) : Prop := MkSound {
  sound_roster : roster_consistent (Server.session s);
  sound_roster_ids :
    ∀ k p, Session.players (Server.session s) !! k = Some p → models.ID p = k;
  sound_table :
    ∀ k d, Session.connections (Server.session s) !! k = Some d →
           ∃ conn p, Server.heap s !! d = Some conn
                     ∧ Connection.player conn = Some p
                     ∧ models.ID p = k;
  sound_conns :
    ∀ d conn, Server.heap s !! d = Some conn →
              Connection.authenticated conn = true
              ∧ is_Some (Connection.player conn)
              ∧ cap (Connection.send conn) = 256%nat
              ∧ (length (buf (Connection.send conn)) ≤ 256)%nat;
  sound_tracked : dom (Server.heap s) = Server.connections s;
  sound_status : status_idle (Session.status (Server.session s))
}.

Section steps.
Context `{Externals}.

(** One event handled; a frame can only come from a tracked
    connection. *)
Definition step (s : Server.t) (ev : Event) : option Server.t :=
  match ev with
  | Connect now r => fst <$> handleWebSocket s now r
  | Receive now c msg =>
      if bool_decide (c ∈ Server.connections s) then handleMessage s c now msg
      else None
  end.

Definition run (s : Server.t) (evs : list Event) : option Server.t :=
  foldl (λ acc ev, s' ← acc; step s' ev) (Some s) evs.

End steps.

End runtime.


(** ** A server booted on a one-chunk world *)

Module demo_run.
Import server.

Definition cfg0 : config.Config :=
  config.MkConfig
    (config.Server demo.cfg) (config.JWT demo.cfg) (config.Redis demo.cfg)
    (config.MkSessionConfig 2 0) (config.Chat demo.cfg).

Definition validator0 : JWTValidator.t := JWTValidator.Mk cfg0 demo.key.

Definition world0 : gamemap.GameMap :=
  (gamemap.generateChunks (gamemap.MkGameMap ∅ 0)).1.

Definition booted : Server.t :=
  Server.Mk cfg0
    (Session.Mk "main" 0 ∅ ∅ world0 (SessionStatus.Mk "waiting" 0 2 0 0)
       (make_chan 256) cfg0)
    validator0 ∅ ∅ [].

Definition join : network.ClientMessage := network.MkClientMessage "join" "{}".
Definition leave : network.ClientMessage := network.MkClientMessage "leave" "{}".

(** Alice connects and joins, Bob connects and joins. *)
Definition two_join : list runtime.Event :=
  [ runtime.Connect 1000 (demo.request "alice");
    runtime.Receive 1000 0%nat join;
    runtime.Connect 1001 (demo.request "bob");
    runtime.Receive 1001 1%nat join ].

Definition after_two_join : Server.t :=
  default booted (runtime.run (H := demo.externals) booted two_join).

(** Alice's connection once both have joined. *)
Definition alice_after : Connection.t :=
  Connection.Mk 1%nat
    (Some (models.MkPlayer "123" "alice" "alice@example.org" "player" 1
             1697123456789000000 "password" true 1000 0 "main" "123"))
    (MkChan [ "welcome:alice:waiting:1"; "player_joined:bob" ] 256) true.

Definition after_connect : Server.t :=
  default demo.server0
    (fst <$> handleWebSocket (H := demo.externals) demo.server0 1000
               (demo.request "alice")).

Definition alice_joined : models.Player :=
  models.MkPlayer "123" "alice" "alice@example.org" "player" 1
    1697123456789000000 "password" true 1000 0 "main" "123".

(** A connection object that was never authenticated. *)
Definition server_unauthenticated : Server.t :=
  Server.Mk demo.cfg demo.session0 demo.validator {[ 0%nat ]}
    {[ 0%nat := NewConnection 1%nat ]} [].

(** A deployment whose identity service issued a token with
    [activated = -2]. *)
Definition odd_claims : Claims.t :=
  demo.claims_for 128 "oscar" "login.gravitas-games.com" 2000 (-2).

Definition parse_odd (tokenString : string) (kf : Token.t → string + PublicKey)
  : string + Token.t :=
  if bool_decide (tokenString = "odd") then
    let token := Token.Mk SigningMethodECDSA "ES256" (Some odd_claims) true in
    match kf token with
    | inl err => inl err
    | inr _ => inr token
    end
  else demo.parse tokenString kf.

Definition externals_odd : Externals := {|
  jwt_ParseWithClaims := parse_odd;
  redis_Exists := demo.exists_key;
  json_Marshal := demo.marshal;
  json_Unmarshal_ChatPayload := λ raw, inr (network.MkChatPayload raw);
  upgrader_Upgrade := λ _, inr 1%nat
|}.

End demo_run.


(** ** Vocabulary for the string helpers of [auth.go] *)

Module auth_strings.
Import server.

Definition starts_blank (s : string) : bool :=
  match s with
  | String a _ => is_blank a
  | EmptyString => false
  end.

Definition ends_blank (s : string) : bool := starts_blank (String.rev s).

Fixpoint all_blank (s : string) : bool :=
  match s with
  | String a s' => is_blank a && all_blank s'
  | EmptyString => true
  end.

Fixpoint occurrences (c : ascii) (s : string) : nat :=
  match s with
  | String a s' => (if Ascii.eqb a c then 1 else 0) + occurrences c s'
  | EmptyString => 0
  end.

End auth_strings.


(** ** More of the hex kernel, and its geometry *)

Module hex_geometry.
Import hex.

(** [func (c Cube) ToAxial() Axial] *)
Definition ToAxial (c : Cube) : Axial := MkAxial (X c) (Zc c).

(** [func min(a, b int) int] and [func max(a, b int) int] of [grid.go]. *)
Definition min (a b : Z) : Z := if a <? b then a else b.
Definition max (a b : Z) : Z := if b <? a then a else b.

(** The largest allocation of the runtime on 64-bit platforms, in
    bytes. *)
Definition maxAlloc : Z := 2 ^ 48.

(** [make([]T, 0, n)] for elements of [size] bytes: the runtime panics
    with "cap out of range" when [n] is negative and when [size * n]
    bytes exceed [maxAlloc]. *)
Definition make_ok (size n : Z) : bool :=
  (0 <=? n) && (size * n <=? maxAlloc).

(** [func Disk(c Axial, r int) []Axial]; an [Axial] takes 16 bytes. *)
Definition Disk (c : Axial) (r : Z) : option (list Axial) :=
  let size := GoInt.add 1 (GoInt.mul (GoInt.mul 3 r) (GoInt.add r 1)) in
  if negb (make_ok 16 size) then None
  else
    Some (q ← gamemap.int_range (GoInt.neg r) r;
          (λ r2, Add c (MkAxial q r2)) <$>
            gamemap.int_range (max (GoInt.neg r) (GoInt.sub (GoInt.neg q) r))
                              (min r (GoInt.add (GoInt.neg q) r))).

(** Coordinates far from the limits of machine integers. *)
Definition bounded (b : Z) (a : Axial) : Prop :=
  Z.abs (Q a) <= b ∧ Z.abs (R a) <= b.

(** The hex distance of the plane, over the integers. *)
Definition dist (a b : Axial) : Z :=
  Z.max (Z.abs (Q a - Q b))
        (Z.max (Z.abs (R a - R b)) (Z.abs ((Q a + R a) - (Q b + R b)))).

(** [Directions[i]] for a valid index. *)
Definition dir (i : nat) : Axial := default (MkAxial 0 0) (Directions !! i).

(** The cell [Ring] appends at step [t] of side [side]: the corner
    [c + k * Directions[(side+4) mod 6]] moved [t] times along
    [Directions[side]]. *)
Definition ring_cell (c : Axial) (k : Z) (side t : nat) : Axial :=
  MkAxial (Q c + k * Q (dir ((side + 4) mod 6)) + Z.of_nat t * Q (dir side))
          (R c + k * R (dir ((side + 4) mod 6)) + Z.of_nat t * R (dir side)).

Definition ring_side_cells (c : Axial) (k : Z) (side : nat) : list Axial :=
  ring_cell c k side <$> seq 0 (Z.to_nat k).

Definition ring_cells (c : Axial) (k : Z) : list Axial :=
  ring_side_cells c k 0 ++ ring_side_cells c k 1 ++ ring_side_cells c k 2
    ++ ring_side_cells c k 3 ++ ring_side_cells c k 4 ++ ring_side_cells c k 5.

End hex_geometry.

(** ** Package [chunk] of hexcore: chunk centres, spurs and links *)

Module chunk.
Import hex.

(** [hexcore.Dead] and [hexcore.Space] *)
Definition Dead : Z := 0.
Definition Space : Z := 1.

(** [l[i]] for a slice: an index out of range panics. *)
Definition index {A : Type} (l : list A) (i : Z) : option A :=
  if i <? 0 then None else l !! Z.to_nat i.

(** A loop over a slice whose body may panic. *)
Fixpoint for_each {A B : Type} (body : B → A → option B) (st : B) (l : list A)
  : option B :=
  match l with
  | [] => Some st
  | x :: l' => st' ← body st x; for_each body st' l'
  end.

(** [func NeighborChunkCenter(center hex.Axial, radius int, side int) hex.Axial] *)
Definition NeighborChunkCenter (center : Axial) (radius side : Z)
  : option Axial :=
  d ← index Directions side;
  i ← GoInt.rem (GoInt.add side 5) 6;
  dprev ← index Directions i;
  let v := MkAxial (GoInt.add (Q d) (Q dprev)) (GoInt.add (R d) (R dprev)) in
  Some (Add center (Mul v radius)).

(** [type Spur struct { Origin hex.Axial; Dir int }] *)
Record Spur : Type := MkSpur { Origin : Axial; Dir : Z }.

(** [type Link struct { From hex.Axial; To hex.Axial }] *)
Record Link : Type := MkLink { From : Axial; To : Axial }.

(** [unionState[a]] for a [map[hex.Axial]int]: a missing key reads 0. *)
Definition state_of (unionState : gmap Axial Z) (a : Axial) : Z :=
  default 0 (unionState !! a).

(** The [present] map of [ComputeBoundarySpurs] and
    [EvaluateInternalLinks]: [true] at every key of [unionState]. *)
Definition present_of (unionState : gmap Axial Z) : gset Axial :=
  dom unionState.

(** The closure [neighborPresentCount] of [ComputeBoundarySpurs]. *)
Definition neighborPresentCount (present : gset Axial) (a : Axial) : Z :=
  Z.of_nat (length (filter (λ d, Add a d ∈ present) Directions)).

(** The choice of [chosen] in [ComputeBoundarySpurs]: the side [s] when
    the cell beyond is absent, else the first direction with an absent
    cell, else -1. *)
Definition choose_dir (present : gset Axial) (a : Axial) (s : Z) : option Z :=
  ds ← index Directions s;
  if decide (Add a ds ∈ present) then
    Some (match list_find (λ d, Add a d ∉ present) Directions with
          | Some (i, _) => Z.of_nat i
          | None => -1
          end)
  else Some s.

(** Body of the loop over the cells of an edge; the state is
    [(dedup, out)]. *)
Definition spur_at (unionState : gmap Axial Z) (s : Z)
    (st : gset Axial * list Spur) (a : Axial)
  : option (gset Axial * list Spur) :=
  match unionState !! a with
  | None => Some st
  | Some v =>
      if negb (v =? Space) then Some st
      else if 6 <=? neighborPresentCount (present_of unionState) a then Some st
      else if decide (a ∈ st.1) then Some st
      else
        chosen ← choose_dir (present_of unionState) a s;
        if 0 <=? chosen
        then Some ({[a]} ∪ st.1, st.2 ++ [MkSpur a chosen])
        else Some st
  end.

(** Body of the loop over the six sides of a chunk centre [c]. *)
Definition spur_side (planSet : gset Axial) (R : Z) (unionState : gmap Axial Z)
    (c : Axial) (st : gset Axial * list Spur) (s : Z)
  : option (gset Axial * list Spur) :=
  nb ← NeighborChunkCenter c R s;
  if decide (nb ∈ planSet) then Some st
  else
    edge ← Edge c R s;
    for_each (spur_at unionState s) st edge.

(** [func ComputeBoundarySpurs(plan []hex.Axial, R int,
    unionState map[hex.Axial]int) []Spur] *)
Definition ComputeBoundarySpurs (plan : list Axial) (R : Z)
    (unionState : gmap Axial Z) : option (list Spur) :=
  let planSet : gset Axial := list_to_set plan in
  st ← for_each
         (λ st c, for_each (spur_side planSet R unionState c) st
                           (gamemap.int_range 0 5))
         (∅, []) plan;
  Some st.2.

(** [func hasAdjacentGreen(a hex.Axial, unionState map[hex.Axial]int) bool] *)
Definition hasAdjacentGreen (a : Axial) (unionState : gmap Axial Z) : bool :=
  existsb (λ d, state_of unionState (Add a d) =? Space) Directions.

(** The ray of [EvaluateInternalLinks]: up to [steps] moves along [d],
    stopping at the first present cell. *)
Fixpoint cast_ray (present : gset Axial) (d cur : Axial) (steps : nat)
  : option Axial :=
  match steps with
  | O => None
  | S n =>
      let cur' := Add cur d in
      if decide (cur' ∈ present) then Some cur' else cast_ray present d cur' n
  end.

(** Body of the loop over the spurs; the state is [(links, rejected)]. *)
Definition evaluate_spur (R : Z) (unionState : gmap Axial Z)
    (st : list Link * list Axial) (sp : Spur)
  : option (list Link * list Axial) :=
  let a := Origin sp in
  d ← index Directions (Dir sp);
  match cast_ray (present_of unionState) d a (Z.to_nat (GoInt.mul 8 R)) with
  | None => Some st
  | Some hit =>
      let s := state_of unionState hit in
      let isGreen := s =? Space in
      let isGreyAdjGreen := (s =? Dead) && hasAdjacentGreen hit unionState in
      if isGreen || isGreyAdjGreen
      then Some (st.1 ++ [MkLink a hit], st.2)
      else Some (st.1, st.2 ++ [a])
  end.

(** [func EvaluateInternalLinks(spurs []Spur, R int,
    unionState map[hex.Axial]int) (links []Link, rejected []hex.Axial)] *)
Definition EvaluateInternalLinks (spurs : list Spur) (R : Z)
    (unionState : gmap Axial Z) : option (list Link * list Axial) :=
  for_each (evaluate_spur R unionState) ([], []) spurs.

(** [func ChunkOf(a hex.Axial, plan []hex.Axial, R int) (hex.Axial, bool)] *)
Fixpoint ChunkOf (a : Axial) (plan : list Axial) (R : Z) : Axial * bool :=
  match plan with
  | [] => (MkAxial 0 0, false)
  | c :: plan' =>
      if DistanceAxial c a <=? R then (c, true) else ChunkOf a plan' R
  end.

End chunk.

Module chunk_geometry.
Import hex hex_geometry.

(** The step between neighbouring chunk centres on side [s]:
    [Directions[s] + Directions[(s+5) mod 6]]. *)
Definition diagonal (s : nat) : Axial :=
  MkAxial (Q (dir s) + Q (dir ((s + 5) mod 6)))
          (R (dir s) + R (dir ((s + 5) mod 6))).

(** The centre reached from [c] by [k] diagonal steps on side [s]. *)
Definition neighbour (c : Axial) (k : Z) (s : nat) : Axial :=
  MkAxial (Q c + Q (diagonal s) * k) (R c + R (diagonal s) * k).

(** The cell [k] steps from [a] along [d], as the ray loop computes it. *)
Definition ray (a d : Axial) (k : nat) : Axial :=
  Nat.iter k (λ x, Add x d) a.

(** Side [s] of the chunk centre [c] is open: the plan has no centre
    where [NeighborChunkCenter] looks for one. *)
Definition open_side (plan : list Axial) (k : Z) (c : Axial) (s : Z) : Prop :=
  c ∈ plan ∧ 0 <= s < 6
  ∧ ∃ nb, chunk.NeighborChunkCenter c k s = Some nb ∧ nb ∉ plan.

(** The cell is one of those [Edge] lists for an open side. *)
Definition on_open_edge (plan : list Axial) (k : Z) (a : Axial) : Prop :=
  ∃ c s e, open_side plan k c s ∧ Edge c k s = Some e ∧ a ∈ e.

(** A Space cell of the union with at least one of its six neighbours
    missing from the union. *)
Definition frontier (unionState : gmap Axial Z) (a : Axial) : Prop :=
  unionState !! a = Some chunk.Space
  ∧ ∃ d, d ∈ Directions ∧ Add a d ∉ dom unionState.

(** A spur starts at a Space cell of an open edge and points to a cell
    that is missing from the union. *)
Definition spur_ok (unionState : gmap Axial Z) (plan : list Axial) (k : Z)
    (sp : chunk.Spur) : Prop :=
  unionState !! chunk.Origin sp = Some chunk.Space
  ∧ (∃ d, chunk.index Directions (chunk.Dir sp) = Some d
          ∧ Add (chunk.Origin sp) d ∉ dom unionState)
  ∧ on_open_edge plan k (chunk.Origin sp).

(** The loop invariant of [ComputeBoundarySpurs] on [(dedup, out)]:
    [dedup] holds the origins of [out], which are distinct, and every
    spur of [out] is sound. *)
Definition spur_inv (unionState : gmap Axial Z) (plan : list Axial) (k : Z)
    (st : gset Axial * list chunk.Spur) : Prop :=
  (∀ a, a ∈ st.1 ↔ a ∈ chunk.Origin <$> st.2)
  ∧ NoDup (chunk.Origin <$> st.2)
  ∧ Forall (spur_ok unionState plan k) st.2.

(** The loops only ever add origins. *)
Definition spur_grows (st st' : gset Axial * list chunk.Spur) : Prop :=
  st.1 ⊆ st'.1.

(** Side [s] of centre [c] has been examined: every frontier cell of its
    edge is an origin, if the side is open. *)
Definition edge_done (unionState : gmap Axial Z) (plan : list Axial) (k : Z)
    (c : Axial) (s : Z) (st : gset Axial * list chunk.Spur) : Prop :=
  ∀ nb e a, chunk.NeighborChunkCenter c k s = Some nb → nb ∉ plan →
            Edge c k s = Some e → a ∈ e → frontier unionState a → a ∈ st.1.

(** A link joins the origin of a spur to the first cell of the union on
    its ray, within [8k] steps; the cell is Space, or Dead beside a Space
    cell. *)
Definition link_ok (unionState : gmap Axial Z) (k : Z) (spurs : list chunk.Spur)
    (ln : chunk.Link) : Prop :=
  ∃ sp j,
    sp ∈ spurs
    ∧ (1 ≤ j ≤ Z.to_nat (GoInt.mul 8 k))%nat
    ∧ chunk.From ln = chunk.Origin sp
    ∧ chunk.To ln = ray (chunk.Origin sp) (dir (Z.to_nat (chunk.Dir sp))) j
    ∧ (∀ i, (1 ≤ i < j)%nat →
         ray (chunk.Origin sp) (dir (Z.to_nat (chunk.Dir sp))) i
           ∉ dom unionState)
    ∧ (unionState !! chunk.To ln = Some chunk.Space
       ∨ (unionState !! chunk.To ln = Some chunk.Dead
          ∧ ∃ d, d ∈ Directions
                 ∧ unionState !! Add (chunk.To ln) d = Some chunk.Space)).

(** The loop invariant of [EvaluateInternalLinks] on [(links, rejected)]. *)
Definition link_inv (unionState : gmap Axial Z) (k : Z) (spurs : list chunk.Spur)
    (st : list chunk.Link * list Axial) : Prop :=
  Forall (link_ok unionState k spurs) st.1
  ∧ Forall (λ a, a ∈ chunk.Origin <$> spurs) st.2.

End chunk_geometry.

(** A single chunk of radius 1 around the origin with all seven cells
    Space, and a spur from its centre. *)
Module chunk_demo.
Import hex chunk.

Definition origin : Axial := MkAxial 0 0.

Definition plan : list Axial := [origin].

Definition union : gmap Axial Z :=
  list_to_map ((λ a, (a, Space)) <$> origin :: (Add origin <$> Directions)).

Definition spurs : list Spur := [MkSpur (MkAxial (-3) 0) 0].

End chunk_demo.

(** ** Package [path] of hexcore: neighbours, portals and breadth-first search *)

Module path.
Import hex.

(** [func HeuristicTo(goal hex.Axial) func(a hex.Axial) int] *)
Definition HeuristicTo (goal : Axial) : Axial → Z :=
  λ a, DistanceAxial a goal.

(** [func NeighborsWithinDisc(center hex.Axial, R int) func(a hex.Axial) []hex.Axial] *)
Definition NeighborsWithinDisc (center : Axial) (R : Z) : Axial → list Axial :=
  λ a, d ← Directions;
       let b := Add a d in
       if DistanceAxial center b <=? R then [b] else [].

(** [func neighborsWithinDisc(a, center hex.Axial, R int) []hex.Axial] *)
Definition neighborsWithinDisc (a center : Axial) (R : Z) : list Axial :=
  d ← Directions;
  let b := Add a d in
  if DistanceAxial center b <=? R then [b] else [].

(** [func NeighborsFromUnion(union map[hex.Axial]bool,
    passable func(a hex.Axial) bool) func(a hex.Axial) []hex.Axial];
    a missing key of [union] reads [false]. *)
Definition NeighborsFromUnion (union : gmap Axial bool) (passable : Axial → bool)
  : Axial → list Axial :=
  λ a, d ← Directions;
       let b := Add a d in
       if default false (union !! b) && passable b then [b] else [].

(** [func CarvePath(cells map[hex.Axial]hexcore.HexState, path []hex.Axial,
    locked map[hex.Axial]bool)]: both maps are updated in place. *)
Definition CarvePath (cells : gmap Axial Z) (path : list Axial)
    (locked : gmap Axial bool) : gmap Axial Z * gmap Axial bool :=
  foldl (λ st a, (<[a := chunk.Space]> st.1, <[a := true]> st.2))
        (cells, locked) path.

(** Arithmetic on [uint64]. *)
Definition u64 (z : Z) : Z := z mod 2 ^ 64.

(** [func hashCoordWithSeed(seed int64, a hex.Axial) uint64] *)
Definition hashCoordWithSeed (seed : Z) (a : Axial) : Z :=
  let x := u64 seed in
  let x := Z.lxor x (u64 ((Q a mod 2 ^ 32) * 0x9E3779B97F4A7C15)) in
  let x := Z.lxor x (u64 ((R a mod 2 ^ 32) * 0xBF58476D1CE4E5B9)) in
  let x := u64 (Z.lxor x (Z.shiftr x 30) * 0xBF58476D1CE4E5B9) in
  let x := u64 (Z.lxor x (Z.shiftr x 27) * 0x94D049BB133111EB) in
  Z.lxor x (Z.shiftr x 31).

(** Body of the scan of [SelectPortalDeterministic]; the state is
    [(bestIdx, best)]. *)
Definition select_step (seed : Z) (st : Z * Z) (ia : nat * Axial) : Z * Z :=
  let h := hashCoordWithSeed seed ia.2 in
  if h <? st.2 then (Z.of_nat ia.1, h) else st.

(** [func SelectPortalDeterministic(center hex.Axial, R int, side int,
    seed int64) (hex.Axial, int)] *)
Definition SelectPortalDeterministic (center : Axial) (R side seed : Z)
  : option (Axial * Z) :=
  edge ← Edge center R side;
  if (Z.of_nat (length edge) =? 0) then Some (center, 0)
  else
    let st := foldl (select_step seed) (0, 2 ^ 64 - 1) (imap pair edge) in
    a ← chunk.index edge st.1;
    Some (a, st.1).

(** The state of the search of [BFSPath]. *)
Record bfs : Type := MkBfs {
  prev : gmap Axial Axial;
  visited : gset Axial;
  q : list Axial;
  found : bool
}.

(** Body of the loop over [order] for the dequeued cell [cur]; once
    [found] is set the loop has been left by [break]. *)
Definition bfs_visit (center : Axial) (R : Z) (goal cur : Axial)
    (st : bfs) (idx : Z) : option bfs :=
  if found st then Some st
  else
    d ← chunk.index Directions idx;
    let nxt := Add cur d in
    if R <? DistanceAxial center nxt then Some st
    else if decide (nxt ∈ visited st) then Some st
    else
      let visited' := {[nxt]} ∪ visited st in
      let prev' := <[nxt := cur]> (prev st) in
      if decide (nxt = goal) then Some (MkBfs prev' visited' (q st) true)
      else Some (MkBfs prev' visited' (q st ++ [nxt]) false).

(** [for len(q) > 0 && !found { ... }]; [None] is a panic, or a search
    that is not over after [fuel] rounds. *)
Fixpoint bfs_loop (fuel : nat) (center : Axial) (R : Z) (goal : Axial)
    (order : list Z) (st : bfs) : option bfs :=
  match q st with
  | [] => Some st
  | cur :: rest =>
      if found st then Some st
      else
        match fuel with
        | O => None
        | S n =>
            st' ← chunk.for_each (bfs_visit center R goal cur)
                   (MkBfs (prev st) (visited st) rest false) order;
            bfs_loop n center R goal order st'
        end
  end.

(** [for cur != startK { cur = prev[cur]; path = append(path, cur) }];
    a missing key of [prev] reads the zero coordinate. *)
Fixpoint walk_back (fuel : nat) (prev : gmap Axial Axial) (start cur : Axial)
    (path : list Axial) : option (list Axial) :=
  if decide (cur = start) then Some path
  else
    match fuel with
    | O => None
    | S n =>
        let cur' := default (MkAxial 0 0) (prev !! cur) in
        walk_back n prev start cur' (path ++ [cur'])
    end.

(** [func BFSPath(center hex.Axial, R int, start, goal hex.Axial,
    rng *rand.Rand) []hex.Axial].  [order] is the slice [0..5] after
    [rng.Shuffle], which only swaps its entries.  The result is [None] for
    a panic or when [fuel] rounds do not suffice, [Some None] for [nil],
    and [Some (Some path)] for a path. *)
Definition BFSPath (fuel : nat) (center : Axial) (R : Z) (start goal : Axial)
    (order : list Z) : option (option (list Axial)) :=
  if decide (start = goal) then Some (Some [start])
  else
    st ← bfs_loop fuel center R goal order (MkBfs ∅ {[start]} [start] false);
    if negb (found st) then Some None
    else
      path ← walk_back fuel (prev st) start goal [goal];
      Some (Some (reverse path)).

End path.

Module path_geometry.
Import hex hex_geometry.

(** One move of the search: to a neighbouring cell inside the disc. *)
Definition move (center : Axial) (k : Z) (a b : Axial) : Prop :=
  (∃ d, d ∈ Directions ∧ b = Add a d) ∧ DistanceAxial center b <= k.

(** [a] reaches [start] by [n] steps along [prev]. *)
Inductive chain (prev : gmap Axial Axial) (start : Axial) : Axial → nat → Prop :=
| chain_start : chain prev start start 0
| chain_step a b n :
    a ≠ start → prev !! a = Some b → chain prev start b n →
    chain prev start a (S n).

(** A path of the search: from [start] to [goal], by moves inside the
    disc, through pairwise different cells. *)
Definition path_ok (center : Axial) (k : Z) (start goal : Axial)
    (p : list Axial) : Prop :=
  head p = Some start ∧ last p = Some goal ∧ NoDup p
  ∧ ∀ i a b, p !! i = Some a → p !! S i = Some b → move center k a b.

(** The cells the search can ever visit: [start] and the disc. *)
Definition disc_cells (center : Axial) (k : Z) (start : Axial) : gset Axial :=
  {[start]} ∪ list_to_set (Add center <$> gamemap.disk_coords k).

(** The invariant of the search: the visited cells form a tree rooted at
    [start], with [prev] as the parent map and moves as edges. *)
Record bfs_inv (center : Axial) (k : Z) (start goal : Axial) (st : path.bfs)
  : Prop := MkBfsInv {
  inv_start : start ∈ path.visited st;
  inv_cells : path.visited st ⊆ disc_cells center k start;
  inv_queue : ∀ a, a ∈ path.q st → a ∈ path.visited st;
  inv_prev : ∀ a b, path.prev st !! a = Some b →
               a ∈ path.visited st ∧ a ≠ start ∧ b ∈ path.visited st
               ∧ move center k b a;
  inv_tree : ∀ a, a ∈ path.visited st → ∃ n, chain (path.prev st) start a n;
  inv_found : path.found st = true → goal ∈ path.visited st
}.

(** While the goal is not found it is not visited, and every visited
    cell is still open (queued or being expanded) or has all its
    neighbours inside the disc visited. *)
Definition bfs_closed (center : Axial) (k : Z) (goal : Axial)
    (open : list Axial) (st : path.bfs) : Prop :=
  path.found st = false →
  (goal ∉ path.visited st)
  ∧ ∀ a, a ∈ path.visited st →
      (a ∈ open)
      ∨ ∀ d, d ∈ Directions → DistanceAxial center (Add a d) <= k →
             Add a d ∈ path.visited st.

(** Progress of the search: cells are only added, every cell added to
    the queue is newly visited, and [found] is never reset. *)
Definition bfs_le (st st' : path.bfs) : Prop :=
  path.visited st ⊆ path.visited st'
  ∧ (length (path.q st') + size (path.visited st)
     ≤ length (path.q st) + size (path.visited st'))%nat
  ∧ (path.found st' = false → path.found st = false).

(** Direction [idx] of the expanded cell [cur] has been looked at. *)
Definition bfs_seen (center : Axial) (k : Z) (cur : Axial) (idx : Z)
    (st : path.bfs) : Prop :=
  path.found st = false →
  ∀ d, chunk.index Directions idx = Some d →
       DistanceAxial center (Add cur d) <= k → Add cur d ∈ path.visited st.

(** The search proceeds by layers: the depths of the open cells never
    decrease along the queue and differ by at most one; no expanded cell
    is deeper than an open one; and a move from an expanded cell adds at
    most one to the depth. *)
Definition bfs_layers (center : Axial) (k : Z) (start : Axial)
    (open : list Axial) (st : path.bfs) : Prop :=
  path.found st = false →
  (∀ l1 l2 a b m n,
     open = l1 ++ l2 → a ∈ l1 → b ∈ l2 →
     chain (path.prev st) start a m → chain (path.prev st) start b n →
     (m ≤ n)%nat)
  ∧ (∀ a b m n,
       a ∈ open → b ∈ open →
       chain (path.prev st) start a m → chain (path.prev st) start b n →
       (n ≤ S m)%nat)
  ∧ (∀ u v m n,
       u ∈ path.visited st → u ∉ open → v ∈ open →
       chain (path.prev st) start u m → chain (path.prev st) start v n →
       (m ≤ n)%nat)
  ∧ (∀ u v m n,
       u ∈ path.visited st → u ∉ open → move center k u v →
       chain (path.prev st) start u m → chain (path.prev st) start v n →
       (n ≤ S m)%nat).

(** Once the goal is found, no walk from [start] reaches it in fewer
    moves than its depth in the tree. *)
Definition bfs_short (center : Axial) (k : Z) (start goal : Axial)
    (st : path.bfs) : Prop :=
  path.found st = true →
  ∀ n L, chain (path.prev st) start goal n →
         nsteps (move center k) L start goal → (n ≤ L)%nat.

End path_geometry.

(** * Properties *)

(** ** Machine integers away from the wrap-around *)

Module GoIntFacts.
Import GoInt.

Lemma wrap_small z : in_range z → wrap z = z.
Proof.
  unfold in_range, min_int, max_int, wrap. intros Hz.
  rewrite Z.mod_small; lia.
Qed.

Lemma abs_via_float_small x : Z.abs x <= 2 ^ 53 → abs_via_float x = Z.abs x.
Proof.
  intros Hx. unfold abs_via_float, float64_of_int, int_of_float64.
  destruct (Z.leb_spec (Z.abs x) (2 ^ 53)) as [_|]; [|lia].
  unfold min_int, max_int.
  destruct (Z.leb_spec (- 2 ^ 63) (Z.abs x)); [|lia].
  destruct (Z.leb_spec (Z.abs x) (2 ^ 63 - 1)); [done|lia].
Qed.

End GoIntFacts.

(** ** Loops that fill a map *)

Section insert_loops.
Context {K : Type} `{Countable K} {V : Type}.
Implicit Types (m : gmap K V) (ks : list K) (f : K → V).

Lemma insert_all_lookup f ks m k :
  insert_all f m ks !! k = if decide (k ∈ ks) then Some (f k) else m !! k.
Proof.
  unfold insert_all. revert m.
  induction ks as [|x ks IH]; intros m.
  - destruct (decide (k ∈ [])) as [Hin|_]; [|done].
    by apply not_elem_of_nil in Hin.
  - cbn [foldl]. rewrite IH.
    destruct (decide (k ∈ ks)) as [Hin|Hnin];
      destruct (decide (k ∈ x :: ks)) as [Hin'|Hnin']; try done.
    + exfalso. apply Hnin'. by apply elem_of_cons; right.
    + apply elem_of_cons in Hin' as [->|?]; [|done].
      by rewrite lookup_insert_eq.
    + rewrite lookup_insert_ne; [done|].
      intros ->. apply Hnin'. by apply elem_of_cons; left.
Qed.

Lemma insert_all_size f ks m :
  NoDup ks → (∀ k, k ∈ ks → m !! k = None) →
  size (insert_all f m ks) = (size m + length ks)%nat.
Proof.
  unfold insert_all. revert m.
  induction ks as [|x ks IH]; intros m Hnd Hfresh; simpl.
  - lia.
  - apply NoDup_cons in Hnd as [Hx Hnd].
    rewrite IH; [|done|].
    + rewrite map_size_insert_None; [lia|].
      apply Hfresh. by apply elem_of_cons; left.
    + intros k Hk. rewrite lookup_insert_ne.
      * apply Hfresh. by apply elem_of_cons; right.
      * intros ->. done.
Qed.

(** A loop nest [for a := range as { for b := range bs(a) { m[k a b] = .. } }]
    is a single loop over the keys in visiting order. *)
Lemma nested_insert_flatten {A B : Type} (key : A → B → K) f
    (bs : A → list B) (xs : list A) m :
  foldl (λ acc a, foldl (λ acc' b, <[key a b := f (key a b)]> acc') acc (bs a)) m xs
  = insert_all f m (xs ≫= λ a, key a <$> bs a).
Proof.
  unfold insert_all. revert m.
  induction xs as [|a xs IH]; intros m; simpl; [done|].
  rewrite foldl_app, IH. f_equal.
  generalize (bs a) m. clear.
  induction l as [|b l IHl]; intros m; simpl; [done|]. by rewrite IHl.
Qed.

End insert_loops.

(** ** The chunked map *)

Module gamemap_facts.
Import hex gamemap GoIntFacts.

Lemma elem_of_int_range lo hi x : x ∈ int_range lo hi ↔ lo <= x <= hi.
Proof.
  unfold int_range. rewrite list_elem_of_fmap. split.
  - intros (i & -> & Hi). apply elem_of_seq in Hi. lia.
  - intros Hx. exists (Z.to_nat (x - lo)). split; [lia|].
    apply elem_of_seq. lia.
Qed.

Lemma NoDup_int_range lo hi : NoDup (int_range lo hi).
Proof.
  unfold int_range. apply NoDup_fmap_2_strong; [|apply NoDup_seq].
  intros i j _ _ Hij. lia.
Qed.

Lemma neg_small x : Z.abs x < 2 ^ 62 → GoInt.neg x = - x.
Proof.
  intros Hx. unfold GoInt.neg. apply wrap_small.
  unfold GoInt.in_range, GoInt.min_int, GoInt.max_int. lia.
Qed.

Lemma add_small x y :
  Z.abs x < 2 ^ 62 → Z.abs y < 2 ^ 62 → GoInt.add x y = x + y.
Proof.
  intros Hx Hy. unfold GoInt.add. apply wrap_small.
  unfold GoInt.in_range, GoInt.min_int, GoInt.max_int. lia.
Qed.

Lemma sub_small x y :
  Z.abs x < 2 ^ 62 → Z.abs y < 2 ^ 62 → GoInt.sub x y = x - y.
Proof.
  intros Hx Hy. unfold GoInt.sub. apply wrap_small.
  unfold GoInt.in_range, GoInt.min_int, GoInt.max_int. lia.
Qed.

(** The loop nest visits exactly the hexagonal disc of the given radius. *)
Lemma elem_of_disk_coords radius q r :
  0 <= radius < 2 ^ 61 →
  MkAxial q r ∈ disk_coords radius ↔
    - radius <= q <= radius ∧ - radius <= r <= radius
    ∧ - radius <= q + r <= radius.
Proof.
  intros Hrad. unfold disk_coords. rewrite list_elem_of_bind.
  rewrite (neg_small radius) by lia.
  split.
  - intros (q' & Hin & Hq'). apply elem_of_int_range in Hq'.
    apply list_elem_of_fmap in Hin as (r' & Heq & Hr').
    injection Heq as -> ->. apply elem_of_int_range in Hr'.
    rewrite (neg_small q'), sub_small, add_small in Hr' by lia.
    unfold maxInt, minInt in Hr'.
    destruct (Z.ltb_spec (- q' - radius) (- radius));
      destruct (Z.ltb_spec radius (- q' + radius)); lia.
  - intros (Hq & Hr & Hqr). exists q. split; [|apply elem_of_int_range; lia].
    apply list_elem_of_fmap. exists r. split; [done|].
    apply elem_of_int_range.
    rewrite (neg_small q), sub_small, add_small by lia.
    unfold maxInt, minInt.
    destruct (Z.ltb_spec (- q - radius) (- radius));
      destruct (Z.ltb_spec radius (- q + radius)); lia.
Qed.

Lemma NoDup_disk_coords radius : NoDup (disk_coords radius).
Proof.
  unfold disk_coords. apply NoDup_bind.
  - intros q1 q2 a _ _ (r1 & -> & _)%list_elem_of_fmap (r2 & Heq & _)%list_elem_of_fmap.
    by injection Heq.
  - intros q _. apply NoDup_fmap_2_strong; [|apply NoDup_int_range].
    intros r1 r2 _ _ Heq. by injection Heq.
  - apply NoDup_int_range.
Qed.

Lemma generateHexes_cells c :
  Hexes (generateHexes c)
  = insert_all (hex_at (ChunkPos c) (Radius c)) (Hexes c) (disk_coords (Radius c)).
Proof.
  unfold generateHexes, disk_coords. cbn [Hexes].
  exact (nested_insert_flatten MkAxial (hex_at (ChunkPos c) (Radius c)) _ _ _).
Qed.

Lemma generateChunks_chunks gm :
  Chunks (generateChunks gm).1
  = insert_all NewHexChunk (Chunks gm) (disk_coords (ChunkRadius gm)).
Proof.
  unfold generateChunks, disk_coords. cbn [fst Chunks].
  exact (nested_insert_flatten MkAxial NewHexChunk _ _ _).
Qed.

(** The content of a fresh chunk, cell by cell. *)
Lemma NewHexChunk_lookup chunkPos q r :
  Hexes (NewHexChunk chunkPos) !! MkAxial q r
  = if bool_decide (-9 <= q <= 9 ∧ -9 <= r <= 9 ∧ -9 <= q + r <= 9)
    then Some (hex_at chunkPos 9 (MkAxial q r)) else None.
Proof.
  unfold NewHexChunk. rewrite generateHexes_cells. cbn [Hexes ChunkPos Radius].
  rewrite insert_all_lookup. unfold defaultRadius.
  pose proof (elem_of_disk_coords 9 q r ltac:(lia)) as Hdisk.
  destruct (decide (MkAxial q r ∈ disk_coords 9)) as [Hin|Hnin].
  - rewrite bool_decide_eq_true_2; [done|]. apply Hdisk in Hin. lia.
  - rewrite bool_decide_eq_false_2; [done|]. intros Hc. apply Hnin, Hdisk. lia.
Qed.

Lemma NewHexChunk_size chunkPos : size (Hexes (NewHexChunk chunkPos)) = 271%nat.
Proof.
  unfold NewHexChunk. rewrite generateHexes_cells. cbn [Hexes ChunkPos Radius].
  rewrite insert_all_size.
  - rewrite map_size_empty. by vm_compute.
  - apply NoDup_disk_coords.
  - intros k _. apply lookup_empty.
Qed.

End gamemap_facts.


(** ** Chunks are generated whole, and overlap in world coordinates *)

Section chunk_claims.
Import hex gamemap gamemap_facts.

Lemma New_chunks chunkRadius :
  ∃ gm, New chunkRadius = inr gm
        ∧ Chunks gm = insert_all NewHexChunk ∅ (disk_coords chunkRadius).
Proof.
  unfold New.
  pose proof (generateChunks_chunks (MkGameMap ∅ chunkRadius)) as Hch.
  destruct (generateChunks (MkGameMap ∅ chunkRadius)) as [gm' err] eqn:Hgen.
  assert (err = None) as -> by (unfold generateChunks in Hgen; congruence).
  exists gm'. split; [done|]. exact Hch.
Qed.

(** C8.  Every chunk built by [NewHexChunk] is marked generated, has radius
    9 and holds exactly [1 + 3R(R+1) = 271] cells: one for every local
    position of the hexagonal disc of radius 9 and no other. *)
Theorem NewHexChunk_fully_generated (chunkPos : Axial) :
  let c := NewHexChunk chunkPos in
  Generated c = true
  ∧ Radius c = 9
  ∧ HexCount c = 1 + 3 * Radius c * (Radius c + 1)
  ∧ HexCount c = 271
  ∧ ∀ q r, is_Some (HexChunk_GetHex c (MkAxial q r))
           ↔ Z.abs q <= 9 ∧ Z.abs r <= 9 ∧ Z.abs (q + r) <= 9.
Proof.
  intros c. subst c.
  assert (HexCount (NewHexChunk chunkPos) = 271) as Hcount.
  { unfold HexCount. by rewrite NewHexChunk_size. }
  split_and!.
  - reflexivity.
  - reflexivity.
  - rewrite Hcount. reflexivity.
  - exact Hcount.
  - intros q r. unfold HexChunk_GetHex. rewrite NewHexChunk_lookup.
    case_bool_decide as Hdisc.
    + split; [lia|eauto].
    + split; [by intros []|lia].
Qed.

(** C3 (as the code behaves).  In every generated map of chunk radius at
    least 1 the chunks at grid coordinates (0,0) and (1,0) both hold a cell
    whose world position is (9,0): world positions are spaced by the chunk
    radius, not by the chunk diameter. *)
Theorem generated_chunks_share_world_hex (chunkRadius : Z) :
  1 <= chunkRadius < 2 ^ 61 →
  ∃ gm a b ha hb,
    New chunkRadius = inr gm
    ∧ GetChunk gm (MkAxial 0 0) = Some a
    ∧ GetChunk gm (MkAxial 1 0) = Some b
    ∧ HexChunk_GetHex a (MkAxial 9 0) = Some ha
    ∧ HexChunk_GetHex b (MkAxial 0 0) = Some hb
    ∧ WorldPos ha = MkAxial 9 0
    ∧ WorldPos hb = MkAxial 9 0.
Proof.
  intros Hrad. destruct (New_chunks chunkRadius) as (gm & Hnew & Hch).
  exists gm, (NewHexChunk (MkAxial 0 0)), (NewHexChunk (MkAxial 1 0)),
         (hex_at (MkAxial 0 0) 9 (MkAxial 9 0)),
         (hex_at (MkAxial 1 0) 9 (MkAxial 0 0)).
  split_and!.
  - exact Hnew.
  - unfold GetChunk. rewrite Hch, insert_all_lookup.
    rewrite decide_True; [reflexivity|]. apply elem_of_disk_coords; lia.
  - unfold GetChunk. rewrite Hch, insert_all_lookup.
    rewrite decide_True; [reflexivity|]. apply elem_of_disk_coords; lia.
  - unfold HexChunk_GetHex. rewrite NewHexChunk_lookup.
    rewrite bool_decide_eq_true_2 by lia. reflexivity.
  - unfold HexChunk_GetHex. rewrite NewHexChunk_lookup.
    rewrite bool_decide_eq_true_2 by lia. reflexivity.
  - reflexivity.
  - reflexivity.
Qed.

End chunk_claims.

Lemma generated_chunks_share_world_hex_witness :
  1 <= 1 < 2 ^ 61
  ∧ ∃ gm a b ha hb,
      gamemap.New 1 = inr gm
      ∧ gamemap.GetChunk gm (hex.MkAxial 0 0) = Some a
      ∧ gamemap.GetChunk gm (hex.MkAxial 1 0) = Some b
      ∧ gamemap.HexChunk_GetHex a (hex.MkAxial 9 0) = Some ha
      ∧ gamemap.HexChunk_GetHex b (hex.MkAxial 0 0) = Some hb
      ∧ gamemap.WorldPos ha = hex.MkAxial 9 0
      ∧ gamemap.WorldPos hb = hex.MkAxial 9 0.
Proof.
  split; [lia|]. apply (generated_chunks_share_world_hex 1). lia.
Defined.


(** ** The session runtime *)

Module server_facts.
Import server.

Section facts.
Context `{Externals}.

Lemma deliver_full data conn :
  chan_full (Connection.send conn) → deliver data conn = conn.
Proof.
  unfold chan_full, deliver, chan_offer. intros Hfull.
  destruct (Nat.ltb_spec (length (buf (Connection.send conn)))
                         (cap (Connection.send conn))) as [Hlt|_]; [lia|].
  by destruct conn.
Qed.

Lemma deliver_room data conn :
  ¬ chan_full (Connection.send conn) →
  deliver data conn
  = set_send (MkChan (buf (Connection.send conn) ++ [data])
                     (cap (Connection.send conn))) conn.
Proof.
  unfold chan_full, deliver, chan_offer. intros Hroom.
  destruct (Nat.ltb_spec (length (buf (Connection.send conn)))
                         (cap (Connection.send conn))) as [_|Hge]; [done|lia].
Qed.

Lemma send_iter_deliver data n conn :
  Connection.send (Nat.iter n (deliver data) conn)
  = Nat.iter n (chan_offer data) (Connection.send conn).
Proof.
  induction n as [|n IH]; [done|].
  rewrite !Nat.iter_succ. unfold deliver at 1.
  cbn [Connection.send set_send]. by rewrite IH.
Qed.

Lemma player_iter_deliver data n conn :
  Connection.player (Nat.iter n (deliver data) conn) = Connection.player conn.
Proof.
  induction n as [|n IH]; [done|].
  rewrite Nat.iter_succ. unfold deliver at 1.
  cbn [Connection.player set_send]. exact IH.
Qed.

(** [SendMessage] touches the queue of its connection and the log, and
    nothing else. *)
Lemma SendMessage_session s c msg :
  Server.session (SendMessage s c msg) = Server.session s.
Proof.
  unfold SendMessage. destruct (json_Marshal msg); [done|].
  destruct (Server.heap s !! c); [|done]. by case_match.
Qed.

Lemma SendMessage_connections s c msg :
  Server.connections (SendMessage s c msg) = Server.connections s.
Proof.
  unfold SendMessage. destruct (json_Marshal msg); [done|].
  destruct (Server.heap s !! c); [|done]. by case_match.
Qed.

Lemma SendMessage_heap s c msg data :
  json_Marshal msg = inr data →
  Server.heap (SendMessage s c msg) = alter (deliver data) c (Server.heap s).
Proof.
  intros Hdata. unfold SendMessage. rewrite Hdata.
  destruct (Server.heap s !! c) as [conn|] eqn:Hc.
  - destruct (Nat.ltb_spec (length (buf (Connection.send conn)))
                           (cap (Connection.send conn))) as [Hlt|Hge].
    + cbn. apply map_eq. intros d. rewrite lookup_alter.
      destruct (decide (c = d)) as [->|Hne].
      * rewrite lookup_insert_eq, Hc. cbn. f_equal.
        rewrite deliver_room; [done|]. unfold chan_full. lia.
      * by rewrite lookup_insert_ne.
    + cbn. apply map_eq. intros d. rewrite lookup_alter.
      destruct (decide (c = d)) as [->|Hne]; [|done].
      rewrite Hc. cbn. f_equal. by rewrite deliver_full.
  - apply map_eq. intros d. rewrite lookup_alter.
    destruct (decide (c = d)) as [->|Hne]; [|done]. by rewrite Hc.
Qed.

Lemma fan_out_session keep msg l s :
  Server.session (fan_out keep msg s l) = Server.session s.
Proof.
  unfold fan_out. revert s. induction l as [|kc l IH]; intros s; [done|].
  cbn [foldl]. rewrite IH. destruct (keep kc.2); [|done].
  apply SendMessage_session.
Qed.

Lemma fan_out_connections keep msg l s :
  Server.connections (fan_out keep msg s l) = Server.connections s.
Proof.
  unfold fan_out. revert s. induction l as [|kc l IH]; intros s; [done|].
  cbn [foldl]. rewrite IH. destruct (keep kc.2); [|done].
  apply SendMessage_connections.
Qed.

Lemma fan_out_lookup keep msg data l s d :
  json_Marshal msg = inr data →
  Server.heap (fan_out keep msg s l) !! d
  = Nat.iter (if keep d
              then length (filter (λ kc : string * ConnId, kc.2 = d) l)
              else 0%nat)
             (deliver data) <$> Server.heap s !! d.
Proof.
  intros Hdata. unfold fan_out. revert s.
  induction l as [|kc l IH]; intros s.
  - cbn. destruct (keep d); cbn; by destruct (Server.heap s !! d).
  - cbn [foldl]. rewrite IH.
    destruct (decide (kc.2 = d)) as [Heq|Hne].
    + rewrite filter_cons_True by done. cbn [length].
      destruct (keep kc.2) eqn:Hkeep; rewrite Heq in Hkeep; rewrite Hkeep.
      * rewrite (SendMessage_heap _ _ _ _ Hdata), Heq, lookup_alter_eq.
        destruct (Server.heap s !! d) as [conn|]; [|done].
        cbn [fmap option_fmap option_map].
        by rewrite Nat.iter_succ_r.
      * done.
    + rewrite filter_cons_False by done.
      destruct (keep kc.2); [|done].
      by rewrite (SendMessage_heap _ _ _ _ Hdata), lookup_alter_ne.
Qed.

Lemma BroadcastExcept_fan_out s exclude msg :
  BroadcastExcept s exclude msg
  = fan_out (λ d, bool_decide (d ≠ exclude)) msg s
            (map_to_list (Session.connections (Server.session s))).
Proof. reflexivity. Qed.

Lemma BroadcastMessage_fan_out s msg :
  BroadcastMessage s msg
  = fan_out (λ _, true) msg s
            (map_to_list (Session.connections (Server.session s))).
Proof. reflexivity. Qed.

(** A connection listed under one subject id only is counted once. *)
Lemma registrations_unique (table : gmap string ConnId) k d :
  table !! k = Some d →
  (∀ k', table !! k' = Some d → k' = k) →
  registrations d table = 1%nat.
Proof.
  intros Hk Huniq. unfold registrations.
  assert (filter (λ kc : string * ConnId, kc.2 = d) (map_to_list table)
          ≡ₚ [(k, d)]) as ->; [|done].
  apply NoDup_Permutation.
  - apply NoDup_filter, NoDup_map_to_list.
  - apply NoDup_singleton.
  - intros [k' d']. rewrite list_elem_of_filter, list_elem_of_singleton.
    rewrite elem_of_map_to_list. cbn. split.
    + intros [-> Hk']. by rewrite (Huniq _ Hk').
    + intros [= -> ->]. done.
Qed.

Lemma registrations_none (table : gmap string ConnId) d :
  (∀ k, table !! k ≠ Some d) → registrations d table = 0%nat.
Proof.
  intros Hnone. unfold registrations.
  destruct (filter (λ kc : string * ConnId, kc.2 = d) (map_to_list table))
    as [|[k d'] l] eqn:Hf; [done|].
  assert ((k, d') ∈ filter (λ kc : string * ConnId, kc.2 = d) (map_to_list table))
    as Hin by (rewrite Hf; apply list_elem_of_here).
  apply list_elem_of_filter in Hin as [Hd Hin]. cbn in Hd. subst d'.
  apply elem_of_map_to_list in Hin. by destruct (Hnone k).
Qed.

End facts.

End server_facts.


(** ** Roster, admission and outbound queues *)

Section roster_claims.
Import server server_facts.
Context `{Externals}.

Lemma NewSession_status id cfg now :
  ∃ ses, NewSession id cfg now = inr ses
         ∧ Session.players ses = ∅
         ∧ Session.connections ses = ∅
         ∧ Session.status ses
           = SessionStatus.Mk "waiting" 0
               (config.MaxPlayers (config.Session cfg)) 0 0.
Proof.
  unfold NewSession.
  destruct (New_chunks (config.InitialMapRadius (config.Session cfg)))
    as (gm & -> & _).
  eexists. split; [reflexivity|]. by split_and!.
Qed.


(** C9.  [AddPlayer] returns no error and enters the player and the
    connection under the player's id, whatever the size of the roster; the
    bound [MaxPlayers] is carried along unchanged and never consulted, so
    the player count grows past it. *)
Theorem AddPlayer_always_admits (s : Server.t) (player : models.Player)
    (conn : ConnId) :
  let ses := Server.session s in
  let ses' := Server.session (AddPlayer s player conn).1 in
  (AddPlayer s player conn).2 = None
  ∧ Session.players ses' !! models.ID player = Some player
  ∧ Session.connections ses' !! models.ID player = Some conn
  ∧ SessionStatus.MaxPlayers (Session.status ses')
    = SessionStatus.MaxPlayers (Session.status ses)
  ∧ SessionStatus.PlayerCount (Session.status ses')
    = Z.of_nat (size (Session.players ses))
      + match Session.players ses !! models.ID player with
        | Some _ => 0
        | None => 1
        end.
Proof.
  cbn. split_and!; try done.
  - apply lookup_insert_eq.
  - apply lookup_insert_eq.
  - destruct (Session.players (Server.session s) !! models.ID player)
      as [p|] eqn:Hp.
    + rewrite map_size_insert_Some by done. lia.
    + rewrite map_size_insert_None by done. lia.
Qed.

Lemma AddPlayer_roster_consistent s player conn :
  dom (Session.players (Server.session s))
  = dom (Session.connections (Server.session s)) →
  roster_consistent (Server.session (AddPlayer s player conn).1).
Proof.
  intros Hdom. split; cbn; [|done].
  by rewrite !dom_insert_L, Hdom.
Qed.

Lemma RemovePlayer_roster_consistent s playerID :
  roster_consistent (Server.session s) →
  roster_consistent (Server.session (RemovePlayer s playerID)).
Proof.
  intros [Hdom Hcount]. unfold RemovePlayer.
  destruct (Session.players (Server.session s) !! playerID); [|done].
  split; cbn; [|done]. by rewrite !dom_delete_L, Hdom.
Qed.

(** C10.  A session whose roster and connection table list the same
    subjects, with the status counting them, is again such a session after
    [AddPlayer] (also when the id was present already) and after
    [RemovePlayer]. *)
Theorem roster_consistent_preserved (s : Server.t) :
  roster_consistent (Server.session s) →
  (∀ player conn, roster_consistent (Server.session (AddPlayer s player conn).1))
  ∧ (∀ playerID, roster_consistent (Server.session (RemovePlayer s playerID))).
Proof.
  intros Hs. split.
  - intros player conn. apply AddPlayer_roster_consistent, Hs.
  - intros playerID. by apply RemovePlayer_roster_consistent.
Qed.

(** The invariant holds from the start: a new session is consistent. *)
Lemma NewSession_roster_consistent id cfg now ses :
  NewSession id cfg now = inr ses → roster_consistent ses.
Proof.
  destruct (NewSession_status id cfg now) as (ses' & Hnew & Hp & Hc & Hst).
  intros Hses. assert (ses' = ses) as -> by congruence.
  unfold roster_consistent. by rewrite Hp, Hc, Hst.
Qed.

End roster_claims.


Lemma roster_consistent_preserved_witness :
  server.roster_consistent (server.Server.session demo.server0)
  ∧ (∀ player conn,
       server.roster_consistent
         (server.Server.session (server.AddPlayer demo.server0 player conn).1))
  ∧ (∀ playerID,
       server.roster_consistent
         (server.Server.session (server.RemovePlayer demo.server0 playerID))).
Proof.
  assert (server.roster_consistent (server.Server.session demo.server0)) as H0.
  { split; reflexivity. }
  split; [exact H0|]. exact (roster_consistent_preserved demo.server0 H0).
Defined.


(** ** Credential validation and the transport upgrade *)

Section auth_claims.
Import server server_facts.
Context `{Externals}.

Lemma log_lines_frame lines s :
  let s' := foldl (λ acc l, log_Printf l acc) s lines in
  Server.session s' = Server.session s
  ∧ Server.connections s' = Server.connections s
  ∧ Server.heap s' = Server.heap s
  ∧ Server.jwtValidator s' = Server.jwtValidator s.
Proof.
  revert s. induction lines as [|l lines IH]; intros s; [done|].
  cbn [foldl]. destruct (IH (log_Printf l s)) as (-> & -> & -> & ->). done.
Qed.

(** What [ValidateToken] does once the library has accepted the token. *)
Lemma ValidateToken_verified v now tokenString claims :
  verified v tokenString claims →
  ValidateToken v now tokenString
  = if bool_decide (Claims.Issuer claims
                    ≠ config.Issuer (config.JWT (JWTValidator.config v)))
    then (inl ("invalid issuer: expected "
                 +:+ config.Issuer (config.JWT (JWTValidator.config v))
                 +:+ ", got " +:+ Claims.Issuer claims), [])
    else if match Claims.ExpiresAt claims with
            | Some exp => exp <? now
            | None => false
            end
    then (inl "token expired", [])
    else if Claims.Activated claims =? 0 then (inl "user not activated", [])
    else if Claims.Activated claims =? -1 then (inl "user is banned", [])
    else match redis_Exists (blacklistKey v claims) with
         | inl err =>
             (inr (player_of_claims claims),
              ["Warning: Failed to check blacklist: " +:+ err])
         | inr n =>
             if 0 <? n then (inl "token is blacklisted", [])
             else (inr (player_of_claims claims), [])
         end.
Proof.
  intros (token & Hparse & Hclaims & Hvalid).
  unfold ValidateToken. by rewrite Hparse, Hclaims, Hvalid.
Qed.

Lemma ValidateToken_unverified v now tokenString :
  (¬ ∃ claims, verified v tokenString claims) →
  ∃ err, ValidateToken v now tokenString = (inl err, []).
Proof.
  intros Hno. unfold ValidateToken.
  destruct (jwt_ParseWithClaims tokenString (keyfunc v)) as [err|token] eqn:Hparse;
    [by eexists|].
  destruct (Token.Claims token) as [claims|] eqn:Hclaims; [|by eexists].
  destruct (Token.Valid token) eqn:Hvalid; [|by eexists].
  destruct Hno. exists claims, token. done.
Qed.

Lemma verified_unique v tokenString claims claims' :
  verified v tokenString claims → verified v tokenString claims' → claims = claims'.
Proof. intros (t & Ht & Hc & _) (t' & Ht' & Hc' & _). congruence. Qed.

Lemma verified_dec v tokenString :
  (∃ claims, verified v tokenString claims)
  ∨ (¬ ∃ claims, verified v tokenString claims).
Proof.
  unfold verified.
  destruct (jwt_ParseWithClaims tokenString (keyfunc v)) as [err|token] eqn:Hparse.
  - right. intros (c & t & Ht & _). congruence.
  - destruct (Token.Claims token) as [claims|] eqn:Hclaims.
    + destruct (Token.Valid token) eqn:Hvalid.
      * left. by exists claims, token.
      * right. intros (c & t & Ht & _ & Hv). congruence.
    + right. intros (c & t & Ht & Hc & _). congruence.
Qed.

Lemma rejected_fails v now tokenString :
  rejected v now tokenString →
  ∃ err lines, ValidateToken v now tokenString = (inl err, lines).
Proof.
  intros [Hno|(claims & Hver & Hrefused)].
  - destruct (ValidateToken_unverified v now tokenString Hno) as [err Herr].
    by exists err, [].
  - rewrite (ValidateToken_verified _ _ _ _ Hver).
    destruct Hrefused as [Hiss|[(exp & Hexp & Hlt)|[Hact|[Hban|(n & Hn & Hpos)]]]].
    + rewrite bool_decide_eq_true_2 by done. by eexists _, _.
    + case_bool_decide; [by eexists _, _|].
      rewrite Hexp. rewrite (proj2 (Z.ltb_lt exp now)) by done. by eexists _, _.
    + case_bool_decide; [by eexists _, _|].
      destruct (match Claims.ExpiresAt claims with
                | Some exp => exp <? now | None => false end);
        [by eexists _, _|].
      rewrite Hact. by eexists _, _.
    + case_bool_decide; [by eexists _, _|].
      destruct (match Claims.ExpiresAt claims with
                | Some exp => exp <? now | None => false end);
        [by eexists _, _|].
      rewrite Hban. by eexists _, _.
    + case_bool_decide; [by eexists _, _|].
      destruct (match Claims.ExpiresAt claims with
                | Some exp => exp <? now | None => false end);
        [by eexists _, _|].
      destruct (Claims.Activated claims =? 0); [by eexists _, _|].
      destruct (Claims.Activated claims =? -1); [by eexists _, _|].
      rewrite Hn. rewrite (proj2 (Z.ltb_lt 0 n)) by done. by eexists _, _.
Qed.

Lemma not_rejected_admits v now tokenString :
  ¬ rejected v now tokenString →
  ∃ claims, verified v tokenString claims
            ∧ (ValidateToken v now tokenString).1 = inr (player_of_claims claims).
Proof.
  intros Hnot. destruct (verified_dec v tokenString) as [[claims Hver]|Hno].
  2: { destruct Hnot. by left. }
  exists claims. split; [done|].
  assert (¬ claims_refused v now claims) as Hok.
  { intros Href. apply Hnot. right. by exists claims. }
  rewrite (ValidateToken_verified _ _ _ _ Hver).
  unfold claims_refused in Hok.
  case_bool_decide as Hiss; [destruct Hok; by left|].
  destruct (Claims.ExpiresAt claims) as [exp|] eqn:Hexp.
  - destruct (Z.ltb_spec exp now) as [Hlt|_].
    { destruct Hok. right; left. by exists exp. }
    destruct (Z.eqb_spec (Claims.Activated claims) 0) as [Hact|_];
      [destruct Hok; tauto|].
    destruct (Z.eqb_spec (Claims.Activated claims) (-1)) as [Hban|_];
      [destruct Hok; tauto|].
    destruct (redis_Exists (blacklistKey v claims)) as [err|n] eqn:Hn; [done|].
    destruct (Z.ltb_spec 0 n) as [Hpos|_]; [|done].
    destruct Hok. do 4 right. by exists n.
  - destruct (Z.eqb_spec (Claims.Activated claims) 0) as [Hact|_];
      [destruct Hok; tauto|].
    destruct (Z.eqb_spec (Claims.Activated claims) (-1)) as [Hban|_];
      [destruct Hok; tauto|].
    destruct (redis_Exists (blacklistKey v claims)) as [err|n] eqn:Hn; [done|].
    destruct (Z.ltb_spec 0 n) as [Hpos|_]; [|done].
    destruct Hok. do 4 right. by exists n.
Qed.

(** A failed validation answers 401 and stops before the upgrader is
    called; only the log grows. *)
Lemma handleWebSocket_refuses s now r tokenString err lines :
  extractTokenFromHeader r = Some tokenString →
  ValidateToken (Server.jwtValidator s) now tokenString = (inl err, lines) →
  ∃ s' body,
    handleWebSocket s now r = Some (s', HttpError StatusUnauthorized body)
    ∧ Server.session s' = Server.session s
    ∧ Server.connections s' = Server.connections s
    ∧ Server.heap s' = Server.heap s.
Proof.
  intros Htok Hval. unfold handleWebSocket. rewrite Htok. cbn [mbind option_bind].
  case_bool_decide as Hempty.
  - eexists _, _. split; [reflexivity|]. done.
  - cbn [log_Printf Server.jwtValidator]. rewrite Hval.
    eexists _, _. split; [reflexivity|].
    cbn [log_Printf Server.session Server.connections Server.heap].
    pose proof (log_lines_frame lines
      (log_Printf ("New WebSocket connection request from " +:+ RemoteAddr r) s))
      as (Hs & Hc & Hh & _).
    cbn zeta in Hs, Hc, Hh. by rewrite Hs, Hc, Hh.
Qed.

(** C1.  For the token a request presents: when the signature does not
    verify, or the issuer is not the configured one, or the expiry lies
    before [now], or [activated] is 0 or -1, or the revocation store
    answers that the subject's key is present, [ValidateToken] returns an
    error, the request is answered with 401 without an upgrade, and
    roster, connection table and connections are as before.  Otherwise
    [ValidateToken] returns the player built from the token's claims. *)
Theorem ValidateToken_gates_upgrade (s : Server.t) (now : Z) (r : Request)
    (tokenString : string) :
  extractTokenFromHeader r = Some tokenString →
  (rejected (Server.jwtValidator s) now tokenString →
     (∃ err lines,
        ValidateToken (Server.jwtValidator s) now tokenString = (inl err, lines))
     ∧ ∃ s' body,
         handleWebSocket s now r = Some (s', HttpError StatusUnauthorized body)
         ∧ Server.session s' = Server.session s
         ∧ Server.connections s' = Server.connections s
         ∧ Server.heap s' = Server.heap s)
  ∧ (¬ rejected (Server.jwtValidator s) now tokenString →
     ∃ claims,
       verified (Server.jwtValidator s) tokenString claims
       ∧ (ValidateToken (Server.jwtValidator s) now tokenString).1
         = inr (models.MkPlayer
                  (pretty (Claims.UserID claims)) (Claims.Username claims)
                  (Claims.Email claims) (Claims.UserType claims)
                  (Claims.Permissions claims) (Claims.Activated claims)
                  (Claims.AuthMethod claims) false 0 0 ""
                  (pretty (Claims.UserID claims)))).
Proof.
  intros Htok. split.
  - intros Hrej.
    destruct (rejected_fails _ _ _ Hrej) as (err & lines & Hval).
    split; [by exists err, lines|].
    by apply (handleWebSocket_refuses s now r tokenString err lines).
  - intros Hnot. by apply not_rejected_admits.
Qed.

(** C2.  For a token that passed signature, issuer, expiry and activation:
    a failing revocation lookup admits the subject and logs a warning; a
    lookup that finds the key rejects the token; a lookup that finds
    nothing admits the subject without a warning. *)
Theorem blacklist_lookup_policy (v : JWTValidator.t) (now : Z)
    (tokenString : string) (claims : Claims.t) :
  verified v tokenString claims →
  Claims.Issuer claims = config.Issuer (config.JWT (JWTValidator.config v)) →
  (∀ exp, Claims.ExpiresAt claims = Some exp → now <= exp) →
  Claims.Activated claims ≠ 0 →
  Claims.Activated claims ≠ -1 →
  match redis_Exists (blacklistKey v claims) with
  | inl err =>
      ValidateToken v now tokenString
      = (inr (player_of_claims claims),
         ["Warning: Failed to check blacklist: " +:+ err])
  | inr n =>
      if 0 <? n
      then ValidateToken v now tokenString = (inl "token is blacklisted", [])
      else ValidateToken v now tokenString = (inr (player_of_claims claims), [])
  end.
Proof.
  intros Hver Hiss Hexp Hact Hban.
  rewrite (ValidateToken_verified _ _ _ _ Hver).
  rewrite bool_decide_eq_false_2 by (by intros ?).
  assert (match Claims.ExpiresAt claims with
          | Some exp => exp <? now | None => false end = false) as ->.
  { destruct (Claims.ExpiresAt claims) as [exp|]; [|done].
    apply Z.ltb_ge. by apply Hexp. }
  rewrite (proj2 (Z.eqb_neq _ _) Hact), (proj2 (Z.eqb_neq _ _) Hban).
  destruct (redis_Exists (blacklistKey v claims)) as [err|n]; [done|].
  by destruct (0 <? n).
Qed.

End auth_claims.


Lemma ValidateToken_gates_upgrade_witness :
  server.extractTokenFromHeader (demo.request "banned") = Some "banned"
  ∧ (∃ s' body,
       server.handleWebSocket (H := demo.externals) demo.server0 1000
         (demo.request "banned")
       = Some (s', server.HttpError server.StatusUnauthorized body)
       ∧ server.Server.session s' = server.Server.session demo.server0
       ∧ server.Server.connections s' = server.Server.connections demo.server0
       ∧ server.Server.heap s' = server.Server.heap demo.server0)
  ∧ server.extractTokenFromHeader (demo.request "alice") = Some "alice"
  ∧ (server.ValidateToken (H := demo.externals) demo.validator 1000 "alice").1
    = inr demo.alice.
Proof.
  split; [reflexivity|]. split.
  - destruct (ValidateToken_gates_upgrade (H := demo.externals) demo.server0 1000
                (demo.request "banned") "banned" eq_refl) as [Hrej _].
    apply Hrej. right.
    exists (demo.claims_for 126 "mallory" "login.gravitas-games.com" 2000 (-1)).
    split.
    + eexists. split_and!; reflexivity.
    + right; right; right; left. reflexivity.
  - split; [reflexivity|].
    destruct (ValidateToken_gates_upgrade (H := demo.externals) demo.server0 1000
                (demo.request "alice") "alice" eq_refl) as [_ Hadm].
    destruct Hadm as (claims & (token & Hparse & Hclaims & _) & Hval).
    + intros [Hno|(claims & (token & Hparse & Hclaims & _) & Hrefused)].
      * apply Hno.
        exists (demo.claims_for 123 "alice" "login.gravitas-games.com" 2000
                  1697123456789000000).
        eexists. split_and!; reflexivity.
      * vm_compute in Hparse. injection Hparse as <-.
        cbn in Hclaims. injection Hclaims as <-.
        destruct Hrefused as [Hiss|[(exp & Hexp & Hlt)|[Hact|[Hban|(n & Hn & Hpos)]]]].
        -- by apply Hiss.
        -- cbn in Hexp. injection Hexp as <-. lia.
        -- discriminate Hact.
        -- discriminate Hban.
        -- vm_compute in Hn. injection Hn as <-. lia.
    + vm_compute in Hparse. injection Hparse as <-.
      cbn in Hclaims. injection Hclaims as <-. exact Hval.
Defined.

Lemma blacklist_lookup_policy_witness :
  let claims := demo.claims_for 777 "dave" "login.gravitas-games.com" 2000
                  1697123456789000000 in
  server.verified (H := demo.externals) demo.validator "flaky" claims
  ∧ server.Claims.Issuer claims = "login.gravitas-games.com"
  ∧ (∀ exp, server.Claims.ExpiresAt claims = Some exp → 1000 <= exp)
  ∧ server.Claims.Activated claims ≠ 0
  ∧ server.Claims.Activated claims ≠ -1
  ∧ server.ValidateToken (H := demo.externals) demo.validator 1000 "flaky"
    = (inr (server.player_of_claims claims),
       ["Warning: Failed to check blacklist: dial tcp: connection refused"]).
Proof.
  intros claims.
  assert (server.verified (H := demo.externals) demo.validator "flaky" claims)
    as Hver by (eexists; split_and!; reflexivity).
  assert (∀ exp, server.Claims.ExpiresAt claims = Some exp → 1000 <= exp) as Hexp.
  { intros exp Heq. cbn in Heq. injection Heq as <-. lia. }
  assert (server.Claims.Activated claims ≠ 0) as Hact by discriminate.
  assert (server.Claims.Activated claims ≠ -1) as Hban by discriminate.
  split_and!; try assumption; [reflexivity|].
  exact (blacklist_lookup_policy (H := demo.externals) demo.validator 1000 "flaky"
           claims Hver eq_refl Hexp Hact Hban).
Defined.


(** ** Joining a session *)

Section join_claims.
Import server server_facts.
Context `{Externals}.

(** No message handler touches state, tick, uptime or bound of the session. *)
Lemma RemovePlayer_same_clock s playerID :
  same_clock (Server.session (RemovePlayer s playerID)) (Server.session s).
Proof.
  unfold RemovePlayer.
  destruct (Session.players (Server.session s) !! playerID); by split_and!.
Qed.

Lemma handleMessage_same_clock s c now msg s' :
  handleMessage s c now msg = Some s' →
  same_clock (Server.session s') (Server.session s).
Proof.
  unfold handleMessage. repeat case_bool_decide.
  - unfold handleJoin. cbn [log_Printf Server.heap].
    destruct (Server.heap s !! c) as [conn|]; [|done]. cbn [mbind option_bind].
    destruct (Connection.player conn) as [player|]; [|done].
    cbn [mbind option_bind].
    destruct (Connection.authenticated conn); cbn [negb].
    + intros [= <-]. cbn [AddPlayer log_Printf Server.session].
      rewrite BroadcastExcept_fan_out, fan_out_session, SendMessage_session.
      by split_and!.
    + intros [= <-]. unfold SendError. rewrite SendMessage_session. by split_and!.
  - unfold handleLeave. cbn [log_Printf Server.heap].
    destruct (Server.heap s !! c) as [conn|]; [|done]. cbn [mbind option_bind].
    destruct (Connection.player conn) as [player|].
    + intros [= <-]. rewrite BroadcastMessage_fan_out, fan_out_session.
      apply (RemovePlayer_same_clock
               (log_Printf ("Received message type: " +:+ network.ClientType msg) s)).
    + intros [= <-]. by split_and!.
  - unfold handleChat. cbn [log_Printf Server.heap].
    destruct (Server.heap s !! c) as [conn|]; [|done]. cbn [mbind option_bind].
    destruct (Connection.authenticated conn), (Connection.player conn) as [player|];
      try (intros [= <-]; unfold SendError; rewrite SendMessage_session;
           by split_and!).
    destruct (json_Unmarshal_ChatPayload (network.ClientPayload msg)).
    + intros [= <-]. unfold SendError. rewrite SendMessage_session. by split_and!.
    + intros [= <-]. cbn [log_Printf Server.session].
      rewrite BroadcastMessage_fan_out, fan_out_session. by split_and!.
  - unfold handlePing. cbn [log_Printf Server.heap].
    destruct (Server.heap s !! c) as [conn|]; [|done]. cbn [mbind option_bind].
    intros [= <-]. rewrite SendMessage_session. by split_and!.
  - intros [= <-]. unfold SendError. rewrite SendMessage_session. by split_and!.
Qed.

Lemma handleMessage_status_idle s c now msg s' :
  handleMessage s c now msg = Some s' →
  status_idle (Session.status (Server.session s)) →
  status_idle (Session.status (Server.session s')).
Proof.
  intros Hstep (Hst & Htick & Hup). unfold status_idle.
  destruct (handleMessage_same_clock _ _ _ _ _ Hstep) as (H1 & H2 & H3 & _).
  by rewrite H1, H2, H3.
Qed.

Lemma NewSession_status_idle id cfg now ses :
  NewSession id cfg now = inr ses → status_idle (Session.status ses).
Proof.
  destruct (NewSession_status id cfg now) as (ses' & Hnew & _ & _ & Hst).
  intros Hses. assert (ses' = ses) as -> by congruence.
  rewrite Hst. by split_and!.
Qed.

(** C5.  An authenticated connection [c] of [player] sends [join] to a
    session in its initial clock state.  Then the handler succeeds and
    - the roster holds the player (marked connected) and the connection
      table holds [c] under the player's id, the status counting the roster
      with the joiner in it;
    - the queue of [c] was offered exactly the [welcome] that carries that
      count, state "waiting", tick 0 and uptime 0;
    - every other connection was offered [player_joined], once for each
      subject id it is listed under, and [c] was not. *)
Theorem handleJoin_welcomes_then_announces (s : Server.t) (c : ConnId) (now : Z)
    (payload : string) (conn : Connection.t) (player : models.Player)
    (wdata jdata : string) :
  let ses := Server.session s in
  let joined := mark_connected ses now player in
  let players' := <[models.ID player := joined]> (Session.players ses) in
  let table' := <[models.ID player := c]> (Session.connections ses) in
  let welcome :=
    network.MkServerMessage "welcome"
      (network.WelcomePayload (models.ID player) (models.Username player)
         (Session.ID ses)
         (network.MkSessionStatus "waiting" (Z.of_nat (size players'))
            (SessionStatus.MaxPlayers (Session.status ses)) 0 0)) in
  let announce :=
    network.MkServerMessage "player_joined"
      (network.PlayerJoinedPayload (models.ID player) (models.Username player)
         (models.Email player)) in
  Server.heap s !! c = Some conn →
  Connection.player conn = Some player →
  Connection.authenticated conn = true →
  status_idle (Session.status ses) →
  json_Marshal welcome = inr wdata →
  json_Marshal announce = inr jdata →
  ∃ s',
    handleJoin s c now payload = Some s'
    ∧ Session.players (Server.session s') = players'
    ∧ Session.connections (Server.session s') = table'
    ∧ SessionStatus.PlayerCount (Session.status (Server.session s'))
      = Z.of_nat (size players')
    ∧ size players'
      = match Session.players ses !! models.ID player with
        | Some _ => size (Session.players ses)
        | None => S (size (Session.players ses))
        end
    ∧ Server.heap s' !! c = Some (deliver wdata (set_player (Some joined) conn))
    ∧ ∀ d connd,
        d ≠ c → Server.heap s !! d = Some connd →
        Server.heap s' !! d
        = Some (Nat.iter (registrations d table') (deliver jdata) connd).
Proof.
  intros ses joined players' table' welcome announce
         Hc Hplayer Hauth (Hstate & Htick & Hup) Hw Hj.
  unfold handleJoin. rewrite Hc. cbn [mbind option_bind].
  rewrite Hplayer. cbn [mbind option_bind]. rewrite Hauth. cbn [negb].
  cbn [AddPlayer log_Printf Server.session Server.heap set_heap set_session].
  fold ses. fold joined.
  set (s3 := log_Printf _ (set_session _ (set_heap _ _))).
  assert (Server.session s3 = set_roster players' table' ses) as Hses3
    by reflexivity.
  assert (Server.heap s3 = <[c := set_player (Some joined) conn]> (Server.heap s))
    as Hheap3 by reflexivity.
  assert (welcome_message s3 joined = welcome) as Hwelcome.
  { unfold welcome_message, welcome. rewrite Hses3. cbn.
    fold ses. by rewrite Hstate, Htick, Hup. }
  assert (player_joined_message joined = announce) as Hannounce by reflexivity.
  rewrite Hwelcome, Hannounce. clearbody s3.
  eexists. split; [reflexivity|].
  cbn [log_Printf Server.session Server.heap].
  rewrite BroadcastExcept_fan_out, fan_out_session, !SendMessage_session, Hses3.
  split_and!.
  - reflexivity.
  - reflexivity.
  - reflexivity.
  - subst players'. destruct (Session.players ses !! models.ID player) eqn:Hin.
    + by rewrite map_size_insert_Some.
    + by rewrite map_size_insert_None.
  - rewrite (fan_out_lookup _ _ jdata) by done.
    rewrite bool_decide_eq_false_2 by (by intros ?).
    rewrite (SendMessage_heap _ _ _ wdata) by done.
    by rewrite Hheap3, lookup_alter_eq, lookup_insert_eq.
  - intros d connd Hne Hd.
    rewrite (fan_out_lookup _ _ jdata) by done.
    rewrite bool_decide_eq_true_2 by done.
    rewrite (SendMessage_heap _ _ _ wdata) by done.
    rewrite Hheap3, lookup_alter_ne, lookup_insert_ne, Hd by done.
    reflexivity.
Qed.

End join_claims.

Lemma handleJoin_welcomes_then_announces_witness :
  let conn := server.Connection.Mk 1%nat (Some demo.alice) (server.make_chan 256) true in
  server.Server.heap demo.server1 !! 0%nat = Some conn
  ∧ server.status_idle (server.Session.status (server.Server.session demo.server1))
  ∧ ∃ s',
      server.handleJoin (H := demo.externals) demo.server1 0%nat 1000 "{}" = Some s'
      ∧ server.SessionStatus.PlayerCount
          (server.Session.status (server.Server.session s')) = 1
      ∧ demo.queue 0%nat s' = ["welcome:alice:waiting:1"].
Proof.
  intros conn.
  assert (server.status_idle
            (server.Session.status (server.Server.session demo.server1))) as Hidle.
  { by split_and!. }
  split; [reflexivity|]. split; [exact Hidle|].
  destruct (handleJoin_welcomes_then_announces (H := demo.externals)
              demo.server1 0%nat 1000 "{}" conn demo.alice
              "welcome:alice:waiting:1" "player_joined:alice"
              eq_refl eq_refl eq_refl Hidle eq_refl eq_refl)
    as (s' & Hrun & _ & _ & Hcount & _ & Hqueue & _).
  exists s'. split; [exact Hrun|]. split; [exact Hcount|].
  unfold demo.queue. rewrite Hqueue. reflexivity.
Defined.


(** ** Chat *)

Section chat_claims.
Import server server_facts.
Context `{Externals}.

(** [handleChat] consults neither the configured rate limit nor any
    history: a well-formed chat from an authenticated connection is always
    handed to [BroadcastMessage]. *)
Lemma handleChat_always_broadcasts s c now payload conn player chatMsg :
  Server.heap s !! c = Some conn →
  Connection.authenticated conn = true →
  Connection.player conn = Some player →
  json_Unmarshal_ChatPayload payload = inr chatMsg →
  handleChat s c now payload
  = Some (log_Printf ("Chat from " +:+ models.Username player +:+ ": "
                        +:+ network.ChatMessage chatMsg)
            (BroadcastMessage s
               (network.MkServerMessage network.MsgTypeChatBroadcast
                  (network.ChatBroadcastPayload (models.ID player)
                     (models.Username player) (network.ChatMessage chatMsg)
                     (unix now))))).
Proof.
  intros Hc Hauth Hplayer Hchat. unfold handleChat.
  rewrite Hc. cbn [mbind option_bind]. by rewrite Hauth, Hplayer, Hchat.
Qed.

End chat_claims.

(** C4 (as the code behaves).  With a rate limit of 10 per minute configured
    and Alice, Bob and Carol joined, Bob sends eleven chat messages at the
    same instant.  All eleven, the eleventh included, reach the queues of
    Alice, Bob and Carol, and Bob's queue holds no error frame. *)
Theorem eleventh_chat_is_broadcast :
  ∃ s s',
    demo.three_joined = Some s
    ∧ demo.chats 11 1%nat 1010 s = Some s'
    ∧ config.RateLimit (config.Chat (server.Server.config s)) = 10
    ∧ demo.queue 0%nat s' = demo.queue 0%nat s ++ replicate 11 "chat:bob:hi"
    ∧ demo.queue 1%nat s' = demo.queue 1%nat s ++ replicate 11 "chat:bob:hi"
    ∧ demo.queue 2%nat s' = demo.queue 2%nat s ++ replicate 11 "chat:bob:hi"
    ∧ "error:rate_limited" ∉ demo.queue 1%nat s'.
Proof.
  eexists _, _. split; [vm_compute; reflexivity|].
  split; [vm_compute; reflexivity|].
  split_and!; try (vm_compute; reflexivity).
  refine (bool_decide_unpack _ _). vm_compute. exact I.
Qed.


(** ** Edges of a ring *)

Section edge_claims.
Import hex.

(** C7 (as the code behaves).  Around the origin, three cells of the ring
    of radius 1 have their neighbour in direction 0 at distance 2, not one;
    [Edge] therefore takes its fallback and returns the first cell of the
    ring, (-1,1), whose neighbour in direction 0 is (0,1), at distance 1.
    For radius 9 the nine cells returned for side 0 all have that
    neighbour at distance 9. *)
Theorem Edge_returns_fallback_segment :
  let c := MkAxial 0 0 in
  let d0 := MkAxial 1 0 in
  Ring c 1 = Some [ MkAxial (-1) 1; MkAxial 0 1; MkAxial 1 0;
                    MkAxial 1 (-1); MkAxial 0 (-1); MkAxial (-1) 0 ]
  ∧ Directions !! 0%nat = Some d0
  ∧ edge_idxs c 1 d0 (default [] (Ring c 1)) = [1; 2; 3]
  ∧ Edge c 1 0 = Some [ MkAxial (-1) 1 ]
  ∧ DistanceAxial c (Add (MkAxial (-1) 1) d0) = 1
  ∧ Edge c 9 0 = Some ((λ i, MkAxial (i - 9) 9) <$> [0; 1; 2; 3; 4; 5; 6; 7; 8])
  ∧ Forall (λ a, DistanceAxial c (Add a d0) = 9)
           ((λ i, MkAxial (i - 9) 9) <$> [0; 1; 2; 3; 4; 5; 6; 7; 8]).
Proof.
  cbv zeta.
  do 6 (split; [vm_compute; reflexivity|]).
  repeat constructor.
Qed.

End edge_claims.


(** ** Invariants of the running server *)

Module runtime_facts.
Import server server_facts runtime.

Lemma conn_evolves_refl a : conn_evolves a a.
Proof. by split_and!. Qed.

Lemma conn_evolves_trans a b c :
  conn_evolves a b → conn_evolves b c → conn_evolves a c.
Proof.
  intros (Hw & Hp & Ha & Hc & Hl) (Hw' & Hp' & Ha' & Hc' & Hl').
  split_and!; [congruence..|]. intros Hle. by apply Hl', Hl.
Qed.

Lemma heap_evolves_refl h : heap_evolves h h.
Proof. intros d. destruct (h !! d); [apply conn_evolves_refl|done]. Qed.

Lemma heap_evolves_trans h1 h2 h3 :
  heap_evolves h1 h2 → heap_evolves h2 h3 → heap_evolves h1 h3.
Proof.
  intros H12 H23 d. specialize (H12 d). specialize (H23 d).
  destruct (h1 !! d), (h2 !! d), (h3 !! d); try done.
  by eapply conn_evolves_trans.
Qed.

Lemma heap_evolves_alter h c f :
  (∀ conn, conn_evolves conn (f conn)) → heap_evolves h (alter f c h).
Proof.
  intros Hf d. rewrite lookup_alter.
  destruct (decide (c = d)) as [->|Hne].
  - destruct (h !! d); [apply Hf|done].
  - destruct (h !! d); [apply conn_evolves_refl|done].
Qed.

Lemma heap_evolves_fwd h h' d a :
  heap_evolves h h' → h !! d = Some a →
  ∃ b, h' !! d = Some b ∧ conn_evolves a b.
Proof.
  intros Hev Hd. specialize (Hev d). rewrite Hd in Hev.
  destruct (h' !! d) as [b|]; [by exists b|done].
Qed.

Lemma heap_evolves_bwd h h' d b :
  heap_evolves h h' → h' !! d = Some b →
  ∃ a, h !! d = Some a ∧ conn_evolves a b.
Proof.
  intros Hev Hd. specialize (Hev d). rewrite Hd in Hev.
  destruct (h !! d) as [a|]; [by exists a|done].
Qed.

Lemma heap_evolves_dom h h' : heap_evolves h h' → dom h' = dom h.
Proof.
  intros Hev. apply set_eq. intros d. rewrite !elem_of_dom.
  specialize (Hev d). destruct (h !! d), (h' !! d); try done.
  all: split; intros [? ?]; done.
Qed.

Lemma deliver_evolves data conn : conn_evolves conn (deliver data conn).
Proof.
  unfold deliver, chan_offer.
  destruct (Nat.ltb_spec (length (buf (Connection.send conn)))
                         (cap (Connection.send conn))) as [Hlt|Hge].
  - split_and!; try done. cbn. intros _. rewrite length_app. cbn. lia.
  - destruct conn. by split_and!.
Qed.

Section facts.
Context `{Externals}.

Lemma SendMessage_evolves s c msg :
  heap_evolves (Server.heap s) (Server.heap (SendMessage s c msg)).
Proof.
  destruct (json_Marshal msg) as [err|data] eqn:Hm.
  - unfold SendMessage. rewrite Hm. apply heap_evolves_refl.
  - rewrite (SendMessage_heap _ _ _ _ Hm).
    apply heap_evolves_alter, deliver_evolves.
Qed.

Lemma fan_out_evolves keep msg l s :
  heap_evolves (Server.heap s) (Server.heap (fan_out keep msg s l)).
Proof.
  unfold fan_out. revert s. induction l as [|kc l IH]; intros s.
  - apply heap_evolves_refl.
  - cbn [foldl]. eapply heap_evolves_trans; [|apply IH].
    destruct (keep kc.2); [apply SendMessage_evolves|apply heap_evolves_refl].
Qed.

(** A step that leaves the session alone and lets connections evolve
    keeps the state sound. *)
Lemma sound_frame s s' :
  sound s →
  Server.session s' = Server.session s →
  Server.connections s' = Server.connections s →
  heap_evolves (Server.heap s) (Server.heap s') →
  sound s'.
Proof.
  intros [Hr Hids Ht Hc Hd Hst] Hses Hcs Hev. split.
  - by rewrite Hses.
  - by rewrite Hses.
  - rewrite Hses. intros k d Hk.
    destruct (Ht k d Hk) as (conn & p & Hconn & Hp & Hid).
    destruct (heap_evolves_fwd _ _ _ _ Hev Hconn) as (b & Hb & _ & Hpb & _).
    rewrite Hp in Hpb. destruct (Connection.player b) as [q|] eqn:Hq; [|done].
    exists b, q. split_and!; [done..|]. cbn in Hpb. congruence.
  - intros d b Hb.
    destruct (heap_evolves_bwd _ _ _ _ Hev Hb) as (a & Ha & _ & Hp & Hau & Hcap & Hlen).
    destruct (Hc d a Ha) as (Hauth & [p Hpa] & Hcap256 & Hbuf).
    split_and!.
    + congruence.
    + rewrite Hpa in Hp. destruct (Connection.player b); [eauto|done].
    + congruence.
    + rewrite Hcap, Hcap256 in Hlen. apply Hlen. lia.
  - by rewrite Hcs, (heap_evolves_dom _ _ Hev).
  - by rewrite Hses.
Qed.

Lemma New_sound cfg v now s : New cfg v now = inr s → sound s.
Proof.
  unfold New.
  destruct (NewSession_status "main" cfg now) as (ses & Hnew & Hp & Hc & Hst).
  rewrite Hnew. intros [= <-]. split; cbn.
  - unfold roster_consistent. by rewrite Hp, Hc, Hst.
  - intros k p. by rewrite Hp, lookup_empty.
  - intros k d. by rewrite Hc, lookup_empty.
  - intros d conn. by rewrite lookup_empty.
  - apply dom_empty_L.
  - rewrite Hst. by split_and!.
Qed.

Lemma log_Printf_sound l s : sound s → sound (log_Printf l s).
Proof.
  intros Hs. apply (sound_frame s); [done..|apply heap_evolves_refl].
Qed.

Lemma handleWebSocket_sound s now r s' resp :
  sound s → handleWebSocket s now r = Some (s', resp) → sound s'.
Proof.
  intros Hs. unfold handleWebSocket.
  destruct (extractTokenFromHeader r) as [tokenString|]; [|done].
  cbn [mbind option_bind]. case_bool_decide.
  { intros [= <- _]. by do 2 apply log_Printf_sound. }
  cbn [log_Printf Server.jwtValidator].
  destruct (ValidateToken (Server.jwtValidator s) now tokenString)
    as [[err|player] lines].
  - intros [= <- _]. apply log_Printf_sound.
    pose proof (log_lines_frame lines
      (log_Printf ("New WebSocket connection request from " +:+ RemoteAddr r) s))
      as (Hses & Hcs & Hh & _). cbn zeta in Hses, Hcs, Hh.
    apply (sound_frame s); [done..|]. rewrite Hh. apply heap_evolves_refl.
  - pose proof (log_lines_frame lines
      (log_Printf ("New WebSocket connection request from " +:+ RemoteAddr r) s))
      as (Hses & Hcs & Hh & _). cbn zeta in Hses, Hcs, Hh.
    set (s1 := foldl _ _ lines) in *.
    assert (sound s1) as Hs1.
    { apply (sound_frame s); [done..|]. rewrite Hh. apply heap_evolves_refl. }
    destruct (upgrader_Upgrade r) as [err|ws].
    + intros [= <- _]. by do 2 apply log_Printf_sound.
    + intros [= <- _]. apply log_Printf_sound.
      cbn [log_Printf Server.heap Server.connections set_heap set_connections].
      set (c := fresh (dom (Server.heap s1))).
      assert (Server.heap s1 !! c = None) as Hfresh.
      { apply not_elem_of_dom, is_fresh. }
      destruct Hs1 as [Hr Hids Ht Hc Hd Hst]. split; cbn.
      * done.
      * done.
      * intros k d Hk. destruct (Ht k d Hk) as (conn & p & Hconn & Hp & Hid).
        exists conn, p. split_and!; [|done..].
        rewrite lookup_insert_ne; [done|]. intros ->. congruence.
      * intros d conn. rewrite lookup_insert.
        case_decide as Hcd; [|apply Hc].
        intros [= <-]. cbn. split_and!; first [done | by eauto | lia].
      * rewrite dom_insert_L. by rewrite Hd.
      * done.
Qed.

(** The effect of [handleJoin] on session and connections. *)
Lemma handleJoin_effect s c now payload s' :
  handleJoin s c now payload = Some s' →
  ∃ conn player,
    Server.heap s !! c = Some conn
    ∧ Connection.player conn = Some player
    ∧ Server.connections s' = Server.connections s
    ∧ (∃ conn', Server.heap s' !! c = Some conn'
                ∧ models.ID <$> Connection.player conn' = Some (models.ID player))
    ∧ heap_evolves (Server.heap s) (Server.heap s')
    ∧ (Server.session s' = Server.session s
       ∨ Server.session s'
         = set_roster
             (<[models.ID player := mark_connected (Server.session s) now player]>
                (Session.players (Server.session s)))
             (<[models.ID player := c]> (Session.connections (Server.session s)))
             (Server.session s)).
Proof.
  unfold handleJoin.
  destruct (Server.heap s !! c) as [conn|] eqn:Hc; [|done].
  cbn [mbind option_bind].
  destruct (Connection.player conn) as [player|] eqn:Hp; [|done].
  cbn [mbind option_bind]. intros Hrun. exists conn, player.
  split; [done|]. split; [done|].
  destruct (Connection.authenticated conn); cbn [negb] in Hrun.
  - injection Hrun as <-.
    cbn [AddPlayer log_Printf Server.session Server.heap Server.connections].
    rewrite BroadcastExcept_fan_out, fan_out_session, fan_out_connections,
      SendMessage_session, SendMessage_connections.
    set (s3 := log_Printf _ (set_session _ (set_heap _ _))).
    assert (heap_evolves (Server.heap s) (Server.heap s3)) as Hev3.
    { subst s3. cbn. intros d. rewrite lookup_insert.
      case_decide as Hcd.
      - subst d. rewrite Hc. split_and!; try done. cbn. by rewrite Hp.
      - destruct (Server.heap s !! d); [apply conn_evolves_refl|done]. }
    assert (heap_evolves (Server.heap s)
              (Server.heap (fan_out (λ d, bool_decide (d ≠ c))
                 (player_joined_message (mark_connected (Server.session s) now player))
                 (SendMessage s3 c
                    (welcome_message s3 (mark_connected (Server.session s) now player)))
                 (map_to_list (Session.connections (Server.session s3)))))) as Hev.
    { eapply heap_evolves_trans; [exact Hev3|].
      eapply heap_evolves_trans; [apply SendMessage_evolves|apply fan_out_evolves]. }
    split_and!; [done| |exact Hev|by right].
    destruct (heap_evolves_fwd _ _ _ _ Hev Hc) as (b & Hb & _ & Hpb & _).
    exists b. split; [done|]. by rewrite Hpb, Hp.
  - injection Hrun as <-. unfold SendError.
    rewrite SendMessage_session, SendMessage_connections.
    assert (heap_evolves (Server.heap s)
              (Server.heap (SendMessage
                 (log_Printf ("Player join request from " +:+ models.Username player) s)
                 c (network.MkServerMessage network.MsgTypeError
                      (network.ErrorPayload "not_authenticated"
                         "Connection not authenticated"))))) as Hev
      by apply (SendMessage_evolves (log_Printf _ s)).
    split_and!; [done| |exact Hev|by left].
    destruct (heap_evolves_fwd _ _ _ _ Hev Hc) as (b & Hb & _ & Hpb & _).
    exists b. split; [done|]. by rewrite Hpb, Hp.
Qed.

(** Soundness carries over when the table only loses entries or gains
    entries that point to a connection of the right subject. *)
Lemma sound_update s s' :
  sound s →
  Server.connections s' = Server.connections s →
  heap_evolves (Server.heap s) (Server.heap s') →
  roster_consistent (Server.session s') →
  (∀ k p, Session.players (Server.session s') !! k = Some p → models.ID p = k) →
  (∀ k d, Session.connections (Server.session s') !! k = Some d →
          Session.connections (Server.session s) !! k = Some d
          ∨ ∃ conn' p, Server.heap s' !! d = Some conn'
                       ∧ Connection.player conn' = Some p ∧ models.ID p = k) →
  status_idle (Session.status (Server.session s')) →
  sound s'.
Proof.
  intros [Hr Hids Ht Hc Hd Hst] Hcs Hev Hr' Hids' Ht' Hst'. split; try done.
  - intros k d Hk. destruct (Ht' k d Hk) as [Hold|Hnew]; [|done].
    destruct (Ht k d Hold) as (conn & p & Hconn & Hp & Hid).
    destruct (heap_evolves_fwd _ _ _ _ Hev Hconn) as (b & Hb & _ & Hpb & _).
    rewrite Hp in Hpb. destruct (Connection.player b) as [q|] eqn:Hq; [|done].
    exists b, q. split_and!; [done..|]. cbn in Hpb. congruence.
  - intros d b Hb.
    destruct (heap_evolves_bwd _ _ _ _ Hev Hb) as (a & Ha & _ & Hp & Hau & Hcap & Hlen).
    destruct (Hc d a Ha) as (Hauth & [p Hpa] & Hcap256 & Hbuf).
    split_and!.
    + congruence.
    + rewrite Hpa in Hp. destruct (Connection.player b); [eauto|done].
    + congruence.
    + rewrite Hcap, Hcap256 in Hlen. apply Hlen. lia.
  - by rewrite Hcs, (heap_evolves_dom _ _ Hev).
Qed.

Lemma handleJoin_sound s c now payload s' :
  sound s → handleJoin s c now payload = Some s' → sound s'.
Proof.
  intros Hs Hrun.
  destruct (handleJoin_effect _ _ _ _ _ Hrun)
    as (conn & player & Hc & Hp & Hcs & (conn' & Hc' & Hid') & Hev & [Hses|Hses]).
  { by apply (sound_frame s). }
  pose proof Hs as [Hr Hids Ht Hconns Hd Hst].
  apply (sound_update s); try done; rewrite Hses.
  - destruct Hr as [Hdom _]. split; cbn; [|done].
    by rewrite !dom_insert_L, Hdom.
  - cbn. intros k p. rewrite lookup_insert. case_decide as Hk.
    + intros [= <-]. by subst k.
    + apply Hids.
  - cbn. intros k d. rewrite lookup_insert. case_decide as Hk.
    + intros [= <-]. right.
      destruct (Connection.player conn') as [q|] eqn:Hq; [|done].
      exists conn', q. split_and!; [done..|]. cbn in Hid'. congruence.
    + by left.
  - by cbn.
Qed.

Lemma RemovePlayer_effect s playerID :
  Server.heap (RemovePlayer s playerID) = Server.heap s
  ∧ Server.connections (RemovePlayer s playerID) = Server.connections s
  ∧ (Server.session (RemovePlayer s playerID) = Server.session s
     ∨ Server.session (RemovePlayer s playerID)
       = set_roster (delete playerID (Session.players (Server.session s)))
           (delete playerID (Session.connections (Server.session s)))
           (Server.session s)).
Proof.
  unfold RemovePlayer.
  destruct (Session.players (Server.session s) !! playerID);
    split_and!; try done; [by right|by left].
Qed.

Lemma RemovePlayer_sound s playerID : sound s → sound (RemovePlayer s playerID).
Proof.
  intros Hs. destruct (RemovePlayer_effect s playerID) as (Hh & Hcs & [Hses|Hses]).
  { apply (sound_frame s); [done..|]. rewrite Hh. apply heap_evolves_refl. }
  pose proof Hs as [Hr Hids Ht Hconns Hd Hst].
  apply (sound_update s); try done.
  - rewrite Hh. apply heap_evolves_refl.
  - by apply RemovePlayer_roster_consistent.
  - rewrite Hses. cbn. intros k p. rewrite lookup_delete.
    case_decide; [done|apply Hids].
  - rewrite Hses. cbn. intros k d. rewrite lookup_delete.
    case_decide; [done|by left].
  - by rewrite Hses.
Qed.

Lemma SendMessage_sound s c msg : sound s → sound (SendMessage s c msg).
Proof.
  intros Hs. apply (sound_frame s); try done.
  - apply SendMessage_session.
  - apply SendMessage_connections.
  - apply SendMessage_evolves.
Qed.

Lemma BroadcastMessage_sound s msg : sound s → sound (BroadcastMessage s msg).
Proof.
  intros Hs. rewrite BroadcastMessage_fan_out. apply (sound_frame s); try done.
  - apply fan_out_session.
  - apply fan_out_connections.
  - apply fan_out_evolves.
Qed.

Lemma handleMessage_sound s c now msg s' :
  sound s → handleMessage s c now msg = Some s' → sound s'.
Proof.
  intros Hs. unfold handleMessage.
  set (s1 := log_Printf _ s).
  assert (sound s1) as Hs1 by by apply log_Printf_sound.
  clearbody s1. repeat case_bool_decide.
  - by apply handleJoin_sound.
  - unfold handleLeave.
    destruct (Server.heap s1 !! c) as [conn|]; [|done]. cbn [mbind option_bind].
    destruct (Connection.player conn) as [player|]; intros [= <-]; [|done].
    by apply BroadcastMessage_sound, RemovePlayer_sound.
  - unfold handleChat.
    destruct (Server.heap s1 !! c) as [conn|]; [|done]. cbn [mbind option_bind].
    destruct (Connection.authenticated conn), (Connection.player conn) as [player|];
      try (intros [= <-]; by apply SendMessage_sound).
    destruct (json_Unmarshal_ChatPayload (network.ClientPayload msg)).
    + intros [= <-]. by apply SendMessage_sound, log_Printf_sound.
    + intros [= <-]. by apply log_Printf_sound, BroadcastMessage_sound.
  - unfold handlePing.
    destruct (Server.heap s1 !! c) as [conn|]; [|done]. cbn [mbind option_bind].
    intros [= <-]. by apply SendMessage_sound.
  - intros [= <-]. by apply SendMessage_sound, log_Printf_sound.
Qed.

Lemma step_sound s ev s' : sound s → step s ev = Some s' → sound s'.
Proof.
  intros Hs. destruct ev as [now r|now c msg]; cbn.
  - destruct (handleWebSocket s now r) as [[s1 resp]|] eqn:Hws; [|done].
    intros [= <-]. by eapply handleWebSocket_sound.
  - case_bool_decide; [|done]. by apply handleMessage_sound.
Qed.

Lemma run_sound s evs s' : sound s → run s evs = Some s' → sound s'.
Proof.
  unfold run. revert s. induction evs as [|ev evs IH]; intros s Hs.
  - by intros [= <-].
  - cbn [foldl mbind option_bind].
    destruct (step s ev) as [s1|] eqn:Hstep.
    + apply IH. by eapply step_sound.
    + intros Hnone. exfalso. revert Hnone. clear.
      induction evs as [|e evs IHe]; [done|]. exact IHe.
Qed.

End facts.

End runtime_facts.


(** ** What holds in every state the server reaches *)

Section reachable_states.
Import server server_facts runtime runtime_facts.
Context `{Externals}.

(** The outbound queue of every connection ever created has capacity 256
    and never holds more than 256 frames. *)
Theorem reachable_queues_bounded cfg v now0 s0 evs s d conn :
  New cfg v now0 = inr s0 →
  run s0 evs = Some s →
  Server.heap s !! d = Some conn →
  cap (Connection.send conn) = 256%nat
  ∧ (length (buf (Connection.send conn)) ≤ 256)%nat.
Proof.
  intros Hnew Hrun Hd.
  destruct (run_sound _ _ _ (New_sound _ _ _ _ Hnew) Hrun) as [_ _ _ Hc _ _].
  destruct (Hc d conn Hd) as (_ & _ & Hcap & Hlen). done.
Qed.

(** Every entry of the session's connection table points to a tracked,
    authenticated connection whose player has the subject id of the entry;
    so a connection is listed under exactly one id and a broadcast offers
    it a message once. *)
Theorem reachable_table_owned cfg v now0 s0 evs s k d :
  New cfg v now0 = inr s0 →
  run s0 evs = Some s →
  Session.connections (Server.session s) !! k = Some d →
  (∃ conn p, Server.heap s !! d = Some conn
             ∧ Connection.player conn = Some p
             ∧ models.ID p = k
             ∧ Connection.authenticated conn = true)
  ∧ d ∈ Server.connections s
  ∧ registrations d (Session.connections (Server.session s)) = 1%nat.
Proof.
  intros Hnew Hrun Hk.
  destruct (run_sound _ _ _ (New_sound _ _ _ _ Hnew) Hrun) as [_ _ Ht Hc Hd _].
  destruct (Ht k d Hk) as (conn & p & Hconn & Hp & Hid).
  split_and!.
  - exists conn, p. split_and!; try done. by destruct (Hc d conn Hconn).
  - rewrite <- Hd. apply elem_of_dom. eauto.
  - apply (registrations_unique _ k); [done|].
    intros k' Hk'. destruct (Ht k' d Hk') as (conn' & p' & Hconn' & Hp' & Hid').
    congruence.
Qed.

(** Roster and connection table list the same subjects, each player is
    filed under its own id, the status counts the roster, and the session
    is still "waiting" at tick 0: no handler starts it. *)
Theorem reachable_session_shape cfg v now0 s0 evs s :
  New cfg v now0 = inr s0 →
  run s0 evs = Some s →
  let ses := Server.session s in
  dom (Session.players ses) = dom (Session.connections ses)
  ∧ SessionStatus.PlayerCount (Session.status ses)
    = Z.of_nat (size (Session.players ses))
  ∧ (∀ k p, Session.players ses !! k = Some p → models.ID p = k)
  ∧ SessionStatus.State (Session.status ses) = "waiting"
  ∧ SessionStatus.ServerTick (Session.status ses) = 0.
Proof.
  intros Hnew Hrun.
  destruct (run_sound _ _ _ (New_sound _ _ _ _ Hnew) Hrun)
    as [[Hdom Hcount] Hids _ _ _ (Hst & Htick & _)].
  by split_and!.
Qed.

(** A frame from a tracked connection is always handled: the handlers'
    dereferences of the connection's player never hit nil. *)
Theorem reachable_frames_handled cfg v now0 s0 evs s now c msg :
  New cfg v now0 = inr s0 →
  run s0 evs = Some s →
  c ∈ Server.connections s →
  is_Some (handleMessage s c now msg).
Proof.
  intros Hnew Hrun Hc.
  destruct (run_sound _ _ _ (New_sound _ _ _ _ Hnew) Hrun) as [_ _ _ Hconns Hd _].
  rewrite <- Hd in Hc. apply elem_of_dom in Hc as [conn Hconn].
  destruct (Hconns c conn Hconn) as (_ & [p Hp] & _).
  unfold handleMessage. repeat case_bool_decide.
  - unfold handleJoin. cbn [log_Printf Server.heap]. rewrite Hconn.
    cbn [mbind option_bind]. rewrite Hp. cbn [mbind option_bind].
    by destruct (negb (Connection.authenticated conn)).
  - unfold handleLeave. cbn [log_Printf Server.heap]. rewrite Hconn.
    cbn [mbind option_bind]. by rewrite Hp.
  - unfold handleChat. cbn [log_Printf Server.heap]. rewrite Hconn.
    cbn [mbind option_bind]. rewrite Hp.
    destruct (Connection.authenticated conn); [|done].
    by destruct (json_Unmarshal_ChatPayload (network.ClientPayload msg)).
  - unfold handlePing. cbn [log_Printf Server.heap]. by rewrite Hconn.
  - done.
Qed.

End reachable_states.

Lemma booted_is_New :
  runtime.New demo_run.cfg0 demo_run.validator0 0 = inr demo_run.booted.
Proof. reflexivity. Qed.

Lemma two_join_runs :
  runtime.run (H := demo.externals) demo_run.booted demo_run.two_join
  = Some demo_run.after_two_join.
Proof. vm_compute. reflexivity. Qed.

Lemma alice_after_two_join :
  server.Server.heap demo_run.after_two_join !! 0%nat = Some demo_run.alice_after.
Proof. vm_compute. reflexivity. Qed.

Lemma reachable_queues_bounded_witness :
  runtime.New demo_run.cfg0 demo_run.validator0 0 = inr demo_run.booted
  ∧ runtime.run (H := demo.externals) demo_run.booted demo_run.two_join
    = Some demo_run.after_two_join
  ∧ server.Server.heap demo_run.after_two_join !! 0%nat = Some demo_run.alice_after
  ∧ server.cap (server.Connection.send demo_run.alice_after) = 256%nat
  ∧ (length (server.buf (server.Connection.send demo_run.alice_after)) ≤ 256)%nat.
Proof.
  split; [exact booted_is_New|]. split; [exact two_join_runs|].
  split; [exact alice_after_two_join|].
  exact (reachable_queues_bounded (H := demo.externals) _ _ _ _ _ _ _ _
           booted_is_New two_join_runs alice_after_two_join).
Defined.

Lemma reachable_table_owned_witness :
  runtime.New demo_run.cfg0 demo_run.validator0 0 = inr demo_run.booted
  ∧ runtime.run (H := demo.externals) demo_run.booted demo_run.two_join
    = Some demo_run.after_two_join
  ∧ server.Session.connections (server.Server.session demo_run.after_two_join)
      !! "124" = Some 1%nat
  ∧ server.registrations 1%nat
      (server.Session.connections (server.Server.session demo_run.after_two_join))
    = 1%nat.
Proof.
  assert (server.Session.connections (server.Server.session demo_run.after_two_join)
            !! "124" = Some 1%nat) as Hbob by (vm_compute; reflexivity).
  split; [exact booted_is_New|]. split; [exact two_join_runs|].
  split; [exact Hbob|].
  exact (proj2 (proj2 (reachable_table_owned (H := demo.externals) _ _ _ _ _ _ _ _
                         booted_is_New two_join_runs Hbob))).
Defined.

Lemma reachable_session_shape_witness :
  runtime.New demo_run.cfg0 demo_run.validator0 0 = inr demo_run.booted
  ∧ runtime.run (H := demo.externals) demo_run.booted demo_run.two_join
    = Some demo_run.after_two_join
  ∧ server.SessionStatus.PlayerCount
      (server.Session.status (server.Server.session demo_run.after_two_join))
    = Z.of_nat (size (server.Session.players
                        (server.Server.session demo_run.after_two_join)))
  ∧ server.SessionStatus.State
      (server.Session.status (server.Server.session demo_run.after_two_join))
    = "waiting".
Proof.
  split; [exact booted_is_New|]. split; [exact two_join_runs|].
  destruct (reachable_session_shape (H := demo.externals) _ _ _ _ _ _
              booted_is_New two_join_runs) as (_ & Hcount & _ & Hstate & _).
  split; [exact Hcount|exact Hstate].
Defined.

Lemma reachable_frames_handled_witness :
  runtime.New demo_run.cfg0 demo_run.validator0 0 = inr demo_run.booted
  ∧ runtime.run (H := demo.externals) demo_run.booted demo_run.two_join
    = Some demo_run.after_two_join
  ∧ 1%nat ∈ server.Server.connections demo_run.after_two_join
  ∧ is_Some (server.handleMessage (H := demo.externals) demo_run.after_two_join
               1%nat 1002 demo_run.leave).
Proof.
  assert (1%nat ∈ server.Server.connections demo_run.after_two_join) as Hin.
  { refine (bool_decide_unpack _ _). vm_compute. exact I. }
  split; [exact booted_is_New|]. split; [exact two_join_runs|].
  split; [exact Hin|].
  exact (reachable_frames_handled (H := demo.externals) _ _ _ _ _ _ 1002 _
           demo_run.leave booted_is_New two_join_runs Hin).
Defined.


(** ** Admission, leave and chat, effect by effect *)

Section handler_effects.
Import server server_facts runtime runtime_facts.
Context `{Externals}.

(** Whatever the outcome of a connection request, the session (roster,
    table, status) is untouched.  A connection is established only for a
    token [ValidateToken] accepted and an upgrade that succeeded; it is
    then a fresh, tracked, authenticated connection of that player with an
    empty queue of capacity 256.  Every other outcome leaves the
    connections as they were. *)
Theorem handleWebSocket_outcomes s now r s' resp :
  handleWebSocket s now r = Some (s', resp) →
  Server.session s' = Server.session s
  ∧ match resp with
    | Established c =>
        (c ∉ dom (Server.heap s))
        ∧ ∃ tokenString player lines ws,
            extractTokenFromHeader r = Some tokenString
            ∧ tokenString ≠ EmptyString
            ∧ ValidateToken (Server.jwtValidator s) now tokenString
              = (inr player, lines)
            ∧ upgrader_Upgrade r = inr ws
            ∧ Server.heap s'
              = <[c := Connection.Mk ws (Some player) (MkChan [] 256) true]>
                  (Server.heap s)
            ∧ Server.connections s' = {[c]} ∪ Server.connections s
    | HttpError code _ =>
        code = 401
        ∧ Server.heap s' = Server.heap s
        ∧ Server.connections s' = Server.connections s
    | UpgradeFailed =>
        Server.heap s' = Server.heap s
        ∧ Server.connections s' = Server.connections s
    end.
Proof.
  unfold handleWebSocket.
  destruct (extractTokenFromHeader r) as [tokenString|] eqn:Htok; [|done].
  cbn [mbind option_bind]. case_bool_decide as Hempty.
  { intros [= <- <-]. by split_and!. }
  cbn [log_Printf Server.jwtValidator].
  destruct (ValidateToken (Server.jwtValidator s) now tokenString)
    as [[err|player] lines] eqn:Hval;
    pose proof (log_lines_frame lines
      (log_Printf ("New WebSocket connection request from " +:+ RemoteAddr r) s))
      as (Hses & Hcs & Hh & _); cbn zeta in Hses, Hcs, Hh.
  - intros [= <- <-]. cbn. by rewrite Hses, Hcs, Hh.
  - destruct (upgrader_Upgrade r) as [err|ws] eqn:Hup.
    + intros [= <- <-]. cbn. by rewrite Hses, Hcs, Hh.
    + intros [= <- <-]. cbn. rewrite Hses, Hcs, Hh. split; [done|]. split.
      * apply is_fresh.
      * exists tokenString, player, lines, ws. by split_and!.
Qed.

(** [handleLeave] removes the subject of the connection's player from
    roster and table, and offers [player_left] to every connection that is
    still in the table. *)
Theorem handleLeave_effect s c conn player data :
  Server.heap s !! c = Some conn →
  Connection.player conn = Some player →
  json_Marshal
    (network.MkServerMessage "player_left"
       (network.PlayerLeftPayload (models.ID player) (models.Username player)))
  = inr data →
  ∃ s',
    handleLeave s c = Some s'
    ∧ Server.session s' = Server.session (RemovePlayer s (models.ID player))
    ∧ Session.players (Server.session s') !! models.ID player = None
    ∧ ∀ d, Server.heap s' !! d
           = Nat.iter (registrations d (Session.connections (Server.session s')))
                      (deliver data) <$> Server.heap s !! d.
Proof.
  intros Hc Hp Hdata. unfold handleLeave. rewrite Hc. cbn [mbind option_bind].
  rewrite Hp. eexists. split; [reflexivity|].
  rewrite BroadcastMessage_fan_out, fan_out_session.
  split; [done|]. split.
  - unfold RemovePlayer.
    destruct (Session.players (Server.session s) !! models.ID player) eqn:Hin;
      [|done].
    cbn. apply lookup_delete_eq.
  - intros d. rewrite (fan_out_lookup _ _ data) by done.
    destruct (RemovePlayer_effect s (models.ID player)) as (-> & _ & _).
    reflexivity.
Qed.

(** A well-formed chat from an authenticated connection is offered to
    every connection of the table, once per listing, the sender's own
    included; the sender need not be in the table, and the session is not
    changed. *)
Theorem handleChat_fan_out s c now payload conn player chatMsg data :
  Server.heap s !! c = Some conn →
  Connection.authenticated conn = true →
  Connection.player conn = Some player →
  json_Unmarshal_ChatPayload payload = inr chatMsg →
  json_Marshal
    (network.MkServerMessage "chat"
       (network.ChatBroadcastPayload (models.ID player) (models.Username player)
          (network.ChatMessage chatMsg) (unix now)))
  = inr data →
  ∃ s',
    handleChat s c now payload = Some s'
    ∧ Server.session s' = Server.session s
    ∧ ∀ d, Server.heap s' !! d
           = Nat.iter (registrations d (Session.connections (Server.session s)))
                      (deliver data) <$> Server.heap s !! d.
Proof.
  intros Hc Hauth Hp Hchat Hdata.
  rewrite (handleChat_always_broadcasts _ _ _ _ _ _ _ Hc Hauth Hp Hchat).
  eexists. split; [reflexivity|].
  cbn [log_Printf Server.session Server.heap].
  rewrite BroadcastMessage_fan_out, fan_out_session. split; [done|].
  intros d. by rewrite (fan_out_lookup _ _ data).
Qed.

(** A chat that is not accepted (connection not authenticated, or payload
    not decodable) changes nothing but the sender's queue, which is offered
    an error frame. *)
Theorem handleChat_rejects s c now payload conn :
  Server.heap s !! c = Some conn →
  Connection.authenticated conn = false
  ∨ Connection.player conn = None
  ∨ (∃ err, json_Unmarshal_ChatPayload payload = inl err) →
  ∃ s' code text,
    handleChat s c now payload = Some s'
    ∧ (code = "not_authenticated" ∨ code = "invalid_chat")
    ∧ Server.session s' = Server.session s
    ∧ ∀ data,
        json_Marshal (network.MkServerMessage "error" (network.ErrorPayload code text))
        = inr data →
        Server.heap s' = alter (deliver data) c (Server.heap s).
Proof.
  intros Hc Hbad. unfold handleChat. rewrite Hc. cbn [mbind option_bind].
  destruct (Connection.authenticated conn) eqn:Hauth;
    [destruct (Connection.player conn) as [player|] eqn:Hp|].
  - destruct Hbad as [?|[?|[err Herr]]]; [done..|]. rewrite Herr.
    eexists _, "invalid_chat", _. split; [reflexivity|].
    unfold SendError. rewrite SendMessage_session.
    split_and!; [by right|done|].
    intros data Hdata. by rewrite (SendMessage_heap _ _ _ data).
  - eexists _, "not_authenticated", _. split; [reflexivity|].
    unfold SendError. rewrite SendMessage_session.
    split_and!; [by left|done|].
    intros data Hdata. by rewrite (SendMessage_heap _ _ _ data).
  - eexists _, "not_authenticated", _. split; [reflexivity|].
    unfold SendError. rewrite SendMessage_session.
    split_and!; [by left|done|].
    intros data Hdata. by rewrite (SendMessage_heap _ _ _ data).
Qed.

Lemma SendMessage_heap_failed s c msg err :
  json_Marshal msg = inl err → Server.heap (SendMessage s c msg) = Server.heap s.
Proof. intros Hm. unfold SendMessage. by rewrite Hm. Qed.

Lemma fan_out_heap_failed keep msg err l s :
  json_Marshal msg = inl err →
  Server.heap (fan_out keep msg s l) = Server.heap s.
Proof.
  intros Hm. unfold fan_out. revert s.
  induction l as [|kc l IH]; intros s; [done|].
  cbn [foldl]. rewrite IH. destruct (keep kc.2); [|done].
  by apply SendMessage_heap_failed with err.
Qed.

(** Go ranges over the connection table in an unspecified order.  The
    queues after a broadcast do not depend on it: visiting the entries in
    any order gives the connections [BroadcastMessage] gives. *)
Theorem BroadcastMessage_order_irrelevant s msg l :
  l ≡ₚ map_to_list (Session.connections (Server.session s)) →
  Server.heap (fan_out (λ _, true) msg s l) = Server.heap (BroadcastMessage s msg)
  ∧ Server.session (fan_out (λ _, true) msg s l)
    = Server.session (BroadcastMessage s msg).
Proof.
  intros Hperm. rewrite BroadcastMessage_fan_out, !fan_out_session.
  split; [|done].
  destruct (json_Marshal msg) as [err|data] eqn:Hm.
  - by rewrite !(fan_out_heap_failed _ _ err).
  - apply map_eq. intros d. rewrite !(fan_out_lookup _ _ data) by done.
    assert (length (filter (λ kc : string * ConnId, kc.2 = d) l)
            = length (filter (λ kc : string * ConnId, kc.2 = d)
                        (map_to_list (Session.connections (Server.session s)))))
      as Hlen by (by rewrite Hperm).
    by rewrite Hlen.
Qed.

(** Adding a subject that was absent and removing it again gives back the
    session, count included. *)
Theorem AddPlayer_RemovePlayer s player conn :
  roster_consistent (Server.session s) →
  Session.players (Server.session s) !! models.ID player = None →
  Server.session (RemovePlayer (AddPlayer s player conn).1 (models.ID player))
  = Server.session s.
Proof.
  intros [Hdom Hcount] Habsent.
  assert (Session.connections (Server.session s) !! models.ID player = None)
    as Habsent'.
  { apply not_elem_of_dom. rewrite <- Hdom. by apply not_elem_of_dom. }
  unfold RemovePlayer. cbn. rewrite lookup_insert_eq. cbn.
  rewrite !delete_insert_eq, !delete_id by done.
  destruct (Server.session s) as [id created players table world status bc cfg].
  cbn in *. unfold set_roster. cbn. f_equal.
  destruct status. cbn in *. unfold set_PlayerCount. cbn. by rewrite Hcount.
Qed.

(** The validator rejects activation values 0 and -1 only: a token whose
    [activated] is below -1 is admitted when the other checks pass,
    although [Player.IsActive] is false for the player returned. *)
Theorem ValidateToken_admits_inactive v now tokenString claims n :
  verified v tokenString claims →
  Claims.Issuer claims = config.Issuer (config.JWT (JWTValidator.config v)) →
  (∀ exp, Claims.ExpiresAt claims = Some exp → now <= exp) →
  Claims.Activated claims < -1 →
  redis_Exists (blacklistKey v claims) = inr n →
  n <= 0 →
  ValidateToken v now tokenString = (inr (player_of_claims claims), [])
  ∧ models.IsActive (player_of_claims claims) = false
  ∧ models.IsBanned (player_of_claims claims) = false.
Proof.
  intros Hver Hiss Hexp Hact Hredis Hn.
  split.
  - rewrite (ValidateToken_verified _ _ _ _ Hver).
    rewrite bool_decide_eq_false_2 by (by intros ?).
    assert (match Claims.ExpiresAt claims with
            | Some exp => exp <? now | None => false end = false) as ->.
    { destruct (Claims.ExpiresAt claims) as [exp|]; [|done].
      apply Z.ltb_ge. by apply Hexp. }
    rewrite (proj2 (Z.eqb_neq _ 0)), (proj2 (Z.eqb_neq _ (-1))) by lia.
    rewrite Hredis. by rewrite (proj2 (Z.ltb_ge 0 n)).
  - unfold models.IsActive, models.IsBanned. cbn.
    split; [apply Z.ltb_ge; lia|apply Z.eqb_neq; lia].
Qed.

End handler_effects.


Lemma alice_connects :
  server.handleWebSocket (H := demo.externals) demo.server0 1000 (demo.request "alice")
  = Some (demo_run.after_connect, server.Established 0%nat).
Proof. vm_compute. reflexivity. Qed.

Lemma handleWebSocket_outcomes_witness :
  server.handleWebSocket (H := demo.externals) demo.server0 1000 (demo.request "alice")
  = Some (demo_run.after_connect, server.Established 0%nat)
  ∧ server.Server.session demo_run.after_connect = server.Server.session demo.server0
  ∧ 0%nat ∉ dom (server.Server.heap demo.server0).
Proof.
  split; [exact alice_connects|].
  destruct (handleWebSocket_outcomes (H := demo.externals) _ _ _ _ _ alice_connects)
    as (Hses & Hfresh & _).
  split; [exact Hses|exact Hfresh].
Defined.

Lemma handleLeave_effect_witness :
  server.Server.heap demo_run.after_two_join !! 0%nat = Some demo_run.alice_after
  ∧ server.Connection.player demo_run.alice_after = Some demo_run.alice_joined
  ∧ demo.marshal
      (network.MkServerMessage "player_left"
         (network.PlayerLeftPayload "123" "alice"))
    = inr "player_left:alice"
  ∧ ∃ s',
      server.handleLeave (H := demo.externals) demo_run.after_two_join 0%nat = Some s'
      ∧ server.Session.players (server.Server.session s') !! "123" = None.
Proof.
  split; [exact alice_after_two_join|]. split; [reflexivity|]. split; [reflexivity|].
  destruct (handleLeave_effect (H := demo.externals) demo_run.after_two_join 0%nat
              demo_run.alice_after demo_run.alice_joined "player_left:alice"
              alice_after_two_join eq_refl eq_refl) as (s' & Hrun & _ & Hgone & _).
  exists s'. split; [exact Hrun|exact Hgone].
Defined.

Lemma handleChat_fan_out_witness :
  server.Server.heap demo_run.after_two_join !! 0%nat = Some demo_run.alice_after
  ∧ server.Connection.authenticated demo_run.alice_after = true
  ∧ server.Connection.player demo_run.alice_after = Some demo_run.alice_joined
  ∧ ∃ s',
      server.handleChat (H := demo.externals) demo_run.after_two_join 0%nat
        1002000000000 "hi" = Some s'
      ∧ server.Server.session s' = server.Server.session demo_run.after_two_join.
Proof.
  split; [exact alice_after_two_join|]. split; [reflexivity|]. split; [reflexivity|].
  destruct (handleChat_fan_out (H := demo.externals) demo_run.after_two_join 0%nat
              1002000000000 "hi" demo_run.alice_after demo_run.alice_joined
              (network.MkChatPayload "hi") "chat:alice:hi"
              alice_after_two_join eq_refl eq_refl eq_refl eq_refl)
    as (s' & Hrun & Hses & _).
  exists s'. split; [exact Hrun|exact Hses].
Defined.

Lemma handleChat_rejects_witness :
  server.Server.heap demo_run.server_unauthenticated !! 0%nat
  = Some (server.NewConnection 1%nat)
  ∧ server.Connection.authenticated (server.NewConnection 1%nat) = false
  ∧ ∃ s',
      server.handleChat (H := demo.externals) demo_run.server_unauthenticated 0%nat
        1000 "hi" = Some s'
      ∧ server.Server.session s'
        = server.Server.session demo_run.server_unauthenticated.
Proof.
  split; [reflexivity|]. split; [reflexivity|].
  destruct (handleChat_rejects (H := demo.externals) demo_run.server_unauthenticated
              0%nat 1000 "hi" (server.NewConnection 1%nat) eq_refl
              (or_introl eq_refl)) as (s' & code & text & Hrun & _ & Hses & _).
  exists s'. split; [exact Hrun|exact Hses].
Defined.

Lemma BroadcastMessage_order_irrelevant_witness :
  let table :=
    server.Session.connections (server.Server.session demo_run.after_two_join) in
  reverse (map_to_list table) ≡ₚ map_to_list table
  ∧ server.Server.heap
      (server.fan_out (H := demo.externals) (λ _, true) demo.pong
         demo_run.after_two_join (reverse (map_to_list table)))
    = server.Server.heap
        (server.BroadcastMessage (H := demo.externals) demo_run.after_two_join
           demo.pong).
Proof.
  intros table.
  assert (reverse (map_to_list table) ≡ₚ map_to_list table) as Hperm
    by apply reverse_Permutation.
  split; [exact Hperm|].
  exact (proj1 (BroadcastMessage_order_irrelevant (H := demo.externals)
                  demo_run.after_two_join demo.pong _ Hperm)).
Defined.

Lemma AddPlayer_RemovePlayer_witness :
  server.roster_consistent (server.Server.session demo.server0)
  ∧ server.Session.players (server.Server.session demo.server0) !! "123" = None
  ∧ server.Server.session
      (server.RemovePlayer (server.AddPlayer demo.server0 demo.alice 0%nat).1 "123")
    = server.Server.session demo.server0.
Proof.
  assert (server.roster_consistent (server.Server.session demo.server0)) as H0.
  { split; reflexivity. }
  split; [exact H0|]. split; [reflexivity|].
  exact (AddPlayer_RemovePlayer demo.server0 demo.alice 0%nat H0 eq_refl).
Defined.

Lemma ValidateToken_admits_inactive_witness :
  server.verified (H := demo_run.externals_odd) demo.validator "odd"
    demo_run.odd_claims
  ∧ server.Claims.Activated demo_run.odd_claims < -1
  ∧ demo.exists_key "blacklist:128" = inr 0
  ∧ server.ValidateToken (H := demo_run.externals_odd) demo.validator 1000 "odd"
    = (inr (server.player_of_claims demo_run.odd_claims), [])
  ∧ models.IsActive (server.player_of_claims demo_run.odd_claims) = false.
Proof.
  assert (server.verified (H := demo_run.externals_odd) demo.validator "odd"
            demo_run.odd_claims) as Hver by (eexists; split_and!; reflexivity).
  assert (∀ exp, server.Claims.ExpiresAt demo_run.odd_claims = Some exp → 1000 <= exp)
    as Hexp.
  { intros exp Heq. cbn in Heq. injection Heq as <-. lia. }
  assert (server.Claims.Activated demo_run.odd_claims < -1) as Hact by (cbn; lia).
  split; [exact Hver|]. split; [exact Hact|]. split; [reflexivity|].
  destruct (ValidateToken_admits_inactive (H := demo_run.externals_odd)
              demo.validator 1000 "odd" demo_run.odd_claims 0
              Hver eq_refl Hexp Hact eq_refl ltac:(lia)) as (Hval & Hinactive & _).
  split; [exact Hval|exact Hinactive].
Defined.


(** ** Splitting, trimming and locating the token *)

Module auth_strings_facts.
Import server auth_strings.

Lemma app_cons a s t : String a s +:+ t = String a (s +:+ t).
Proof. reflexivity. Qed.

Lemma app_nil_l t : "" +:+ t = t.
Proof. reflexivity. Qed.

Lemma app_nil_r s : s +:+ "" = s.
Proof. induction s as [|a s IH]; [done|]. by rewrite app_cons, IH. Qed.

Lemma app_assoc' s t u : (s +:+ t) +:+ u = s +:+ t +:+ u.
Proof. induction s as [|a s IH]; [done|]. by rewrite !app_cons, IH. Qed.

Lemma rev_app_app s t : String.rev_app s t = String.rev s +:+ t.
Proof.
  unfold String.rev. revert t. induction s as [|a s IH]; intros t; [done|].
  cbn [String.rev_app]. rewrite (IH (String a t)), (IH (String a "")).
  by rewrite app_assoc'.
Qed.

Lemma rev_cons a s : String.rev (String a s) = String.rev s +:+ String a "".
Proof. unfold String.rev at 1. cbn [String.rev_app]. apply rev_app_app. Qed.

Lemma rev_app_distr s t : String.rev (s +:+ t) = String.rev t +:+ String.rev s.
Proof.
  induction s as [|a s IH]; [by rewrite app_nil_l, app_nil_r|].
  by rewrite app_cons, !rev_cons, IH, app_assoc'.
Qed.

Lemma rev_involutive s : String.rev (String.rev s) = s.
Proof.
  induction s as [|a s IH]; [done|].
  by rewrite rev_cons, rev_app_distr, IH.
Qed.

Lemma all_blank_app s t : all_blank (s +:+ t) = all_blank s && all_blank t.
Proof.
  induction s as [|a s IH]; [done|].
  rewrite app_cons. cbn [all_blank]. rewrite IH. by destruct (is_blank a).
Qed.

Lemma all_blank_rev s : all_blank (String.rev s) = all_blank s.
Proof.
  induction s as [|a s IH]; [done|].
  rewrite rev_cons, all_blank_app, IH. cbn [all_blank].
  destruct (is_blank a), (all_blank s); done.
Qed.

Lemma starts_blank_app s t :
  s ≠ "" → starts_blank (s +:+ t) = starts_blank s.
Proof. by destruct s. Qed.

(** [trim_left] drops a blank prefix, all of it. *)
Lemma trim_left_spec s :
  ∃ b, s = b +:+ trim_left s ∧ all_blank b = true
       ∧ starts_blank (trim_left s) = false.
Proof.
  induction s as [|a s (b & Hs & Hb & Ht)]; [by exists ""|].
  cbn [trim_left]. destruct (is_blank a) eqn:Ha.
  - exists (String a b). rewrite app_cons, <- Hs. cbn [all_blank].
    by rewrite Ha, Hb.
  - exists "". by split_and!.
Qed.

(** [trimSpace] removes the blanks (spaces and tabs) at both ends and
    nothing else: what is left neither starts nor ends with a blank, and
    trimming again changes nothing. *)
Theorem trimSpace_spec s :
  (∃ l r, s = l +:+ trimSpace s +:+ r
          ∧ all_blank l = true ∧ all_blank r = true)
  ∧ starts_blank (trimSpace s) = false
  ∧ ends_blank (trimSpace s) = false
  ∧ trimSpace (trimSpace s) = trimSpace s.
Proof.
  assert (∀ s, (∃ l r, s = l +:+ trimSpace s +:+ r
                       ∧ all_blank l = true ∧ all_blank r = true)
               ∧ starts_blank (trimSpace s) = false
               ∧ ends_blank (trimSpace s) = false) as Hspec.
  { clear s. intros s. unfold trimSpace, ends_blank.
    destruct (trim_left_spec s) as (l & Hs & Hl & Ht).
    destruct (trim_left_spec (String.rev (trim_left s))) as (r' & Hr & Hr' & Hu).
    set (t := trim_left s) in *. set (u := trim_left (String.rev t)) in *.
    assert (t = String.rev u +:+ String.rev r') as Htu.
    { by rewrite <- rev_app_distr, <- Hr, rev_involutive. }
    split_and!.
    - exists l, (String.rev r'). rewrite <- Htu. split_and!; [done..|].
      by rewrite all_blank_rev.
    - destruct (String.rev u) as [|a w] eqn:Hw; [done|].
      rewrite Htu in Ht. by rewrite starts_blank_app in Ht.
    - by rewrite rev_involutive. }
  destruct (Hspec s) as (Hsplit & Hstart & Hend). split_and!; try done.
  (* nothing is left to trim *)
  assert (∀ x, starts_blank x = false → trim_left x = x) as Hfix.
  { intros [|a x]; [done|]. cbn. by intros ->. }
  unfold trimSpace at 1. rewrite (Hfix _ Hstart).
  unfold ends_blank in Hend. by rewrite (Hfix _ Hend), rev_involutive.
Qed.

Lemma split_on_nonempty c s : split_on c s ≠ [].
Proof.
  destruct s as [|a s]; [done|]. cbn.
  destruct (Ascii.eqb a c); [done|]. by destruct (split_on c s).
Qed.

Lemma concat_cons sep x y l :
  String.concat sep (x :: y :: l) = x +:+ sep +:+ String.concat sep (y :: l).
Proof. reflexivity. Qed.

Lemma split_on_concat c s : String.concat (String c "") (split_on c s) = s.
Proof.
  induction s as [|a s IH]; [done|]. cbn [split_on].
  destruct (Ascii.eqb_spec a c) as [->|Hne].
  - pose proof (split_on_nonempty c s) as Hne.
    destruct (split_on c s) as [|p ps]; [done|].
    by rewrite concat_cons, IH.
  - destruct (split_on c s) as [|p ps] eqn:Hsp; [by destruct (split_on_nonempty c s)|].
    destruct ps as [|q ps].
    + cbn in IH. cbn. by rewrite IH.
    + rewrite concat_cons in IH. rewrite concat_cons, app_cons. by rewrite IH.
Qed.

Lemma split_on_pieces c s :
  Forall (λ p, occurrences c p = 0%nat) (split_on c s)
  ∧ length (split_on c s) = S (occurrences c s).
Proof.
  induction s as [|a s [IHf IHl]]; [by split; [repeat constructor|]|].
  cbn [split_on occurrences]. destruct (Ascii.eqb a c) eqn:Hac.
  - split; [by constructor|]. cbn. by rewrite IHl.
  - destruct (split_on c s) as [|p ps]; [done|].
    apply Forall_cons in IHf as [Hp Hps]. split; [|done].
    constructor; [|done]. cbn. by rewrite Hac.
Qed.

Lemma splitString_split_on s c rest :
  splitString s (String c rest) = Some (split_on c s).
Proof. by destruct s. Qed.

(** [splitString] with a non-empty separator never panics; it cuts at the
    first byte of the separator (the rest of the separator is ignored):
    the pieces joined by that byte give the string back, no piece contains
    the byte, and there is one piece more than there are occurrences. *)
Theorem splitString_spec s c rest :
  ∃ pieces,
    splitString s (String c rest) = Some pieces
    ∧ splitString s (String c "") = Some pieces
    ∧ String.concat (String c "") pieces = s
    ∧ Forall (λ p, occurrences c p = 0%nat) pieces
    ∧ length pieces = S (occurrences c s).
Proof.
  exists (split_on c s). split_and!.
  - by destruct s.
  - by destruct s.
  - apply split_on_concat.
  - apply split_on_pieces.
  - apply split_on_pieces.
Qed.

Lemma split_on_clean c s : occurrences c s = 0%nat → split_on c s = [s].
Proof.
  induction s as [|a s IH]; [done|]. cbn [occurrences split_on].
  destruct (Ascii.eqb a c); [done|]. intros Hs. by rewrite IH.
Qed.

Lemma split_on_app c p q :
  occurrences c p = 0%nat →
  split_on c (p +:+ String c q) = p :: split_on c q.
Proof.
  induction p as [|a p IH].
  - intros _. rewrite app_nil_l. cbn [split_on]. by rewrite Ascii.eqb_refl.
  - cbn [occurrences]. rewrite app_cons. cbn [split_on].
    destruct (Ascii.eqb a c); [done|]. intros Hp. by rewrite IH.
Qed.

Lemma trimSpace_fixed s :
  starts_blank s = false → ends_blank s = false → trimSpace s = s.
Proof.
  assert (∀ x, starts_blank x = false → trim_left x = x) as Hfix.
  { intros [|a x]; [done|]. cbn. by intros ->. }
  intros Hstart Hend. unfold trimSpace. rewrite (Hfix _ Hstart).
  unfold ends_blank in Hend. by rewrite (Hfix _ Hend), rev_involutive.
Qed.

Lemma substring_all s : String.substring 0 (String.length s) s = s.
Proof. induction s as [|a s IH]; [done|]. cbn. by rewrite IH. Qed.

Lemma splitAndTrim_total s : is_Some (splitAndTrim s ",").
Proof.
  unfold splitAndTrim.
  change "," with (String ","%char ""). rewrite splitString_split_on. eauto.
Qed.

(** The documented way to present the token: the header
    [Sec-WebSocket-Protocol: access_token, <token>].  The token is
    recovered whatever the other headers and the query string say. *)
Theorem extractToken_from_protocol r tok :
  Header r !! "Sec-WebSocket-Protocol" = Some ("access_token, " +:+ tok) →
  tok ≠ "" →
  occurrences ","%char tok = 0%nat →
  starts_blank tok = false →
  ends_blank tok = false →
  extractTokenFromHeader r = Some tok.
Proof.
  intros Hhdr Hne Hcomma Hstart Hend.
  assert (parseProtocols ("access_token, " +:+ tok) = Some ["access_token"; tok])
    as Hparse.
  { unfold parseProtocols, splitAndTrim.
    assert (splitString ("access_token, " +:+ tok) ","
            = Some ["access_token"; String " "%char tok]) as ->.
    { assert (splitString ("access_token, " +:+ tok) ","
              = Some (split_on "," ("access_token" +:+ String "," (String " " tok))))
        as Hs by reflexivity.
      rewrite split_on_app in Hs by reflexivity.
      by rewrite split_on_clean in Hs by (cbn; by rewrite Hcomma). }
    cbn [fmap list_fmap].
    assert (trimSpace "access_token" = "access_token") as -> by reflexivity.
    assert (trimSpace (String " "%char tok) = tok) as ->.
    { rewrite <- (trimSpace_fixed tok Hstart Hend) at 2. reflexivity. }
    rewrite filter_cons_True by done.
    rewrite filter_cons_True by done.
    by rewrite filter_nil. }
  assert ("access_token, " +:+ tok ≠ "") as Hnonempty by done.
  set (protocols := "access_token, " +:+ tok) in *. clearbody protocols.
  unfold extractTokenFromHeader, Header_Get. rewrite Hhdr.
  change (default "" (Some protocols)) with protocols.
  rewrite bool_decide_eq_true_2 by done.
  rewrite Hparse. by rewrite bool_decide_eq_true_2.
Qed.

(** Token extraction never panics.  Without a protocol header, a header
    [Authorization: Bearer <token>] with a non-empty token gives the
    token; without that as well, the [token] query parameter is used, and
    the result is empty when it is missing. *)
Theorem extractToken_fallbacks r :
  is_Some (extractTokenFromHeader r)
  ∧ (Header_Get r "Sec-WebSocket-Protocol" = "" →
     (∀ tok, Header_Get r "Authorization" = "Bearer " +:+ tok → tok ≠ "" →
             extractTokenFromHeader r = Some tok)
     ∧ (Header_Get r "Authorization" = "" →
        extractTokenFromHeader r = Some (Query_Get r "token"))).
Proof.
  split.
  - unfold extractTokenFromHeader.
    case_bool_decide.
    + unfold parseProtocols.
      destruct (splitAndTrim_total (Header_Get r "Sec-WebSocket-Protocol"))
        as [parts ->].
      destruct parts as [|p0 [|p1 [|p2 parts]]];
        repeat case_bool_decide; repeat case_match; eauto.
    + repeat case_match; eauto.
  - intros Hproto. unfold extractTokenFromHeader. rewrite Hproto.
    rewrite bool_decide_eq_false_2 by (by intros ?). split.
    + intros tok Hauth Htok. rewrite Hauth.
      rewrite bool_decide_eq_true_2 by done.
      destruct tok as [|a tok]; [done|].
      change ("Bearer " +:+ String a tok)
        with (String "B" (String "e" (String "a" (String "r" (String "e"
               (String "r" (String " " (String a tok)))))))).
      cbn [String.length Nat.ltb Nat.leb andb String.substring Nat.sub].
      rewrite bool_decide_eq_true_2 by done.
      by rewrite (substring_all tok).
    + intros Hauth. rewrite Hauth.
      rewrite bool_decide_eq_false_2 by (by intros ?). cbn [andb].
      case_bool_decide as Hq; [done|].
      first [by rewrite Hq | apply dec_stable in Hq; by rewrite Hq].
Qed.

End auth_strings_facts.

Lemma extractToken_from_protocol_witness :
  server.Header (demo.request "alice") !! "Sec-WebSocket-Protocol"
  = Some ("access_token, " +:+ "alice")
  ∧ "alice" ≠ ""
  ∧ auth_strings.occurrences ","%char "alice" = 0%nat
  ∧ auth_strings.starts_blank "alice" = false
  ∧ auth_strings.ends_blank "alice" = false
  ∧ server.extractTokenFromHeader (demo.request "alice") = Some "alice".
Proof.
  assert ("alice" ≠ "") as Hne by discriminate.
  split; [reflexivity|]. split; [exact Hne|].
  split; [reflexivity|]. split; [reflexivity|]. split; [reflexivity|].
  exact (auth_strings_facts.extractToken_from_protocol (demo.request "alice") "alice"
           eq_refl Hne eq_refl eq_refl eq_refl).
Defined.

Lemma extractToken_fallbacks_witness :
  let r := server.MkRequest "10.0.0.7:51000" {[ "Authorization" := "Bearer alice" ]} ∅ in
  server.Header_Get r "Sec-WebSocket-Protocol" = ""
  ∧ server.Header_Get r "Authorization" = "Bearer " +:+ "alice"
  ∧ server.extractTokenFromHeader r = Some "alice".
Proof.
  intros r. split; [reflexivity|]. split; [reflexivity|].
  destruct (auth_strings_facts.extractToken_fallbacks r) as (_ & Hfallback).
  destruct (Hfallback eq_refl) as (Hbearer & _).
  apply (Hbearer "alice"); [reflexivity|discriminate].
Defined.


(** ** Distances on the hex grid *)

Module hex_facts.
Import hex hex_geometry GoIntFacts gamemap_facts.

Ltac unwrap :=
  repeat first
    [ rewrite neg_small by lia
    | rewrite add_small by lia
    | rewrite sub_small by lia ].

Lemma mul_small x y :
  Z.abs x <= 2 ^ 30 → Z.abs y <= 2 ^ 30 → GoInt.mul x y = x * y.
Proof.
  intros Hx Hy. unfold GoInt.mul. apply wrap_small.
  unfold GoInt.in_range, GoInt.min_int, GoInt.max_int.
  assert (Z.abs (x * y) <= 2 ^ 30 * 2 ^ 30).
  { rewrite Z.abs_mul. apply Z.mul_le_mono_nonneg; lia. }
  lia.
Qed.

Lemma mul_exact x y : Z.abs (x * y) < 2 ^ 62 → GoInt.mul x y = x * y.
Proof.
  intros Hxy. unfold GoInt.mul. apply wrap_small.
  unfold GoInt.in_range, GoInt.min_int, GoInt.max_int. lia.
Qed.

(** Away from the integer limits [DistanceAxial] is the hex distance: the
    float round trip of [math.Abs] is exact and nothing wraps. *)
Lemma DistanceAxial_exact a b :
  bounded (2 ^ 50) a → bounded (2 ^ 50) b → DistanceAxial a b = dist a b.
Proof.
  intros [Haq Har] [Hbq Hbr].
  unfold DistanceAxial, DistanceCube, ToCube, dist. cbn [X Y Zc].
  rewrite (neg_small (Q a)), (neg_small (Q b)) by lia.
  rewrite (sub_small (- Q a) (R a)), (sub_small (- Q b) (R b)) by lia.
  rewrite (sub_small (Q a) (Q b)), (sub_small (R a) (R b)) by lia.
  rewrite (sub_small (- Q a - R a) (- Q b - R b)) by lia.
  rewrite !abs_via_float_small by lia.
  destruct (Z.ltb_spec (Z.abs (- Q a - R a - (- Q b - R b))) (Z.abs (Q a - Q b)));
    destruct (Z.ltb_spec (Z.abs (R a - R b)) (Z.abs (Q a - Q b)));
    destruct (Z.ltb_spec (Z.abs (R a - R b)) (Z.abs (- Q a - R a - (- Q b - R b))));
    cbn [andb]; lia.
Qed.

Lemma Add_exact a d :
  bounded (2 ^ 50) a → bounded (2 ^ 50) d →
  Add a d = MkAxial (Q a + Q d) (R a + R d).
Proof. intros [? ?] [? ?]. unfold Add. by unwrap. Qed.

Lemma dir_bounded i : bounded 1 (dir i).
Proof.
  unfold dir, bounded.
  do 6 (destruct i as [|i]; [cbn; lia|]).
  change (Directions !! S (S (S (S (S (S i)))))) with (@nil Axial !! i).
  rewrite lookup_nil. cbn; lia.
Qed.

Lemma elem_of_Directions d : d ∈ Directions ↔ ∃ i, (i < 6)%nat ∧ d = dir i.
Proof.
  split.
  - intros Hd. apply list_elem_of_lookup in Hd as [i Hi].
    exists i. split; [by apply lookup_lt_Some in Hi|].
    unfold dir. by rewrite Hi.
  - intros (i & Hi & ->). unfold dir.
    do 6 (destruct i as [|i]; [cbn; set_solver|]). lia.
Qed.

Lemma DistanceAxial_zero a b :
  bounded (2 ^ 50) a → bounded (2 ^ 50) b → DistanceAxial a b = 0 ↔ a = b.
Proof.
  intros Ha Hb. rewrite DistanceAxial_exact by done. unfold dist. split.
  - intros Hd. destruct a as [aq ar], b as [bq br]. cbn in *. f_equal; lia.
  - intros ->. lia.
Qed.

(** [DistanceAxial] is a metric on coordinates away from the integer
    limits. *)
Theorem DistanceAxial_metric a b c :
  bounded (2 ^ 50) a → bounded (2 ^ 50) b → bounded (2 ^ 50) c →
  0 <= DistanceAxial a b
  ∧ (DistanceAxial a b = 0 ↔ a = b)
  ∧ DistanceAxial a b = DistanceAxial b a
  ∧ DistanceAxial a c <= DistanceAxial a b + DistanceAxial b c.
Proof.
  intros Ha Hb Hc. rewrite DistanceAxial_zero by done.
  rewrite !DistanceAxial_exact by done. unfold dist. split_and!.
  - lia.
  - done.
  - lia.
  - assert (Z.abs (Q a - Q c) <= Z.abs (Q a - Q b) + Z.abs (Q b - Q c)) as H1 by lia.
    assert (Z.abs (R a - R c) <= Z.abs (R a - R b) + Z.abs (R b - R c)) as H2 by lia.
    assert (Z.abs (Q a + R a - (Q c + R c))
            <= Z.abs (Q a + R a - (Q b + R b)) + Z.abs (Q b + R b - (Q c + R c)))
      as H3 by lia.
    clear Ha Hb Hc. revert H1 H2 H3.
    generalize (Z.abs (Q a - Q c)) (Z.abs (Q a - Q b)) (Z.abs (Q b - Q c))
               (Z.abs (R a - R c)) (Z.abs (R a - R b)) (Z.abs (R b - R c))
               (Z.abs (Q a + R a - (Q c + R c))) (Z.abs (Q a + R a - (Q b + R b)))
               (Z.abs (Q b + R b - (Q c + R c))).
    intros. lia.
Qed.

(** The six [Directions] lead to the cells at distance 1, and to no
    other. *)
Theorem neighbours_at_distance_one a b :
  bounded (2 ^ 49) a → bounded (2 ^ 49) b →
  DistanceAxial a b = 1 ↔ ∃ d, d ∈ Directions ∧ b = Add a d.
Proof.
  intros [Haq Har] [Hbq Hbr].
  rewrite DistanceAxial_exact by (split; lia).
  split.
  - unfold dist. intros Hd.
    assert ((Q b - Q a, R b - R a) = (1, 0) ∨ (Q b - Q a, R b - R a) = (1, -1)
            ∨ (Q b - Q a, R b - R a) = (0, -1) ∨ (Q b - Q a, R b - R a) = (-1, 0)
            ∨ (Q b - Q a, R b - R a) = (-1, 1) ∨ (Q b - Q a, R b - R a) = (0, 1))
      as Hcases.
    { assert (-1 <= Q b - Q a <= 1 ∧ -1 <= R b - R a <= 1) as [Hq Hr] by lia.
      assert (Q b - Q a = -1 ∨ Q b - Q a = 0 ∨ Q b - Q a = 1) as Hq' by lia.
      assert (R b - R a = -1 ∨ R b - R a = 0 ∨ R b - R a = 1) as Hr' by lia.
      destruct Hq' as [Hq'|[Hq'|Hq']], Hr' as [Hr'|[Hr'|Hr']];
        rewrite Hq', Hr'; first [tauto | lia]. }
    destruct b as [bq br]. cbn in *.
    destruct Hcases as [Hc|[Hc|[Hc|[Hc|[Hc|Hc]]]]]; injection Hc as Hq Hr;
      [exists (dir 0)|exists (dir 1)|exists (dir 2)
      |exists (dir 3)|exists (dir 4)|exists (dir 5)];
      (split; [apply elem_of_Directions; eexists; split; [|reflexivity]; lia|]);
      (rewrite Add_exact; [cbn; f_equal; lia|split; lia|cbn; split; cbn; lia]).
  - intros (d & Hd & ->). apply elem_of_Directions in Hd as (i & Hi & ->).
    pose proof (dir_bounded i) as [Hdq Hdr].
    rewrite Add_exact by (split; lia). unfold dist. cbn [Q R].
    do 6 (destruct i as [|i]; [cbn; lia|]). lia.
Qed.

End hex_facts.


(** ** Rings *)

Module ring_facts.
Import hex hex_geometry GoIntFacts gamemap_facts hex_facts.

Lemma ring_side_exact n d cur res B :
  bounded 1 d → bounded B cur → 0 <= B → B + Z.of_nat n <= 2 ^ 50 →
  ring_side n d (cur, res)
  = (MkAxial (Q cur + Z.of_nat n * Q d) (R cur + Z.of_nat n * R d),
     res ++ ((λ t : nat, MkAxial (Q cur + Z.of_nat t * Q d)
                                 (R cur + Z.of_nat t * R d)) <$> seq 0 n)).
Proof.
  intros [Hdq Hdr]. revert cur res B.
  induction n as [|n IH]; intros cur res B [Hq Hr] HB Hn.
  - cbn. rewrite app_nil_r. destruct cur as [q r]. cbn. do 2 f_equal; lia.
  - cbn [ring_side fst snd].
    assert (Add cur d = MkAxial (Q cur + Q d) (R cur + R d)) as ->.
    { apply Add_exact; split; lia. }
    rewrite (IH _ _ (B + 1)); [|split; cbn; lia|lia|lia].
    cbn [Q R]. f_equal; [f_equal; lia|].
    rewrite <- app_assoc. f_equal. cbn [seq fmap list_fmap app].
    f_equal; [destruct cur as [q r]; cbn; f_equal; lia|].
    rewrite <- fmap_S_seq, <- list_fmap_compose.
    apply list_fmap_ext. intros i t _. cbn. f_equal; lia.
Qed.

(** [Ring] away from the integer limits, side by side. *)
Lemma Ring_explicit c k :
  bounded (2 ^ 40) c → 1 <= k <= 2 ^ 40 → Ring c k = Some (ring_cells c k).
Proof.
  intros [Hq Hr] Hk. unfold Ring.
  destruct (Z.eqb_spec k 0) as [?|_]; [lia|].
  rewrite (mul_exact 6 k) by lia.
  destruct (Z.ltb_spec (6 * k) 0) as [?|_]; [lia|].
  cbn [Directions lookup list_lookup mbind option_bind].
  change (Directions !! 4%nat) with (Some (MkAxial (-1) 1)).
  cbn [mbind option_bind]. f_equal.
  unfold Mul. cbn [Q R]. rewrite (mul_exact (-1) k), (mul_exact 1 k) by lia.
  rewrite Add_exact by (split; cbn; lia). cbn [Q R].
  unfold ring_sides, Directions. cbn [foldl].
  assert (Z.of_nat (Z.to_nat k) = k) as Hkk by lia.
  rewrite (ring_side_exact _ _ _ _ (2 ^ 42)); [|split; cbn; lia..|lia|lia].
  cbn [Q R].
  rewrite (ring_side_exact _ _ _ _ (2 ^ 42)); [|split; cbn; lia..|lia|lia].
  cbn [Q R].
  rewrite (ring_side_exact _ _ _ _ (2 ^ 42)); [|split; cbn; lia..|lia|lia].
  cbn [Q R].
  rewrite (ring_side_exact _ _ _ _ (2 ^ 42)); [|split; cbn; lia..|lia|lia].
  cbn [Q R].
  rewrite (ring_side_exact _ _ _ _ (2 ^ 42)); [|split; cbn; lia..|lia|lia].
  cbn [Q R].
  rewrite (ring_side_exact _ _ _ _ (2 ^ 42)); [|split; cbn; lia..|lia|lia].
  cbn [Q R snd]. rewrite app_nil_l, <- !app_assoc.
  unfold ring_cells, ring_side_cells.
  do 5 (apply (f_equal2 app);
        [apply list_fmap_ext; intros i t _; unfold ring_cell; cbn; f_equal; lia|]).
  apply list_fmap_ext; intros i t _; unfold ring_cell; cbn; f_equal; lia.
Qed.

Lemma ring_cell_coords c k t :
  ring_cell c k 0 t = MkAxial (Q c - k + Z.of_nat t) (R c + k)
  ∧ ring_cell c k 1 t = MkAxial (Q c + Z.of_nat t) (R c + k - Z.of_nat t)
  ∧ ring_cell c k 2 t = MkAxial (Q c + k) (R c - Z.of_nat t)
  ∧ ring_cell c k 3 t = MkAxial (Q c + k - Z.of_nat t) (R c - k)
  ∧ ring_cell c k 4 t = MkAxial (Q c - Z.of_nat t) (R c - k + Z.of_nat t)
  ∧ ring_cell c k 5 t = MkAxial (Q c - k) (R c + Z.of_nat t).
Proof. unfold ring_cell. cbn. split_and!; f_equal; lia. Qed.

Lemma elem_of_ring_side c k side a :
  a ∈ ring_side_cells c k side
  ↔ ∃ t : nat, Z.of_nat t < k ∧ a = ring_cell c k side t.
Proof.
  unfold ring_side_cells. rewrite list_elem_of_fmap. split.
  - intros (t & -> & Ht%elem_of_seq). exists t. split; [lia|done].
  - intros (t & Ht & ->). exists t. split; [done|]. apply elem_of_seq. lia.
Qed.

Lemma elem_of_ring_cells c k a :
  a ∈ ring_cells c k
  ↔ ∃ side t : nat, (side < 6)%nat ∧ Z.of_nat t < k ∧ a = ring_cell c k side t.
Proof.
  unfold ring_cells. rewrite !elem_of_app, !elem_of_ring_side. split.
  - intros [H|[H|[H|[H|[H|H]]]]]; destruct H as (t & Ht & ->);
      [exists 0%nat|exists 1%nat|exists 2%nat|exists 3%nat|exists 4%nat|exists 5%nat];
      exists t; (split; [lia|done]).
  - intros (side & t & Hside & Ht & ->).
    do 6 (destruct side as [|side]; [eauto 10|]). lia.
Qed.

(** Reading a cell of the ring by coordinates. *)
Lemma ring_cells_by_coords c k x y :
  MkAxial x y ∈ ring_cells c k ↔
    (y - R c = k ∧ - k <= x - Q c <= -1)
    ∨ ((x - Q c) + (y - R c) = k ∧ 0 <= x - Q c <= k - 1)
    ∨ (x - Q c = k ∧ - (k - 1) <= y - R c <= 0)
    ∨ (y - R c = - k ∧ 1 <= x - Q c <= k)
    ∨ ((x - Q c) + (y - R c) = - k ∧ - (k - 1) <= x - Q c <= 0)
    ∨ (x - Q c = - k ∧ 0 <= y - R c <= k - 1).
Proof.
  unfold ring_cells. rewrite !elem_of_app, !elem_of_ring_side.
  pose proof (λ t, ring_cell_coords c k t) as Hc.
  split.
  - intros [H|[H|[H|[H|[H|H]]]]]; destruct H as (t & Ht & Heq);
      destruct (Hc t) as (H0 & H1 & H2 & H3 & H4 & H5);
      rewrite ?H0, ?H1, ?H2, ?H3, ?H4, ?H5 in Heq; injection Heq as -> ->; lia.
  - intros [H|[H|[H|[H|[H|H]]]]].
    + left. exists (Z.to_nat (x - Q c + k)).
      destruct (Hc (Z.to_nat (x - Q c + k))) as (-> & _).
      split; [lia|f_equal; lia].
    + right; left. exists (Z.to_nat (x - Q c)).
      destruct (Hc (Z.to_nat (x - Q c))) as (_ & -> & _).
      split; [lia|f_equal; lia].
    + do 2 right; left. exists (Z.to_nat (R c - y)).
      destruct (Hc (Z.to_nat (R c - y))) as (_ & _ & -> & _).
      split; [lia|f_equal; lia].
    + do 3 right; left. exists (Z.to_nat (Q c + k - x)).
      destruct (Hc (Z.to_nat (Q c + k - x))) as (_ & _ & _ & -> & _).
      split; [lia|f_equal; lia].
    + do 4 right; left. exists (Z.to_nat (Q c - x)).
      destruct (Hc (Z.to_nat (Q c - x))) as (_ & _ & _ & _ & -> & _).
      split; [lia|f_equal; lia].
    + do 5 right. exists (Z.to_nat (y - R c)).
      destruct (Hc (Z.to_nat (y - R c))) as (_ & _ & _ & _ & _ & ->).
      split; [lia|f_equal; lia].
Qed.

Lemma ring_cells_dist c k a : 1 <= k → a ∈ ring_cells c k ↔ dist c a = k.
Proof.
  intros Hk. destruct a as [x y]. rewrite ring_cells_by_coords.
  unfold dist. cbn [Q R].
  assert (Q c - x = - (x - Q c)) as -> by lia.
  assert (R c - y = - (y - R c)) as -> by lia.
  assert (Q c + R c - (x + y) = - ((x - Q c) + (y - R c))) as -> by lia.
  generalize (x - Q c) (y - R c). intros dx dy.
  rewrite !Z.abs_opp. split.
  - intros [H|[H|[H|[H|[H|H]]]]]; lia.
  - intros H.
    assert (Z.abs dx <= k ∧ Z.abs dy <= k ∧ Z.abs (dx + dy) <= k
            ∧ (Z.abs dx = k ∨ Z.abs dy = k ∨ Z.abs (dx + dy) = k))
      as (H1 & H2 & H3 & H4) by lia.
    clear H.
    destruct (Z.abs_spec dx) as [[? Hx]|[? Hx]],
             (Z.abs_spec dy) as [[? Hy]|[? Hy]],
             (Z.abs_spec (dx + dy)) as [[? Hz]|[? Hz]];
      rewrite Hx, Hy, Hz in *; clear Hx Hy Hz; lia.
Qed.

Lemma length_ring_cells c k : 0 <= k → Z.of_nat (length (ring_cells c k)) = 6 * k.
Proof.
  intros Hk. unfold ring_cells, ring_side_cells.
  rewrite !length_app, !length_fmap, !length_seq. lia.
Qed.

Lemma NoDup_ring_side c k side : (side < 6)%nat → NoDup (ring_side_cells c k side).
Proof.
  intros Hside. unfold ring_side_cells.
  apply NoDup_fmap_2_strong; [|apply NoDup_seq].
  intros t t' _ _ Heq.
  destruct (ring_cell_coords c k t) as (H0 & H1 & H2 & H3 & H4 & H5).
  destruct (ring_cell_coords c k t') as (H0' & H1' & H2' & H3' & H4' & H5').
  do 6 (destruct side as [|side];
        [rewrite ?H0, ?H1, ?H2, ?H3, ?H4, ?H5, ?H0', ?H1', ?H2', ?H3', ?H4', ?H5' in Heq;
         injection Heq; lia|]).
  lia.
Qed.

Lemma NoDup_ring_cells c k : 1 <= k → NoDup (ring_cells c k).
Proof.
  intros Hk. unfold ring_cells.
  repeat (apply NoDup_app; split_and!; [by apply NoDup_ring_side; lia| |]);
    [..|by apply NoDup_ring_side; lia].
  all: intros [x y] Hin; rewrite ?elem_of_app, !elem_of_ring_side;
    apply elem_of_ring_side in Hin as (t & Ht & Heq);
    destruct (ring_cell_coords c k t) as (H0 & H1 & H2 & H3 & H4 & H5);
    rewrite ?H0, ?H1, ?H2, ?H3, ?H4, ?H5 in Heq; injection Heq as -> ->;
    intros Hother;
    repeat (destruct Hother as [Hother|Hother]);
    destruct Hother as (t' & Ht' & Heq');
    destruct (ring_cell_coords c k t') as (H0' & H1' & H2' & H3' & H4' & H5');
    rewrite ?H0', ?H1', ?H2', ?H3', ?H4', ?H5' in Heq'; injection Heq'; lia.
Qed.

(** For a radius of at least 1, [Ring] returns the [6k] cells at distance
    exactly [k] from the centre, each once; for radius 0 it returns the
    centre alone, and a negative radius panics. *)
Theorem Ring_spec c k :
  bounded (2 ^ 40) c → - 2 ^ 40 <= k <= 2 ^ 40 →
  match Ring c k with
  | Some l =>
      0 <= k
      ∧ Z.of_nat (length l) = (if k =? 0 then 1 else 6 * k)
      ∧ NoDup l
      ∧ Forall (bounded (2 ^ 41)) l
      ∧ ∀ a, bounded (2 ^ 41) a → a ∈ l ↔ DistanceAxial c a = k
  | None => k < 0
  end.
Proof.
  intros Hc Hk. pose proof Hc as [Hq Hr].
  destruct (Z.lt_trichotomy k 0) as [Hneg|[->|Hpos]].
  - unfold Ring. destruct (Z.eqb_spec k 0) as [?|_]; [lia|].
    rewrite (mul_exact 6 k) by lia.
    destruct (Z.ltb_spec (6 * k) 0) as [_|?]; [done|lia].
  - cbn. split_and!; [done|done|apply NoDup_singleton|by repeat constructor; lia|].
    intros a Ha. rewrite list_elem_of_singleton.
    rewrite DistanceAxial_zero by (split; lia || (destruct Ha; lia)).
    split; congruence.
  - rewrite Ring_explicit by (done || lia).
    destruct (Z.eqb_spec k 0) as [?|_]; [lia|].
    assert (∀ a, a ∈ ring_cells c k → bounded (2 ^ 41) a) as Hbound.
    { intros [x y] Hin%ring_cells_by_coords. split; cbn; lia. }
    split_and!.
    + lia.
    + apply length_ring_cells. lia.
    + apply NoDup_ring_cells. lia.
    + by apply Forall_forall.
    + intros a Ha. rewrite DistanceAxial_exact;
        [|split; lia|destruct Ha; split; lia].
      apply ring_cells_dist. lia.
Qed.

End ring_facts.


(** ** Edges *)

Module edge_facts.
Import hex hex_geometry GoIntFacts gamemap_facts hex_facts ring_facts.

Lemma length_edge_idxs_gen c R ds (f : nat → Axial → Z * Axial) r :
  (∀ i a, (f i a).2 = a) →
  length (imap f r
            ≫= (λ ia, if DistanceAxial c (Add ia.2 ds) =? GoInt.add R 1
                      then [ia.1] else []))
  = length (filter (λ a, DistanceAxial c (Add a ds) = GoInt.add R 1) r).
Proof.
  revert f. induction r as [|a r IH]; intros f Hf; [done|].
  rewrite imap_cons, bind_cons, length_app, IH by (intros i b; apply Hf).
  rewrite Hf.
  destruct (Z.eqb_spec (DistanceAxial c (Add a ds)) (GoInt.add R 1)) as [Heq|Hne].
  - by rewrite filter_cons_True.
  - by rewrite filter_cons_False.
Qed.

Lemma length_edge_idxs c R ds r :
  length (edge_idxs c R ds r)
  = length (filter (λ a, DistanceAxial c (Add a ds) = GoInt.add R 1) r).
Proof. unfold edge_idxs. by apply length_edge_idxs_gen. Qed.

Lemma filter_all {A} (P : A → Prop) `{∀ x, Decision (P x)} (l : list A) :
  Forall P l → filter P l = l.
Proof.
  induction 1 as [|x l Hx _ IH]; [done|]. by rewrite filter_cons_True, IH.
Qed.

Lemma length_ring_side c k side : length (ring_side_cells c k side) = Z.to_nat k.
Proof. unfold ring_side_cells. by rewrite length_fmap, length_seq. Qed.

(** The cells of two whole sides of the ring have their neighbour in
    direction [side] outside the disc. *)
Lemma outward_sides c R side :
  bounded (2 ^ 40) c → 1 <= R <= 2 ^ 40 → (side < 6)%nat →
  Forall (λ a, DistanceAxial c (Add a (dir side)) = GoInt.add R 1)
         (ring_side_cells c R ((side + 1) mod 6))
  ∧ Forall (λ a, DistanceAxial c (Add a (dir side)) = GoInt.add R 1)
           (ring_side_cells c R ((side + 2) mod 6)).
Proof.
  intros [Hq Hr] HR Hside. rewrite (add_small R 1) by lia.
  split; apply Forall_forall; intros [x y] (t & Ht & Heq)%elem_of_ring_side;
    destruct (ring_cell_coords c R t) as (H0 & H1 & H2 & H3 & H4 & H5);
    do 6 (destruct side as [|side];
          [cbn in Heq;
           rewrite ?H0, ?H1, ?H2, ?H3, ?H4, ?H5 in Heq; injection Heq as -> ->;
           rewrite Add_exact by (split; cbn; lia);
           rewrite DistanceAxial_exact by (split; cbn; lia);
           unfold dist; cbn; lia|]);
    lia.
Qed.

Lemma edge_count c R side :
  bounded (2 ^ 40) c → 1 <= R <= 2 ^ 40 → (side < 6)%nat →
  (2 * Z.to_nat R
   ≤ length (edge_idxs c R (dir side) (ring_cells c R)))%nat.
Proof.
  intros Hc HR Hside. rewrite length_edge_idxs.
  destruct (outward_sides c R side Hc HR Hside) as [H1 H2].
  pose proof (f_equal length (filter_all _ _ H1)) as L1.
  pose proof (f_equal length (filter_all _ _ H2)) as L2.
  rewrite length_ring_side in L1, L2.
  unfold ring_cells. rewrite !filter_app, !length_app.
  do 6 (destruct side as [|side];
        [cbn [Nat.add Nat.modulo Nat.divmod Nat.sub fst snd] in L1, L2; lia|]).
  lia.
Qed.

Lemma ring_cells_lookup c k side i :
  (side < 6)%nat → (i < Z.to_nat k)%nat →
  ring_cells c k !! (side * Z.to_nat k + i)%nat = Some (ring_cell c k side i).
Proof.
  intros Hside Hi. unfold ring_cells.
  assert (∀ s, ring_side_cells c k s !! i = Some (ring_cell c k s i)) as Hblock.
  { intros s. unfold ring_side_cells.
    by rewrite list_lookup_fmap, lookup_seq_lt. }
  do 6 (destruct side as [|side];
        [repeat (rewrite lookup_app_r by (rewrite ?length_ring_side; lia);
                 rewrite length_ring_side);
         first [ rewrite lookup_app_l by (rewrite length_ring_side; lia) | idtac ];
         rewrite <- (Hblock _); f_equal; lia|]).
  lia.
Qed.

Lemma rem_exact a b : 0 <= a < b → GoInt.rem a b = Some a.
Proof.
  intros Hab. unfold GoInt.rem.
  destruct (Z.eqb_spec b 0) as [?|_]; [lia|]. by rewrite Z.rem_small.
Qed.

Lemma edge_fallback_ring c R side :
  1 <= R <= 2 ^ 40 → (side < 6)%nat →
  edge_fallback R (Z.of_nat side) (ring_cells c R)
  = Some (ring_side_cells c R side).
Proof.
  intros HR Hside. unfold edge_fallback.
  pose proof (length_ring_cells c R ltac:(lia)) as Hlen. rewrite Hlen.
  rewrite (mul_exact (Z.of_nat side) R) by nia.
  rewrite rem_exact by nia. cbn [mbind option_bind].
  apply mapM_Some_2. unfold ring_side_cells.
  apply Forall2_fmap_r, Forall_Forall2_diag, Forall_forall.
  intros i Hi%elem_of_seq.
  rewrite add_small by nia. rewrite rem_exact by nia. cbn [mbind option_bind].
  destruct (Z.ltb_spec (Z.of_nat side * R + Z.of_nat i) 0) as [?|_]; [nia|].
  replace (Z.to_nat (Z.of_nat side * R + Z.of_nat i))
    with (side * Z.to_nat R + i)%nat by nia.
  apply ring_cells_lookup; [done|lia].
Qed.

(** For a radius of at least 1 and a side in 0..5, [Edge] always takes its
    fallback: the criterion of its first loop selects at least [2R] cells,
    never [R].  It returns the [R] cells [Ring] appends while it walks
    side [side]; they lie on the ring, and the neighbour of each in
    direction [side] is again at distance [R], not outside the disc.  A
    side outside 0..5 panics, and a radius below 1 gives the centre. *)
Theorem Edge_spec c R side :
  bounded (2 ^ 40) c → R <= 2 ^ 40 →
  if decide (R <= 0) then Edge c R side = Some [c]
  else if decide (0 <= side < 6) then
    Edge c R side = Some (ring_side_cells c R (Z.to_nat side))
    ∧ Z.of_nat (length (ring_side_cells c R (Z.to_nat side))) = R
    ∧ Forall (λ a, DistanceAxial c a = R
                   ∧ DistanceAxial c (Add a (dir (Z.to_nat side))) = R)
             (ring_side_cells c R (Z.to_nat side))
  else Edge c R side = None.
Proof.
  intros Hc HR. pose proof Hc as [Hq Hr]. unfold Edge.
  destruct (decide (R <= 0)) as [Hle|Hpos].
  { by rewrite (proj2 (Z.leb_le R 0)). }
  rewrite (proj2 (Z.leb_gt R 0)) by lia.
  rewrite Ring_explicit by (done || lia). cbn [mbind option_bind].
  assert (ring_cells c R ≠ []) as Hne.
  { intros Hnil. pose proof (length_ring_cells c R ltac:(lia)) as Hlen.
    rewrite Hnil in Hlen. cbn in Hlen. lia. }
  unfold edge_dir. destruct (ring_cells c R) as [|a0 cells] eqn:Hcells; [done|].
  rewrite <- Hcells. clear Hne.
  destruct (decide (0 <= side < 6)) as [Hside|Hside].
  - destruct (Z.ltb_spec side 0) as [?|_]; [lia|].
    assert (Directions !! Z.to_nat side = Some (dir (Z.to_nat side))) as ->.
    { unfold dir. destruct (Directions !! Z.to_nat side) eqn:Hd; [done|].
      apply lookup_ge_None in Hd. cbn in Hd. lia. }
    cbn [mbind option_bind].
    pose proof (edge_count c R (Z.to_nat side) Hc ltac:(lia) ltac:(lia)) as Hcount.
    destruct (Z.eqb_spec
                (Z.of_nat (length (edge_idxs c R (dir (Z.to_nat side))
                                     (ring_cells c R)))) R) as [Heq|_]; [lia|].
    cbn [negb].
    pose proof (edge_fallback_ring c R (Z.to_nat side) ltac:(lia) ltac:(lia)) as Hfb.
    rewrite Z2Nat.id in Hfb by lia. rewrite Hfb.
    split_and!; [done|rewrite length_ring_side; lia|].
    apply Forall_forall. intros [x y] (t & Ht & Heq)%elem_of_ring_side.
    destruct (ring_cell_coords c R t) as (H0 & H1 & H2 & H3 & H4 & H5).
    assert (Z.to_nat side < 6)%nat as Hs by lia. revert Heq.
    generalize (Z.to_nat side) Hs. intros s Hs' Heq.
    do 6 (destruct s as [|s];
          [rewrite ?H0, ?H1, ?H2, ?H3, ?H4, ?H5 in Heq; injection Heq as -> ->;
           rewrite Add_exact by (split; cbn; lia);
           rewrite !DistanceAxial_exact by (split; cbn; lia);
           unfold dist; cbn; lia|]).
    lia.
  - destruct (Z.ltb_spec side 0) as [?|Hge]; [done|].
    destruct (Directions !! Z.to_nat side) eqn:Hd; [|done].
    apply lookup_lt_Some in Hd. cbn in Hd. lia.
Qed.

End edge_facts.

(** ** The disc of cells around a centre *)

Module disk_facts.
Import hex gamemap hex_geometry gamemap_facts hex_facts.

Lemma int_range_nil lo hi : hi < lo → int_range lo hi = [].
Proof.
  intros H. unfold int_range. by replace (Z.to_nat (hi - lo + 1)) with 0%nat by lia.
Qed.

Lemma int_range_cons lo hi : lo <= hi → int_range lo hi = lo :: int_range (lo + 1) hi.
Proof.
  intros H. unfold int_range.
  replace (Z.to_nat (hi - lo + 1)) with (S (Z.to_nat (hi - (lo + 1) + 1))) by lia.
  cbn [seq fmap list_fmap]. f_equal; [lia|].
  rewrite <- fmap_S_seq, <- list_fmap_compose.
  apply list_fmap_ext. intros _ i _. cbn. lia.
Qed.

Lemma int_range_app lo mid hi :
  lo <= mid → mid <= hi + 1 →
  int_range lo hi = int_range lo (mid - 1) ++ int_range mid hi.
Proof.
  intros H1 H2. remember (Z.to_nat (mid - lo)) as n eqn:Hn.
  revert lo H1 Hn. induction n as [|n IH]; intros lo H1 Hn.
  - replace mid with lo by lia. by rewrite (int_range_nil lo (lo - 1)) by lia.
  - rewrite (int_range_cons lo hi), (int_range_cons lo (mid - 1)) by lia.
    cbn [app]. f_equal. apply IH; lia.
Qed.

(** Sums of column lengths. *)
Lemma length_bind_sum {A B} (f : A → list B) (l : list A) :
  Z.of_nat (length (l ≫= f))
  = foldr (λ x acc, Z.of_nat (length (f x)) + acc) 0 l.
Proof.
  induction l as [|x l IH]; [done|].
  rewrite bind_cons, length_app. cbn [foldr]. lia.
Qed.

Lemma length_int_range lo hi :
  Z.of_nat (length (int_range lo hi)) = Z.max 0 (hi - lo + 1).
Proof. unfold int_range. rewrite length_fmap, length_seq. lia. Qed.

Lemma sum_affine (g : Z → Z) a b (n : nat) lo hi :
  hi = lo + Z.of_nat n - 1 →
  (∀ x, lo <= x <= hi → g x = a + b * x) →
  2 * foldr (λ x acc, g x + acc) 0 (int_range lo hi)
  = Z.of_nat n * (2 * a + b * (lo + hi)).
Proof.
  revert lo hi. induction n as [|n IH]; intros lo hi -> Hg.
  - rewrite int_range_nil by lia. cbn. lia.
  - rewrite int_range_cons by lia. cbn [foldr].
    rewrite Z.mul_add_distr_l, (IH (lo + 1) (lo + Z.of_nat (S n) - 1) ltac:(lia)).
    + rewrite Hg by lia. nia.
    + intros x Hx. apply Hg. lia.
Qed.

Lemma foldr_sum_app (g : Z → Z) l1 l2 :
  foldr (λ x acc, g x + acc) 0 (l1 ++ l2)
  = foldr (λ x acc, g x + acc) 0 l1 + foldr (λ x acc, g x + acc) 0 l2.
Proof. induction l1 as [|x l1 IH]; cbn; lia. Qed.

Lemma length_disk_coords r :
  0 <= r <= 2 ^ 30 →
  Z.of_nat (length (disk_coords r)) = 1 + 3 * r * (r + 1).
Proof.
  intros Hr. unfold disk_coords. rewrite length_bind_sum.
  rewrite neg_small by lia.
  set (g := λ q : Z, Z.of_nat (length (MkAxial q <$>
     int_range (maxInt (- r) (GoInt.sub (GoInt.neg q) r))
               (minInt r (GoInt.add (GoInt.neg q) r))))).
  change (foldr (λ x acc, g x + acc) 0 (int_range (- r) r) = 1 + 3 * r * (r + 1)).
  assert (∀ q, - r <= q <= r → g q = 2 * r + 1 - Z.abs q) as Hg.
  { intros q Hq. unfold g. rewrite length_fmap, length_int_range.
    unwrap. unfold maxInt, minInt.
    destruct (Z.ltb_spec (- q - r) (- r)), (Z.ltb_spec r (- q + r)); lia. }
  rewrite (int_range_app (- r) 0 r) by lia. rewrite foldr_sum_app.
  assert (2 * foldr (λ x acc, g x + acc) 0 (int_range (- r) (0 - 1))
          = Z.of_nat (Z.to_nat r) * (2 * (2 * r + 1) + 1 * (- r + (0 - 1)))) as H1.
  { apply sum_affine; [lia|]. intros x Hx. rewrite Hg by lia. lia. }
  assert (2 * foldr (λ x acc, g x + acc) 0 (int_range 0 r)
          = Z.of_nat (Z.to_nat (r + 1)) * (2 * (2 * r + 1) + (-1) * (0 + r))) as H2.
  { apply sum_affine; [lia|]. intros x Hx. rewrite Hg by lia. lia. }
  rewrite !Z2Nat.id in H1, H2 by lia. nia.
Qed.

Lemma disk_coords_negative r : r < 0 → - 2 ^ 61 < r → disk_coords r = [].
Proof.
  intros Hr Hlo. unfold disk_coords. rewrite neg_small by lia.
  by rewrite int_range_nil by lia.
Qed.

Lemma disk_coords_bounded r a :
  0 <= r < 2 ^ 61 → a ∈ disk_coords r → bounded r a.
Proof.
  intros Hr Ha. destruct a as [q r2].
  apply elem_of_disk_coords in Ha; [|done]. split; cbn; lia.
Qed.

Lemma Disk_size r :
  Z.abs r <= 2 ^ 30 →
  GoInt.add 1 (GoInt.mul (GoInt.mul 3 r) (GoInt.add r 1)) = 1 + 3 * r * (r + 1)
  ∧ 0 <= 1 + 3 * r * (r + 1).
Proof.
  intros Hr. rewrite (mul_exact 3 r), (add_small r 1) by lia.
  rewrite mul_exact by nia. rewrite add_small by nia. split; [done|nia].
Qed.

(** [Disk] visits the same offsets as the loops of the map generator and
    moves them to the centre, when the slice can be allocated. *)
Lemma Disk_cells c r :
  Z.abs r <= 2 ^ 30 → 1 + 3 * r * (r + 1) <= 2 ^ 44 →
  Disk c r = Some (Add c <$> disk_coords r).
Proof.
  intros Hr Hfits. unfold Disk. destruct (Disk_size r Hr) as [-> Hpos].
  unfold make_ok, maxAlloc.
  rewrite (proj2 (Z.leb_le 0 _)) by done.
  rewrite (proj2 (Z.leb_le (16 * _) (2 ^ 48))) by lia. cbn [andb negb].
  f_equal. unfold disk_coords.
  generalize (int_range (GoInt.neg r) r). intros l.
  induction l as [|q l IH]; [done|].
  rewrite !bind_cons, fmap_app, <- IH. f_equal.
  by rewrite <- list_fmap_compose.
Qed.

(** Beyond that size [make] panics. *)
Lemma Disk_panics c r :
  Z.abs r <= 2 ^ 30 → 2 ^ 44 < 1 + 3 * r * (r + 1) → Disk c r = None.
Proof.
  intros Hr Hbig. unfold Disk. destruct (Disk_size r Hr) as [-> Hpos].
  unfold make_ok, maxAlloc.
  rewrite (proj2 (Z.leb_gt (16 * _) (2 ^ 48))) by lia. by rewrite andb_false_r.
Qed.

Lemma disk_cells_exact c r y :
  bounded (2 ^ 40) c → 0 <= r <= 2 ^ 30 → y ∈ disk_coords r →
  Add c y = MkAxial (Q c + Q y) (R c + R y) ∧ bounded r y.
Proof.
  intros [Hq Hr] Hrad Hy. apply disk_coords_bounded in Hy as Hb; [|lia].
  split; [|done]. destruct Hb. apply Add_exact; split; lia.
Qed.

Lemma elem_of_disk_cells c r a :
  bounded (2 ^ 40) c → 0 <= r <= 2 ^ 30 → bounded (2 ^ 41) a →
  a ∈ Add c <$> disk_coords r ↔ DistanceAxial c a <= r.
Proof.
  intros Hc Hr [Haq Har]. pose proof Hc as [Hcq Hcr].
  rewrite DistanceAxial_exact by (split; lia).
  unfold dist. rewrite list_elem_of_fmap. split.
  - intros (y & -> & Hy). destruct (disk_cells_exact c r y Hc Hr Hy) as [-> _].
    destruct y as [q r2]. apply elem_of_disk_coords in Hy; [|lia].
    cbn. lia.
  - intros Hd. exists (MkAxial (Q a - Q c) (R a - R c)).
    assert (MkAxial (Q a - Q c) (R a - R c) ∈ disk_coords r) as Hy.
    { apply elem_of_disk_coords; lia. }
    split; [|done]. destruct (disk_cells_exact c r _ Hc Hr Hy) as [-> _].
    destruct a. cbn. f_equal; lia.
Qed.

Lemma disk_cells_bounded c r a :
  bounded (2 ^ 40) c → 0 <= r <= 2 ^ 30 → a ∈ Add c <$> disk_coords r →
  bounded (2 ^ 40 + 2 ^ 30) a.
Proof.
  intros Hc Hr (y & -> & Hy)%list_elem_of_fmap. pose proof Hc as [Hcq Hcr].
  destruct (disk_cells_exact c r y Hc Hr Hy) as [-> [? ?]]. split; cbn; lia.
Qed.

Lemma NoDup_disk_cells c r :
  bounded (2 ^ 40) c → 0 <= r <= 2 ^ 30 → NoDup (Add c <$> disk_coords r).
Proof.
  intros Hc Hr. apply NoDup_fmap_2_strong; [|apply NoDup_disk_coords].
  intros y1 y2 Hy1 Hy2 Heq.
  destruct (disk_cells_exact c r y1 Hc Hr Hy1) as [E1 _].
  destruct (disk_cells_exact c r y2 Hc Hr Hy2) as [E2 _].
  rewrite E1, E2 in Heq. destruct y1, y2. cbn in Heq.
  injection Heq as ? ?. f_equal; lia.
Qed.

(** For a radius of magnitude up to 2^30, [Disk] panics exactly when the
    [1 + 3r(r+1)] cells it allocates take more than [maxAlloc] bytes, that
    is when there are more than 2^44 of them.  Otherwise a negative
    radius gives the empty list, and a radius from 0 on gives, without
    repetition, exactly the cells within distance [r] of the centre,
    [1 + 3r(r+1)] of them. *)
Theorem Disk_spec c r :
  bounded (2 ^ 40) c → Z.abs r <= 2 ^ 30 →
  if decide (1 + 3 * r * (r + 1) <= 2 ^ 44) then
    ∃ l, Disk c r = Some l
      ∧ Z.of_nat (length l) = (if decide (r < 0) then 0 else 1 + 3 * r * (r + 1))
      ∧ NoDup l
      ∧ Forall (bounded (2 ^ 41)) l
      ∧ ∀ a, bounded (2 ^ 41) a → a ∈ l ↔ DistanceAxial c a <= r
  else Disk c r = None.
Proof.
  intros Hc Hr.
  destruct (decide (1 + 3 * r * (r + 1) <= 2 ^ 44)) as [Hfits|Hbig];
    [|apply Disk_panics; [done|lia]].
  exists (Add c <$> disk_coords r).
  split; [by apply Disk_cells|].
  destruct Hc as [Hcq Hcr].
  assert (∀ a, DistanceAxial c a < 0 → bounded (2 ^ 41) a → False) as Hpos.
  { intros a Hneg [? ?]. rewrite DistanceAxial_exact in Hneg by (split; lia).
    unfold dist in Hneg. lia. }
  destruct (decide (r < 0)) as [Hneg|Hnn].
  { rewrite disk_coords_negative by lia. cbn.
    split; [done|]. split; [constructor|]. split; [constructor|].
    intros a Ha. split; [by intros ?%elem_of_nil|].
    intros Hd. exfalso. apply (Hpos a); [lia|done]. }
  assert (bounded (2 ^ 40) c) as Hc by (split; lia).
  split; [|split; [|split]].
  - rewrite length_fmap. apply length_disk_coords. lia.
  - apply NoDup_disk_cells; [done|lia].
  - apply Forall_forall. intros a Ha.
    destruct (disk_cells_bounded c r a Hc ltac:(lia) Ha). split; lia.
  - intros a Ha. apply elem_of_disk_cells; [done|lia|done].
Qed.
End disk_facts.

(** ** The generated map and the world positions of its chunks *)

Module map_facts.
Import hex gamemap gamemap_facts hex_geometry hex_facts disk_facts.

Lemma New_map n :
  New n = inr (MkGameMap (insert_all NewHexChunk ∅ (disk_coords n)) n).
Proof.
  unfold New. pose proof (generateChunks_chunks (MkGameMap ∅ n)) as Hch.
  unfold generateChunks in *. cbn [fst Chunks ChunkRadius] in *.
  by rewrite Hch.
Qed.

(** [New] never returns an error.  The map of chunk radius [n] holds a
    chunk at exactly the grid positions of the hexagonal disc of radius
    [n] around the origin, [1 + 3n(n+1)] chunks in all, each the freshly
    generated chunk of its own position; a negative radius gives a map
    without chunks. *)
Theorem New_spec n :
  Z.abs n <= 2 ^ 30 →
  ∃ gm, New n = inr gm
    ∧ ChunkRadius gm = n
    ∧ Z.of_nat (size (Chunks gm))
      = (if decide (n < 0) then 0 else 1 + 3 * n * (n + 1))
    ∧ ∀ p, GetChunk gm p
           = if decide (Z.abs (Q p) <= n ∧ Z.abs (R p) <= n
                        ∧ Z.abs (Q p + R p) <= n)
             then Some (NewHexChunk p) else None.
Proof.
  intros Hn. eexists. split; [apply New_map|]. cbn [ChunkRadius Chunks].
  split; [done|]. split.
  - rewrite insert_all_size, map_size_empty; first last.
    { intros k _. apply lookup_empty. }
    { apply NoDup_disk_coords. }
    destruct (decide (n < 0)) as [Hneg|Hpos].
    + by rewrite disk_coords_negative by lia.
    + rewrite Nat.add_0_l. apply length_disk_coords. lia.
  - intros [q r]. unfold GetChunk. cbn [Chunks Q R].
    rewrite insert_all_lookup, lookup_empty.
    destruct (decide (n < 0)) as [Hneg|Hpos].
    + rewrite disk_coords_negative by lia.
      rewrite decide_False by apply not_elem_of_nil.
      rewrite decide_False by lia. done.
    + destruct (decide (MkAxial q r ∈ disk_coords n)) as [Hin|Hout].
      * apply elem_of_disk_coords in Hin; [|lia].
        by rewrite decide_True by lia.
      * rewrite decide_False; [done|]. intros Hd. apply Hout.
        apply elem_of_disk_coords; lia.
Qed.

(** The cells of a chunk at grid position [p] carry the world positions
    within distance 9 of the point [9 * p], each once, and all are
    plains. *)
Theorem NewHexChunk_world_positions p :
  bounded (2 ^ 40) p →
  let c := NewHexChunk p in
  let centre := MkAxial (9 * Q p) (9 * R p) in
  (∀ l h, HexChunk_GetHex c l = Some h →
     Terrain h = "plains"
     ∧ WorldPos h = MkAxial (9 * Q p + Q l) (9 * R p + R l))
  ∧ (∀ l1 l2 h1 h2,
       HexChunk_GetHex c l1 = Some h1 → HexChunk_GetHex c l2 = Some h2 →
       WorldPos h1 = WorldPos h2 → l1 = l2)
  ∧ (∀ w, bounded (2 ^ 50) w →
       (∃ l h, HexChunk_GetHex c l = Some h ∧ WorldPos h = w)
       ↔ DistanceAxial centre w <= 9).
Proof.
  intros [Hq Hr] c centre.
  assert (c = NewHexChunk p) as Hc by reflexivity. clearbody c.
  assert (∀ l h, HexChunk_GetHex c l = Some h →
            (Z.abs (Q l) <= 9 ∧ Z.abs (R l) <= 9 ∧ Z.abs (Q l + R l) <= 9)
            ∧ h = MkHex (MkAxial (9 * Q p + Q l) (9 * R p + R l)) "plains")
    as Hcell.
  { intros [lq lr] h. rewrite Hc. unfold HexChunk_GetHex. rewrite NewHexChunk_lookup.
    case_bool_decide as Hd; [|done]. intros [= <-]. cbn [Q R].
    split; [lia|]. unfold hex_at. cbn [Q R].
    rewrite !(mul_exact _ 9) by lia. rewrite !add_small by lia.
    do 2 f_equal; lia. }
  split; [|split].
  - intros l h Hl. destruct (Hcell _ _ Hl) as [_ ->]. split; reflexivity.
  - intros l1 l2 h1 h2 H1 H2.
    destruct (Hcell _ _ H1) as [_ ->], (Hcell _ _ H2) as [_ ->]. cbn.
    destruct l1, l2. cbn. intros [= ? ?]. f_equal; lia.
  - intros w [Hwq Hwr]. rewrite DistanceAxial_exact by (split; cbn; lia).
    unfold dist, centre. cbn [Q R]. split.
    + intros (l & h & Hl & <-). destruct (Hcell _ _ Hl) as [Hd ->]. cbn. lia.
    + intros Hd. exists (MkAxial (Q w - 9 * Q p) (R w - 9 * R p)).
      eexists. split.
      * rewrite Hc. unfold HexChunk_GetHex. rewrite NewHexChunk_lookup.
        rewrite bool_decide_eq_true_2 by lia. reflexivity.
      * unfold hex_at. cbn [WorldPos Q R].
        rewrite !(mul_exact _ 9) by lia. rewrite !add_small by lia.
        destruct w. cbn. f_equal; lia.
Qed.
End map_facts.

(** ** Chunk centres and the edges between chunks *)

Module chunk_facts.
Import hex chunk gamemap_facts hex_geometry chunk_geometry hex_facts ring_facts edge_facts.

Lemma index_Directions s :
  0 <= s < 6 → index Directions s = Some (dir (Z.to_nat s)).
Proof.
  intros Hs. unfold index. destruct (Z.ltb_spec s 0) as [?|_]; [lia|].
  unfold dir. destruct (Directions !! Z.to_nat s) eqn:Hd; [done|].
  apply lookup_ge_None in Hd. cbn in Hd. lia.
Qed.

Lemma index_Directions_None s : ¬ 0 <= s < 6 → index Directions s = None.
Proof.
  intros Hs. unfold index. destruct (Z.ltb_spec s 0) as [?|?]; [done|].
  apply lookup_ge_None. cbn. lia.
Qed.

Lemma NeighborChunkCenter_neighbour c k s :
  bounded (2 ^ 48) c → Z.abs k <= 2 ^ 40 → (s < 6)%nat →
  NeighborChunkCenter c k (Z.of_nat s) = Some (neighbour c k s).
Proof.
  intros [Hq Hr] Hk Hs. unfold NeighborChunkCenter.
  rewrite index_Directions by lia. cbn [mbind option_bind].
  rewrite add_small by lia. unfold GoInt.rem. cbn [Z.eqb mbind option_bind].
  rewrite index_Directions by (pose proof (Z.rem_bound_pos (Z.of_nat s + 5) 6); lia).
  cbn [mbind option_bind]. rewrite Nat2Z.id. f_equal.
  assert (Z.to_nat (Z.rem (Z.of_nat s + 5) 6) = (s + 5) mod 6)%nat as ->.
  { rewrite Z.rem_mod_nonneg by lia. rewrite Z2Nat.inj_mod by lia. f_equal. lia. }
  pose proof (dir_bounded s) as [? ?].
  pose proof (dir_bounded ((s + 5) mod 6)) as [? ?].
  rewrite !add_small by lia. unfold Mul. cbn [Q R].
  set (x := Q (dir s) + Q (dir ((s + 5) mod 6))).
  set (y := R (dir s) + R (dir ((s + 5) mod 6))).
  assert (Z.abs (x * k) <= 2 ^ 41 ∧ Z.abs (y * k) <= 2 ^ 41) as [Hx Hy].
  { rewrite !Z.abs_mul. split; apply (Z.mul_le_mono_nonneg _ 2 _ (2 ^ 40)); lia. }
  rewrite !mul_exact by lia.
  rewrite Add_exact by (split; cbn [Q R]; lia). reflexivity.
Qed.

Lemma neighbour_coords c k :
  neighbour c k 0 = MkAxial (Q c + k) (R c + k)
  ∧ neighbour c k 1 = MkAxial (Q c + 2 * k) (R c - k)
  ∧ neighbour c k 2 = MkAxial (Q c + k) (R c - 2 * k)
  ∧ neighbour c k 3 = MkAxial (Q c - k) (R c - k)
  ∧ neighbour c k 4 = MkAxial (Q c - 2 * k) (R c + k)
  ∧ neighbour c k 5 = MkAxial (Q c - k) (R c + 2 * k).
Proof. unfold neighbour. cbn. split_and!; f_equal; lia. Qed.

(** [NeighborChunkCenter] panics exactly for a side outside 0..5.  The
    neighbouring centre lies at distance [2 * |radius|]; stepping back
    from it on the opposite side returns to the centre; and for a radius
    other than 0 the six sides lead to six different centres. *)
Theorem NeighborChunkCenter_spec c k s :
  bounded (2 ^ 40) c → Z.abs k <= 2 ^ 40 →
  if decide (0 <= s < 6) then
    ∃ n, NeighborChunkCenter c k s = Some n
      ∧ DistanceAxial c n = 2 * Z.abs k
      ∧ NeighborChunkCenter n k ((s + 3) mod 6) = Some c
      ∧ ∀ s', 0 <= s' < 6 → k ≠ 0 → NeighborChunkCenter c k s' = Some n → s' = s
  else NeighborChunkCenter c k s = None.
Proof.
  intros Hc Hk. pose proof Hc as [Hq Hr].
  destruct (decide (0 <= s < 6)) as [Hs|Hs]; first last.
  { unfold NeighborChunkCenter. by rewrite index_Directions_None. }
  assert (bounded (2 ^ 48) c) as Hc' by (split; lia).
  assert (∃ i, (i < 6)%nat ∧ s = Z.of_nat i) as (i & Hi & ->).
  { exists (Z.to_nat s). lia. }
  destruct (neighbour_coords c k) as (N0 & N1 & N2 & N3 & N4 & N5).
  assert (bounded (2 ^ 48) (neighbour c k i)) as Hb.
  { do 6 (destruct i as [|i];
          [rewrite ?N0, ?N1, ?N2, ?N3, ?N4, ?N5; split; cbn [Q R]; lia|]). lia. }
  exists (neighbour c k i).
  split; [by apply NeighborChunkCenter_neighbour|]. split; [|split].
  - rewrite DistanceAxial_exact by (destruct Hb; split; lia).
    unfold dist.
    do 6 (destruct i as [|i];
          [rewrite ?N0, ?N1, ?N2, ?N3, ?N4, ?N5; cbn [Q R]; lia|]). lia.
  - destruct (neighbour_coords (neighbour c k i) k)
      as (M0 & M1 & M2 & M3 & M4 & M5).
    destruct c as [cq cr]. cbn [Q R] in *.
    do 6 (destruct i as [|i];
          [match goal with
           | |- context [(Z.of_nat ?i + 3) mod 6] =>
               let v := eval vm_compute in (Z.to_nat ((Z.of_nat i + 3) mod 6)) in
               change ((Z.of_nat i + 3) mod 6) with (Z.of_nat v)
           end;
           rewrite NeighborChunkCenter_neighbour by (done || lia);
           rewrite ?M0, ?M1, ?M2, ?M3, ?M4, ?M5;
           rewrite ?N0, ?N1, ?N2, ?N3, ?N4, ?N5; cbn [Q R]; do 2 f_equal; lia|]).
    lia.
  - intros s' Hs' Hk0.
    assert (∃ j, (j < 6)%nat ∧ s' = Z.of_nat j) as (j & Hj & ->).
    { exists (Z.to_nat s'). lia. }
    rewrite NeighborChunkCenter_neighbour by done. intros Hsome.
    assert (neighbour c k j = neighbour c k i) as Heq by congruence.
    clear Hsome. f_equal.
    destruct c as [cq cr]. cbn [Q R] in *.
    do 6 (destruct i as [|i];
          [do 6 (destruct j as [|j];
                 [first [reflexivity
                        |exfalso; revert Heq;
                         rewrite ?N0, ?N1, ?N2, ?N3, ?N4, ?N5; intros Heq; injection Heq; lia]|]);
           lia|]).
    lia.
Qed.

(** For a positive radius and a valid side, [Edge] gives the segment of
    the ring built on its [side]-th traversal. *)
Lemma Edge_ring_side c k side :
  bounded (2 ^ 40) c → 1 <= k <= 2 ^ 40 → (side < 6)%nat →
  Edge c k (Z.of_nat side) = Some (ring_side_cells c k side).
Proof.
  intros Hc Hk Hside. unfold Edge.
  rewrite (proj2 (Z.leb_gt k 0)) by lia.
  rewrite Ring_explicit by (done || lia). cbn [mbind option_bind].
  assert (ring_cells c k ≠ []) as Hne.
  { intros Hnil. pose proof (length_ring_cells c k ltac:(lia)) as Hlen.
    rewrite Hnil in Hlen. cbn in Hlen. lia. }
  unfold edge_dir. destruct (ring_cells c k) as [|a0 cells] eqn:Hcells; [done|].
  rewrite <- Hcells. clear Hne.
  destruct (Z.ltb_spec (Z.of_nat side) 0) as [?|_]; [lia|].
  rewrite Nat2Z.id.
  assert (Directions !! side = Some (dir side)) as ->.
  { unfold dir. destruct (Directions !! side) eqn:Hd; [done|].
    apply lookup_ge_None in Hd. cbn in Hd. lia. }
  cbn [mbind option_bind].
  pose proof (edge_count c k side Hc Hk Hside) as Hcount.
  destruct (Z.eqb_spec
              (Z.of_nat (length (edge_idxs c k (dir side) (ring_cells c k)))) k)
    as [Heq|_]; [lia|].
  cbn [negb]. by apply edge_fallback_ring.
Qed.

(** The cells [Edge] returns for side [s] do not touch the neighbouring
    chunk that [NeighborChunkCenter] places on side [s]: they are farther
    than the radius from its centre.  The cells on the common border with
    that neighbour are those of side [s+1]. *)
Theorem Edge_faces_next_neighbour c k s :
  bounded (2 ^ 40) c → 1 <= k <= 2 ^ 40 → 0 <= s < 6 →
  ∃ n e e',
    NeighborChunkCenter c k s = Some n
    ∧ Edge c k s = Some e
    ∧ Edge c k ((s + 1) mod 6) = Some e'
    ∧ Forall (λ a, DistanceAxial c a = k ∧ k < DistanceAxial n a) e
    ∧ Forall (λ a, DistanceAxial c a = k ∧ DistanceAxial n a = k) e'.
Proof.
  intros Hc Hk Hs. pose proof Hc as [Hq Hr].
  assert (∃ i, (i < 6)%nat ∧ s = Z.of_nat i) as (i & Hi & ->).
  { exists (Z.to_nat s). lia. }
  assert ((Z.of_nat i + 1) mod 6 = Z.of_nat ((i + 1) mod 6)) as ->.
  { rewrite Nat2Z.inj_mod. f_equal. lia. }
  exists (neighbour c k i), (ring_side_cells c k i),
         (ring_side_cells c k ((i + 1) mod 6)).
  split; [apply NeighborChunkCenter_neighbour; [split; lia|lia|done]|].
  split; [by apply Edge_ring_side|].
  split; [apply Edge_ring_side; [done|done|by apply Nat.mod_upper_bound]|].
  destruct (neighbour_coords c k) as (N0 & N1 & N2 & N3 & N4 & N5).
  split.
  - apply Forall_forall. intros [x y] (t & Ht & Heq)%elem_of_ring_side.
    destruct (ring_cell_coords c k t) as (H0 & H1 & H2 & H3 & H4 & H5).
    do 6 (destruct i as [|i];
          [rewrite ?H0, ?H1, ?H2, ?H3, ?H4, ?H5 in Heq; injection Heq as -> ->;
           rewrite ?N0, ?N1, ?N2, ?N3, ?N4, ?N5;
           rewrite !DistanceAxial_exact by (split; cbn [Q R]; lia);
           unfold dist; cbn [Q R]; lia|]).
    lia.
  - apply Forall_forall. intros [x y] (t & Ht & Heq)%elem_of_ring_side.
    destruct (ring_cell_coords c k t) as (H0 & H1 & H2 & H3 & H4 & H5).
    do 6 (destruct i as [|i];
          [cbn [Nat.add Nat.modulo Nat.divmod Nat.sub fst snd] in Heq;
           rewrite ?H0, ?H1, ?H2, ?H3, ?H4, ?H5 in Heq; injection Heq as -> ->;
           rewrite ?N0, ?N1, ?N2, ?N3, ?N4, ?N5;
           rewrite !DistanceAxial_exact by (split; cbn [Q R]; lia);
           unfold dist; cbn [Q R]; lia|]).
    lia.
Qed.
End chunk_facts.

(** ** Boundary spurs *)

Module spur_facts.
Import hex chunk gamemap_facts hex_geometry chunk_geometry hex_facts ring_facts edge_facts chunk_facts.

Section loops.
Context {A B : Type} (body : B → A → option B).
Context (I : B → Prop) (le : B → B → Prop) `{!PreOrder le}.
Context (Post : A → B → Prop) (P : A → Prop).
Hypothesis Post_mono : ∀ x st st', le st st' → Post x st → Post x st'.
Hypothesis body_ok :
  ∀ st x, P x → I st →
    ∃ st', body st x = Some st' ∧ I st' ∧ le st st' ∧ Post x st'.

Lemma for_each_grow l st :
  Forall P l → I st →
  ∃ st', for_each body st l = Some st' ∧ I st' ∧ le st st'
         ∧ Forall (λ x, Post x st') l.
Proof.
  intros Hl. revert st. induction Hl as [|x l Hx Hl IH]; intros st Hst.
  - exists st. by repeat split.
  - destruct (body_ok st x Hx Hst) as (st1 & Hb & H1 & Hle1 & Hp1).
    destruct (IH st1 H1) as (st2 & Hf & H2 & Hle2 & Hp2).
    exists st2. cbn [for_each]. rewrite Hb. cbn [mbind option_bind].
    split; [done|]. split; [done|]. split; [by etrans|].
    constructor; [by eapply Post_mono|done].
Qed.
End loops.

(** [ChunkOf] returns the first centre of the plan within distance [R] of
    the cell, and reports failure exactly when there is none. *)
Theorem ChunkOf_spec a plan R :
  match ChunkOf a plan R with
  | (c, true) =>
      ∃ pre post, plan = pre ++ c :: post
        ∧ DistanceAxial c a <= R
        ∧ Forall (λ c', R < DistanceAxial c' a) pre
  | (c, false) =>
      c = MkAxial 0 0 ∧ Forall (λ c', R < DistanceAxial c' a) plan
  end.
Proof.
  induction plan as [|c plan IH]; [by split|].
  cbn [ChunkOf]. destruct (Z.leb_spec (DistanceAxial c a) R) as [Hle|Hgt].
  - exists [], plan. by repeat split.
  - destruct (ChunkOf a plan R) as [c' [|]].
    + destruct IH as (pre & post & -> & Hd & Hpre).
      exists (c :: pre), post. split; [done|]. split; [done|].
      by constructor.
    + destruct IH as [-> Hall]. split; [done|]. by constructor.
Qed.

Lemma count_lt {X} (P : X → Prop) `{∀ x, Decision (P x)} (l : list X) :
  (length (filter P l) < length l)%nat ↔ ∃ x, x ∈ l ∧ ¬ P x.
Proof.
  induction l as [|x l IH].
  - cbn. split; [lia|]. by intros (x & ?%elem_of_nil & _).
  - pose proof (length_filter P l) as Hle.
    destruct (decide (P x)) as [Hx|Hx].
    + rewrite filter_cons_True by done. cbn [length]. rewrite <- Nat.succ_lt_mono, IH.
      split.
      * intros (y & Hy & Hny). exists y. split; [by right|done].
      * intros (y & [->|Hy]%elem_of_cons & Hny); [done|]. by exists y.
    + rewrite filter_cons_False by done. cbn [length]. split; [|lia].
      intros _. exists x. split; [by left|done].
Qed.

Lemma Edge_total c k s :
  bounded (2 ^ 40) c → k <= 2 ^ 40 → 0 <= s < 6 → is_Some (Edge c k s).
Proof.
  intros Hc Hk Hs. destruct (decide (k <= 0)) as [Hle|Hpos].
  - unfold Edge. rewrite (proj2 (Z.leb_le k 0)) by done. eauto.
  - rewrite <- (Z2Nat.id s) by lia. rewrite Edge_ring_side by (done || lia). eauto.
Qed.

Lemma NeighborChunkCenter_total c k s :
  0 <= s < 6 → is_Some (NeighborChunkCenter c k s).
Proof.
  intros Hs. unfold NeighborChunkCenter.
  rewrite index_Directions by done. cbn [mbind option_bind].
  unfold GoInt.rem. cbn [Z.eqb mbind option_bind].
  assert (0 <= GoInt.add s 5 < 2 ^ 62) as Hadd by (rewrite add_small by lia; lia).
  rewrite index_Directions by (pose proof (Z.rem_bound_pos (GoInt.add s 5) 6); lia).
  cbn [mbind option_bind]. eauto.
Qed.

Section spurs.
Context (plan : list Axial) (k : Z) (u : gmap Axial Z).

#[local] Instance grows_preorder : PreOrder spur_grows.
Proof.
  split; [intros x; unfold spur_grows; set_solver|].
  intros x y z Hxy Hyz. unfold spur_grows in *. set_solver.
Qed.

Lemma choose_dir_spec a s :
  0 <= s < 6 →
  ∃ chosen, choose_dir (present_of u) a s = Some chosen
    ∧ (0 <= chosen →
         ∃ d, index Directions chosen = Some d ∧ Add a d ∉ dom u)
    ∧ ((∃ d, d ∈ Directions ∧ Add a d ∉ dom u) → 0 <= chosen).
Proof.
  intros Hs. unfold choose_dir, present_of.
  rewrite index_Directions by done. cbn [mbind option_bind].
  destruct (decide (Add a (dir (Z.to_nat s)) ∈ dom u)) as [Hin|Hout].
  - destruct (list_find (λ d, Add a d ∉ dom u) Directions) as [[i d]|] eqn:Hfind.
    + apply list_find_Some in Hfind as (Hi & Hd & _).
      eexists. split; [done|]. split; [|lia]. intros _. exists d. split; [|done].
      unfold index. destruct (Z.ltb_spec (Z.of_nat i) 0); [lia|].
      by rewrite Nat2Z.id.
    + eexists. split; [done|]. split; [lia|].
      intros (d & Hd & Habs). exfalso.
      apply list_find_None in Hfind.
      rewrite Forall_forall in Hfind. by apply (Hfind d Hd).
  - eexists. split; [done|]. split; [|lia]. intros _.
    exists (dir (Z.to_nat s)). split; [by apply index_Directions|done].
Qed.

Lemma spur_at_step s a st :
  0 <= s < 6 → on_open_edge plan k a → (spur_inv u plan k) st →
  ∃ st', spur_at u s st a = Some st' ∧ (spur_inv u plan k) st' ∧ spur_grows st st'
         ∧ (frontier u a → a ∈ st'.1).
Proof.
  intros Hs Hedge Hinv.
  assert (¬ frontier u a ∨ a ∈ st.1 →
          ∃ st', Some st = Some st' ∧ (spur_inv u plan k) st' ∧ spur_grows st st'
                 ∧ (frontier u a → a ∈ st'.1)) as Hkeep.
  { intros Hcase. exists st. split; [done|]. split; [done|].
    split; [reflexivity|]. intros Hf. by destruct Hcase. }
  destruct Hinv as (Hdedup & Hnd & Hok). unfold spur_at.
  destruct (u !! a) as [v|] eqn:Hua; first last.
  { apply Hkeep. left. intros [? _]. congruence. }
  destruct (Z.eqb_spec v Space) as [->|Hv]; cbn [negb]; first last.
  { apply Hkeep. left. intros [? _]. congruence. }
  destruct (Z.leb_spec 6 (neighborPresentCount (present_of u) a)) as [Hfull|Hfew].
  { apply Hkeep. left. intros [_ Hmiss].
    pose proof (proj2 (count_lt (λ d, Add a d ∈ present_of u) Directions)) as Hlt.
    unfold neighborPresentCount in Hfull.
    assert (length Directions = 6%nat) as Hlen by reflexivity.
    rewrite Hlen in Hlt. specialize (Hlt Hmiss). lia. }
  destruct (decide (a ∈ st.1)) as [Hseen|Hnew].
  { apply Hkeep. by right. }
  clear Hkeep.
  destruct (choose_dir_spec a s Hs) as (chosen & -> & Hsound & Hcompl).
  cbn [mbind option_bind].
  assert (∃ d, d ∈ Directions ∧ Add a d ∉ dom u) as Hmiss.
  { apply (count_lt (λ d, Add a d ∈ present_of u)).
    unfold neighborPresentCount in Hfew.
    assert (length Directions = 6%nat) as Hlen by reflexivity. lia. }
  destruct (Z.leb_spec 0 chosen) as [Hpos|Hneg]; [|specialize (Hcompl Hmiss); lia].
  eexists. split; [done|]. cbn [fst snd]. split; [|split].
  - unfold spur_inv. cbn [fst snd]. split; [|split].
    + intros b. rewrite fmap_app, elem_of_app, elem_of_union, elem_of_singleton.
      cbn. rewrite list_elem_of_singleton. rewrite Hdedup. tauto.
    + rewrite fmap_app. cbn. apply NoDup_app. split; [done|].
      split; [|apply NoDup_singleton].
      intros b Hb ->%list_elem_of_singleton. apply Hnew. by apply Hdedup.
    + apply Forall_app. split; [done|]. constructor; [|constructor].
      split; [done|]. split; [by apply Hsound|done].
  - unfold spur_grows. cbn [fst]. apply union_subseteq_r.
  - intros _. by apply elem_of_union_l, elem_of_singleton.
Qed.

Lemma spur_side_step c s st :
  c ∈ plan → bounded (2 ^ 40) c → k <= 2 ^ 40 → 0 <= s < 6 → (spur_inv u plan k) st →
  ∃ st', spur_side (list_to_set plan) k u c st s = Some st' ∧ (spur_inv u plan k) st'
         ∧ spur_grows st st' ∧ edge_done u plan k c s st'.
Proof.
  intros Hc Hb Hk Hs Hinv. unfold spur_side.
  destruct (NeighborChunkCenter_total c k s Hs) as [nb Hnb].
  rewrite Hnb. cbn [mbind option_bind].
  destruct (decide (nb ∈ (list_to_set plan : gset Axial))) as [Hin|Hout].
  { exists st. split; [done|]. split; [done|]. split; [reflexivity|].
    intros nb' e a Hnb' Hopen. exfalso. apply Hopen.
    apply elem_of_list_to_set in Hin. congruence. }
  rewrite elem_of_list_to_set in Hout.
  destruct (Edge_total c k s Hb Hk Hs) as [e He].
  rewrite He. cbn [mbind option_bind].
  destruct (for_each_grow (spur_at u s) (spur_inv u plan k) spur_grows
              (λ a st, frontier u a → a ∈ st.1) (on_open_edge plan k))
    with (l := e) (st := st) as (st' & Hfor & Hinv' & Hle & Hpost).
  - intros a st1 st2 Hle H1 Hf. apply Hle. by apply H1.
  - intros st1 a Ha H1. by apply spur_at_step.
  - apply Forall_forall. intros a Ha. exists c, s, e.
    split; [|done]. split; [done|]. split; [done|]. by exists nb.
  - done.
  - exists st'. split; [done|]. split; [done|]. split; [done|].
    intros nb' e' a _ _ He' Ha. rewrite Forall_forall in Hpost.
    apply Hpost. congruence.
Qed.

(** [ComputeBoundarySpurs] never panics.  Its spurs start at distinct
    cells; these are exactly the Space cells on the edges of open sides
    that miss a neighbour in the union; and every spur points to a cell
    that is missing from the union. *)
Theorem ComputeBoundarySpurs_spec :
  Forall (bounded (2 ^ 40)) plan → k <= 2 ^ 40 →
  ∃ spurs, ComputeBoundarySpurs plan k u = Some spurs
    ∧ NoDup (Origin <$> spurs)
    ∧ Forall (spur_ok u plan k) spurs
    ∧ ∀ a, on_open_edge plan k a → frontier u a → a ∈ Origin <$> spurs.
Proof.
  intros Hplan Hk. unfold ComputeBoundarySpurs.
  destruct (for_each_grow
              (λ st c, for_each (spur_side (list_to_set plan) k u c) st
                                (gamemap.int_range 0 5))
              (spur_inv u plan k) spur_grows (λ c st, ∀ s, 0 <= s < 6 → edge_done u plan k c s st)
              (λ c, c ∈ plan ∧ bounded (2 ^ 40) c))
    with (l := plan) (st := ((∅, []) : gset Axial * list Spur))
    as (st' & Hfor & Hinv' & _ & Hpost).
  - intros c st1 st2 Hle H1 s Hs nb e a Hnb Hopen He Ha Hf.
    apply Hle. by eapply H1.
  - intros st c [Hc Hb] Hinv.
    destruct (for_each_grow (spur_side (list_to_set plan) k u c) (spur_inv u plan k) spur_grows
                (edge_done u plan k c) (λ s, 0 <= s < 6))
      with (l := gamemap.int_range 0 5) (st := st)
      as (st' & Hfor & Hinv' & Hle & Hpost).
    + intros s st1 st2 Hle H1 nb e a Hnb Hopen He Ha Hf.
      apply Hle. by eapply H1.
    + intros st1 s Hs H1. by apply spur_side_step.
    + apply Forall_forall. intros s Hs. apply elem_of_int_range in Hs. lia.
    + done.
    + exists st'. split; [done|]. split; [done|]. split; [done|].
      intros s Hs. rewrite Forall_forall in Hpost. apply Hpost.
      apply elem_of_int_range. lia.
  - apply Forall_forall. intros c Hc. split; [done|].
    rewrite Forall_forall in Hplan. by apply Hplan.
  - split; [|split; constructor]. intros a. cbn [fst snd fmap list_fmap].
    split; [by intros ?%elem_of_empty|by intros ?%elem_of_nil].
  - rewrite Hfor. cbn [mbind option_bind]. exists st'.2.
    destruct Hinv' as (Hdedup & Hnd & Hok).
    split; [done|]. split; [done|]. split; [done|].
    intros a (c & s & e & (Hc & Hs & nb & Hnb & Hopen) & He & Ha) Hf.
    apply Hdedup. rewrite Forall_forall in Hpost.
    by eapply (Hpost c Hc s Hs nb e a).
Qed.
End spurs.
End spur_facts.

(** ** Links along the rays of spurs *)

Module link_facts.
Import hex chunk gamemap_facts hex_geometry chunk_geometry hex_facts chunk_facts.

Lemma ray_S a d j : ray a d (S j) = ray (Add a d) d j.
Proof. unfold ray. by rewrite Nat.iter_succ_r. Qed.

(** The ray stops at the first present cell within its reach. *)
Lemma cast_ray_Some present d cur n hit :
  cast_ray present d cur n = Some hit ↔
    ∃ j, (1 ≤ j ≤ n)%nat ∧ hit = ray cur d j ∧ hit ∈ present
         ∧ ∀ i, (1 ≤ i < j)%nat → ray cur d i ∉ present.
Proof.
  revert cur. induction n as [|n IH]; intros cur; cbn [cast_ray].
  { split; [done|]. intros (j & ? & _). lia. }
  destruct (decide (Add cur d ∈ present)) as [Hin|Hout].
  - split.
    + intros [= <-]. exists 1%nat. split; [lia|]. split; [done|].
      split; [done|]. intros i ?. lia.
    + intros (j & Hj & -> & Hjin & Hfirst). f_equal.
      destruct (decide (j = 1%nat)) as [->|Hne]; [done|].
      exfalso. apply (Hfirst 1%nat); [lia|done].
  - rewrite IH. split.
    + intros (j & Hj & -> & Hjin & Hfirst). exists (S j).
      split; [lia|]. rewrite ray_S. split; [done|]. split; [done|].
      intros [|i] Hi; [lia|]. rewrite ray_S.
      destruct (decide (i = 0%nat)) as [->|Hne]; [done|].
      apply Hfirst. lia.
    + intros (j & Hj & -> & Hjin & Hfirst).
      destruct j as [|j]; [lia|]. rewrite ray_S in *.
      destruct (decide (j = 0%nat)) as [->|Hne]; [done|].
      exists j. split; [lia|]. split; [done|]. split; [done|].
      intros i Hi. rewrite <- ray_S. apply Hfirst. lia.
Qed.

Lemma hasAdjacentGreen_true a u :
  hasAdjacentGreen a u = true ↔ ∃ d, d ∈ Directions ∧ u !! Add a d = Some Space.
Proof.
  unfold hasAdjacentGreen. rewrite existsb_exists. split.
  - intros (d & Hd%list_elem_of_In & Heq). exists d. split; [done|].
    apply Z.eqb_eq in Heq. unfold state_of in Heq.
    destruct (u !! Add a d) as [v|]; cbn in Heq; [by rewrite Heq|].
    unfold Space in Heq. lia.
  - intros (d & Hd & Heq). exists d. split; [by apply list_elem_of_In|].
    unfold state_of. by rewrite Heq.
Qed.

(** What [EvaluateInternalLinks] guarantees for a link. *)
Lemma evaluate_spur_step k u spurs st sp :
  0 <= Dir sp < 6 → sp ∈ spurs → link_inv u k spurs st →
  ∃ st', evaluate_spur k u st sp = Some st' ∧ link_inv u k spurs st'
         ∧ (length st'.1 + length st'.2 ≤ S (length st.1 + length st.2))%nat.
Proof.
  intros Hdir Hsp [Hlinks Hrej]. unfold evaluate_spur.
  rewrite index_Directions by done. cbn [mbind option_bind].
  destruct (cast_ray (present_of u) (dir (Z.to_nat (Dir sp))) (Origin sp)
              (Z.to_nat (GoInt.mul 8 k))) as [hit|] eqn:Hray; first last.
  { exists st. split; [done|]. split; [done|]. lia. }
  apply cast_ray_Some in Hray as (j & Hj & -> & Hin & Hfirst).
  set (hit := ray (Origin sp) (dir (Z.to_nat (Dir sp))) j) in *.
  unfold present_of in Hin. apply elem_of_dom in Hin as [v Hv].
  assert (state_of u hit = v) as -> by (unfold state_of; by rewrite Hv).
  destruct ((v =? Space) || (v =? Dead) && hasAdjacentGreen hit u) eqn:Hacc.
  - eexists. split; [done|]. cbn [fst snd]. split; [split; [|done]|].
    + apply Forall_app. split; [done|]. constructor; [|constructor].
      exists sp, j. cbn [From To]. split; [done|]. split; [done|].
      split; [done|]. split; [done|]. split; [done|].
      apply orb_true_iff in Hacc as [->%Z.eqb_eq|[->%Z.eqb_eq Hadj]%andb_true_iff].
      * by left.
      * right. split; [done|]. by apply hasAdjacentGreen_true.
    + rewrite length_app. cbn. lia.
  - eexists. split; [done|]. cbn [fst snd]. split; [split; [done|]|].
    + apply Forall_app. split; [done|]. constructor; [|constructor].
      apply list_elem_of_fmap. by exists sp.
    + rewrite length_app. cbn. lia.
Qed.

(** [EvaluateInternalLinks] does not panic on spurs with directions in
    0..5.  Every link joins the origin of a spur to the first cell of the
    union on the ray from it along the spur's direction, at most [8R]
    steps away, and that cell is Space, or Dead next to a Space cell.
    Every rejected cell is the origin of a spur, and no spur gives more
    than one link or rejection. *)
Theorem EvaluateInternalLinks_spec spurs k u :
  Forall (λ sp, 0 <= Dir sp < 6) spurs →
  ∃ links rejected,
    EvaluateInternalLinks spurs k u = Some (links, rejected)
    ∧ Forall (link_ok u k spurs) links
    ∧ Forall (λ a, a ∈ Origin <$> spurs) rejected
    ∧ (length links + length rejected ≤ length spurs)%nat.
Proof.
  intros Hdirs. unfold EvaluateInternalLinks.
  assert (∀ l st, l ⊆ spurs → link_inv u k spurs st →
            ∃ st', for_each (evaluate_spur k u) st l = Some st'
                   ∧ link_inv u k spurs st'
                   ∧ (length st'.1 + length st'.2
                      ≤ length l + (length st.1 + length st.2))%nat) as Hloop.
  { induction l as [|sp l IH]; intros st Hsub Hinv.
    - exists st. split; [done|]. split; [done|]. cbn. lia.
    - assert (sp ∈ spurs) as Hsp by (apply Hsub; by left).
      assert (0 <= Dir sp < 6) as Hdir.
      { rewrite Forall_forall in Hdirs. by apply Hdirs. }
      destruct (evaluate_spur_step k u spurs st sp Hdir Hsp Hinv)
        as (st1 & Hstep & Hinv1 & Hlen1).
      destruct (IH st1) as (st2 & Hfor & Hinv2 & Hlen2); [|done|].
      { intros x Hx. apply Hsub. by right. }
      exists st2. cbn [for_each]. rewrite Hstep. cbn [mbind option_bind].
      split; [done|]. split; [done|]. cbn [length]. lia. }
  destruct (Hloop spurs ([], [])) as ([links rejected] & Hfor & [Hl Hr] & Hlen).
  { done. }
  { split; constructor. }
  exists links, rejected. cbn [fst snd length] in *.
  split; [done|]. split; [done|]. split; [done|]. lia.
Qed.
End link_facts.

(** ** Breadth-first search inside a disc *)

Module bfs_facts.
Import hex chunk path gamemap_facts hex_geometry chunk_geometry path_geometry.
Import hex_facts disk_facts chunk_facts spur_facts.

Lemma chain_depth_unique prev start a n m :
  chain prev start a n → chain prev start a m → n = m.
Proof.
  intros Hn. revert m. induction Hn as [|a b n Ha Hb Hn IH]; intros m Hm.
  - by inversion Hm.
  - inversion Hm as [|a' b' m' Ha' Hb' Hm']; subst; [done|].
    f_equal. apply IH. congruence.
Qed.

Lemma chain_insert prev start x c a n :
  prev !! x = None → chain prev start a n → chain (<[x := c]> prev) start a n.
Proof.
  intros Hx Hn. induction Hn as [|a b n Ha Hb Hn IH]; [constructor|].
  econstructor; [done| |done].
  rewrite lookup_insert_ne; [done|]. intros ->. congruence.
Qed.

(** Walking back along a chain reaches [start] and lists the ancestors. *)
Lemma walk_back_chain prev start a n :
  chain prev start a n →
  ∃ anc,
    (∀ fuel path, (n ≤ fuel)%nat →
       walk_back fuel prev start a path = Some (path ++ anc))
    ∧ length anc = n
    ∧ last (a :: anc) = Some start
    ∧ (∀ i x, (a :: anc) !! i = Some x → chain prev start x (n - i))
    ∧ (∀ i x y, (a :: anc) !! i = Some x → (a :: anc) !! S i = Some y →
         prev !! x = Some y).
Proof.
  induction 1 as [|a b n Ha Hb Hn IH].
  - exists []. split; [|split; [done|split; [done|split]]].
    + intros fuel path _. destruct fuel; cbn [walk_back];
        rewrite decide_True by done; by rewrite app_nil_r.
    + intros [|i] x; [intros [= <-]; constructor|done].
    + intros [|i] x y; done.
  - destruct IH as (anc & Hw & Hlen & Hlast & Hd & Hp).
    exists (b :: anc). split; [|split; [cbn; lia|split; [done|split]]].
    + intros fuel path Hfuel. destruct fuel as [|fuel]; [lia|]. cbn [walk_back].
      rewrite decide_False by done. rewrite Hb.
      change (default (MkAxial 0 0) (Some b)) with b.
      rewrite Hw by lia. by rewrite <- app_assoc.
    + intros [|i] x.
      * intros [= <-]. rewrite Nat.sub_0_r. by econstructor.
      * intros Hx. apply (Hd i x Hx).
    + intros [|i] x y.
      * intros [= <-] [= <-]. done.
      * apply (Hp i x y).
Qed.

Lemma app_snoc_split {A} (l1 l2 l : list A) (x : A) :
  l1 ++ l2 = l ++ [x] → l2 = [] ∨ ∃ l2', l2 = l2' ++ [x] ∧ l = l1 ++ l2'.
Proof.
  induction l2 as [|y l2 _] using rev_ind; [by left|].
  rewrite (app_assoc l1 l2 [y]). intros [Heq ->]%app_inj_tail.
  right. by exists l2.
Qed.

Lemma dist_nonneg a b : 0 <= dist a b.
Proof. unfold dist. lia. Qed.

Lemma bfs_le_preorder : PreOrder bfs_le.
Proof.
  split.
  - intros st. unfold bfs_le. split; [done|]. split; [lia|done].
  - intros st1 st2 st3 (Hv1 & Hq1 & Hf1) (Hv2 & Hq2 & Hf2).
    split; [by etrans|]. split; [lia|]. intros Hf. by apply Hf1, Hf2.
Qed.

Section search.
Context (center : Axial) (k : Z) (start goal : Axial).
Hypothesis Hcenter : bounded (2 ^ 40) center.
Hypothesis Hstart : bounded (2 ^ 40) start.
Hypothesis Hk : Z.abs k <= 2 ^ 30.

Lemma disc_cells_bounded a :
  a ∈ disc_cells center k start → bounded (2 ^ 40 + 2 ^ 30) a.
Proof.
  unfold disc_cells. rewrite elem_of_union, elem_of_singleton, elem_of_list_to_set.
  intros [->|Ha].
  - destruct Hstart. split; lia.
  - destruct (decide (k < 0)) as [Hneg|Hpos].
    + rewrite disk_coords_negative in Ha by lia. by apply elem_of_nil in Ha.
    + apply (disk_cells_bounded center k); [done|lia|done].
Qed.

Lemma disc_cells_move a b :
  a ∈ disc_cells center k start → move center k a b →
  b ∈ disc_cells center k start.
Proof.
  intros Ha [(d & Hd & ->) Hdist].
  apply disc_cells_bounded in Ha as [Haq Har].
  apply elem_of_Directions in Hd as (i & _ & ->).
  pose proof (dir_bounded i) as [? ?].
  rewrite Add_exact in * by (split; lia).
  assert (bounded (2 ^ 41) (MkAxial (Q a + Q (dir i)) (R a + R (dir i)))) as Hb.
  { split; cbn; lia. }
  unfold disc_cells. apply elem_of_union_r, elem_of_list_to_set.
  destruct (decide (k < 0)) as [Hneg|Hpos].
  - exfalso. destruct Hb, Hcenter.
    rewrite DistanceAxial_exact in Hdist by (split; lia).
    unfold dist in Hdist. lia.
  - apply elem_of_disk_cells; [done|lia|done|done].
Qed.

(** One look at a direction keeps the invariant. *)
Lemma bfs_visit_step cur st idx :
  0 <= idx < 6 →
  bfs_inv center k start goal st ∧ bfs_closed center k goal (cur :: q st) st
    ∧ cur ∈ visited st →
  ∃ st', bfs_visit center k goal cur st idx = Some st'
    ∧ (bfs_inv center k start goal st'
       ∧ bfs_closed center k goal (cur :: q st') st' ∧ cur ∈ visited st')
    ∧ bfs_le st st'
    ∧ bfs_seen center k cur idx st'.
Proof.
  intros Hidx (Hinv & Hclosed & Hcur). unfold bfs_visit.
  destruct (found st) eqn:Hfound.
  { exists st. split; [done|]. split; [done|]. split; [apply bfs_le_preorder|].
    intros Hf. congruence. }
  rewrite index_Directions by done. cbn [mbind option_bind].
  set (d := dir (Z.to_nat idx)). set (nxt := Add cur d).
  assert (d ∈ Directions) as Hd.
  { apply elem_of_Directions. exists (Z.to_nat idx). split; [lia|done]. }
  destruct (Z.ltb_spec k (DistanceAxial center nxt)) as [Hfar|Hnear].
  { exists st. split; [done|]. split; [done|]. split; [apply bfs_le_preorder|].
    intros _ d'. rewrite index_Directions by done. intros [= <-]. fold d nxt. lia. }
  destruct (decide (nxt ∈ visited st)) as [Hseen|Hnew].
  { exists st. split; [done|]. split; [done|]. split; [apply bfs_le_preorder|].
    intros _ d'. rewrite index_Directions by done. by intros [= <-]. }
  destruct Hinv as [Istart Icells Iqueue Iprev Itree Ifound].
  destruct (Hclosed Hfound) as [Hgoal Hcl].
  assert (prev st !! nxt = None) as Hfresh.
  { destruct (prev st !! nxt) as [b|] eqn:Hp; [|done].
    by destruct (Iprev _ _ Hp) as (? & _). }
  assert (nxt ≠ start) as Hns by (intros Heq; apply Hnew; by rewrite Heq).
  assert (move center k cur nxt) as Hmove.
  { split; [by exists d|done]. }
  assert (size ({[nxt]} ∪ visited st) = S (size (visited st))) as Hsize.
  { rewrite size_union by set_solver. by rewrite size_singleton. }
  assert (∀ q' f',
            (∀ a, a ∈ q' → a ∈ q st ∨ a = nxt) →
            (f' = true → nxt = goal) →
            bfs_inv center k start goal
              (MkBfs (<[nxt := cur]> (prev st)) ({[nxt]} ∪ visited st) q' f'))
    as Hinv'.
  { intros q' f' Hq' Hf'. split; cbn [prev visited q found].
    - by apply elem_of_union_r.
    - intros a [->%elem_of_singleton|Ha]%elem_of_union.
      + apply (disc_cells_move cur); [by apply Icells|done].
      + by apply Icells.
    - intros a Ha. destruct (Hq' a Ha) as [Hq| ->].
      + by apply elem_of_union_r, Iqueue.
      + by apply elem_of_union_l, elem_of_singleton.
    - intros a b. destruct (decide (a = nxt)) as [->|Hne].
      + rewrite lookup_insert_eq. intros [= <-].
        split; [by apply elem_of_union_l, elem_of_singleton|].
        split; [done|]. split; [by apply elem_of_union_r|done].
      + rewrite lookup_insert_ne by done. intros Hp.
        destruct (Iprev _ _ Hp) as (Ha & Hnst & Hb & Hm).
        split; [by apply elem_of_union_r|]. split; [done|].
        split; [by apply elem_of_union_r|done].
    - intros a [->%elem_of_singleton|Ha]%elem_of_union.
      + destruct (Itree cur Hcur) as [n Hn]. exists (S n).
        econstructor; [done|by rewrite lookup_insert_eq|by apply chain_insert].
      + destruct (Itree a Ha) as [n Hn]. exists n. by apply chain_insert.
    - intros Hf. apply elem_of_union_l, elem_of_singleton. by rewrite Hf'. }
  destruct (decide (nxt = goal)) as [Hg|Hg].
  - eexists. split; [done|]. split; [split; [|split]|split].
    + apply Hinv'; [by left|done].
    + intros Hf. done.
    + by apply elem_of_union_r.
    + split; [apply union_subseteq_r|]. cbn [q visited found].
      split; [lia|done].
    + intros Hf. done.
  - eexists. split; [done|]. split; [split; [|split]|split].
    + apply Hinv'; [|done]. intros a [Ha| ->%list_elem_of_singleton]%elem_of_app; eauto.
    + intros _. cbn [prev visited q found]. split.
      * intros [->%elem_of_singleton|Hin]%elem_of_union; [done|by apply Hgoal].
      * intros a [->%elem_of_singleton|Ha]%elem_of_union.
        -- left. apply elem_of_cons. right. apply elem_of_app. right.
           by apply list_elem_of_singleton.
        -- destruct (Hcl a Ha) as [Hopen|Hall].
           ++ left. apply elem_of_cons in Hopen as [->|Hq]; [by left|].
              right. apply elem_of_app. by left.
           ++ right. intros d' Hd' Hdist. by apply elem_of_union_r, Hall.
    + by apply elem_of_union_r.
    + split; [apply union_subseteq_r|]. cbn [q visited found].
      rewrite length_app. cbn [length]. split; [lia|done].
    + intros _ d'. rewrite index_Directions by done. intros [= <-] _.
      by apply elem_of_union_l, elem_of_singleton.
Qed.

(** Before the goal is visited, a walk no longer than the depth of the
    cell being expanded stays among the expanded cells. *)
Lemma walk_depth cur c st L w :
  bfs_inv center k start goal st →
  bfs_closed center k goal (cur :: q st) st →
  bfs_layers center k start (cur :: q st) st →
  found st = false →
  chain (prev st) start cur c →
  nsteps (move center k) L start w → (L ≤ c)%nat →
  w ∈ visited st ∧ ∃ m, chain (prev st) start w m ∧ (m ≤ L)%nat.
Proof.
  intros Hinv Hclosed Hlayers Hfound Hcur.
  destruct (Hclosed Hfound) as [_ Hcl].
  destruct (Hlayers Hfound) as (S1 & S2 & D4 & D3).
  revert w. induction L as [|L IH]; intros w Hwalk HL.
  - inversion Hwalk; subst. split; [apply Hinv|].
    exists 0%nat. split; [constructor|done].
  - apply nsteps_inv_r in Hwalk as (y & Hwalk & Hmove).
    destruct (IH y Hwalk ltac:(lia)) as (Hy & m & Hm & HmL).
    assert (y ∉ cur :: q st) as Hexp.
    { intros [->|Hq]%elem_of_cons.
      - pose proof (chain_depth_unique _ _ _ _ _ Hcur Hm). lia.
      - pose proof (S1 [cur] (q st) cur y c m eq_refl
                      ltac:(by apply list_elem_of_singleton) Hq Hcur Hm). lia. }
    destruct (Hcl y Hy) as [?|Hall]; [done|].
    destruct Hmove as [(d & Hd & ->) Hdist].
    assert (Add y d ∈ visited st) as Hw by by apply Hall.
    split; [done|]. destruct (inv_tree _ _ _ _ _ Hinv _ Hw) as [n Hn].
    exists n. split; [done|].
    pose proof (D3 y (Add y d) m n Hy Hexp
                  ltac:(by split; [exists d|]) Hm Hn). lia.
Qed.

(** Depths after a new cell has been hung below [cur]. *)
Lemma depth_new cur c nxt st :
  bfs_inv center k start goal st →
  cur ∈ visited st → nxt ∉ visited st →
  chain (prev st) start cur c →
  (∀ x m, chain (prev st) start x m →
          chain (<[nxt := cur]> (prev st)) start x m)
  ∧ (∀ x m, x ∈ visited st →
            chain (<[nxt := cur]> (prev st)) start x m →
            chain (prev st) start x m)
  ∧ (∀ n, chain (<[nxt := cur]> (prev st)) start nxt n → n = S c).
Proof.
  intros Hinv Hcur Hnew Hc.
  assert (prev st !! nxt = None) as Hfresh.
  { destruct (prev st !! nxt) as [b|] eqn:Hp; [|done].
    by destruct (inv_prev _ _ _ _ _ Hinv _ _ Hp) as (? & _). }
  assert (nxt ≠ start) as Hns.
  { intros ->. apply Hnew, Hinv. }
  assert (∀ x m, chain (prev st) start x m →
                 chain (<[nxt := cur]> (prev st)) start x m) as Hlift.
  { intros x m. by apply chain_insert. }
  split; [done|]. split.
  - intros x m Hx Hm. destruct (inv_tree _ _ _ _ _ Hinv _ Hx) as [m0 Hm0].
    by rewrite (chain_depth_unique _ _ _ _ _ Hm (Hlift _ _ Hm0)).
  - intros n Hn. apply (chain_depth_unique _ _ _ _ _ Hn).
    econstructor; [done|by rewrite lookup_insert_eq|by apply Hlift].
Qed.

(** One look at a direction keeps the layers, and finding the goal
    certifies its depth. *)
Lemma bfs_visit_layers cur st idx st' :
  0 <= idx < 6 →
  bfs_inv center k start goal st →
  bfs_closed center k goal (cur :: q st) st →
  cur ∈ visited st →
  bfs_layers center k start (cur :: q st) st →
  bfs_short center k start goal st →
  bfs_visit center k goal cur st idx = Some st' →
  bfs_layers center k start (cur :: q st') st'
  ∧ bfs_short center k start goal st'.
Proof.
  intros Hidx Hinv Hclosed Hcur Hlayers Hshort. unfold bfs_visit.
  destruct (found st) eqn:Hfound; [by intros [= <-]|].
  rewrite index_Directions by done. cbn [mbind option_bind].
  set (d := dir (Z.to_nat idx)). set (nxt := Add cur d).
  destruct (Z.ltb_spec k (DistanceAxial center nxt)) as [Hfar|Hnear];
    [by intros [= <-]|].
  destruct (decide (nxt ∈ visited st)) as [Hseen|Hnew]; [by intros [= <-]|].
  destruct (inv_tree _ _ _ _ _ Hinv _ Hcur) as [c Hc].
  destruct (depth_new cur c nxt st Hinv Hcur Hnew Hc) as (Hlift & Hback & Hnxt).
  destruct (Hclosed Hfound) as [Hgoal Hcl].
  destruct (Hlayers Hfound) as (S1 & S2 & D4 & D3).
  assert (∀ a m, a ∈ cur :: q st → chain (prev st) start a m → (c ≤ m)%nat)
    as Hhead.
  { intros a m [->|Ha]%elem_of_cons Hm.
    - by rewrite (chain_depth_unique _ _ _ _ _ Hc Hm).
    - apply (S1 [cur] (q st) cur a c m eq_refl); [|done..].
      by apply list_elem_of_singleton. }
  assert (∀ a, a ∈ cur :: q st → a ∈ visited st) as Hopen.
  { intros a [->|Ha]%elem_of_cons; [done|]. by apply (inv_queue _ _ _ _ _ Hinv). }
  destruct (decide (nxt = goal)) as [Hg|Hg]; intros [= <-].
  - split; [by intros ?|]. intros _ n L Hn Hwalk. cbn [prev] in Hn.
    rewrite <- Hg in Hn. apply Hnxt in Hn as ->.
    destruct (decide (L ≤ c)%nat) as [Hle|?]; [|lia]. exfalso.
    destruct (walk_depth cur c st L goal Hinv Hclosed Hlayers Hfound Hc Hwalk Hle)
      as [Hin _]. done.
  - split; [|by intros ?]. intros _. cbn [prev visited q].
    assert (∀ x, x ∈ cur :: q st ++ [nxt] → x ∈ cur :: q st ∨ x = nxt) as Hsplit.
    { intros x. rewrite app_comm_cons, elem_of_app, list_elem_of_singleton. tauto. }
    split; [|split; [|split]].
    + intros l1 l2 a b m n Heq Ha Hb Hm Hn.
      rewrite app_comm_cons in Heq. symmetry in Heq.
      destruct (app_snoc_split _ _ _ _ Heq) as [->|(l2' & -> & Heq')].
      { by apply elem_of_nil in Hb. }
      assert (a ∈ cur :: q st) as Ha' by (rewrite Heq', elem_of_app; by left).
      apply Hback in Hm; [|by apply Hopen].
      apply elem_of_app in Hb as [Hb| ->%list_elem_of_singleton].
      * assert (b ∈ cur :: q st) as Hb' by (rewrite Heq', elem_of_app; by right).
        apply Hback in Hn; [|by apply Hopen].
        by apply (S1 l1 l2' a b).
      * apply Hnxt in Hn as ->.
        pose proof (S2 cur a c m ltac:(by left) Ha' Hc Hm). lia.
    + intros a b m n [Ha| ->]%Hsplit [Hb| ->]%Hsplit Hm Hn.
      * apply Hback in Hm, Hn; [|by apply Hopen..]. by apply (S2 a b).
      * apply Hback in Hm; [|by apply Hopen]. apply Hnxt in Hn as ->.
        pose proof (Hhead a m Ha Hm). lia.
      * apply Hback in Hn; [|by apply Hopen]. apply Hnxt in Hm as ->.
        pose proof (S2 cur b c n ltac:(by left) Hb Hc Hn). lia.
      * apply Hnxt in Hm as ->. apply Hnxt in Hn as ->. lia.
    + intros u v m n Hu Hnot Hv Hm Hn.
      assert (u ≠ nxt) as Hune.
      { intros ->. apply Hnot. rewrite app_comm_cons, elem_of_app. right.
        by apply list_elem_of_singleton. }
      assert (u ∈ visited st) as Hu'.
      { apply elem_of_union in Hu as [?%elem_of_singleton|?]; done. }
      assert (u ∉ cur :: q st) as Hnot'.
      { intros Hin. apply Hnot. rewrite app_comm_cons, elem_of_app. by left. }
      apply Hback in Hm; [|done].
      apply Hsplit in Hv as [Hv| ->].
      * apply Hback in Hn; [|by apply Hopen]. by apply (D4 u v).
      * apply Hnxt in Hn as ->.
        pose proof (D4 u cur m c Hu' Hnot' ltac:(by left) Hm Hc). lia.
    + intros u v m n Hu Hnot Hmove Hm Hn.
      assert (u ≠ nxt) as Hune.
      { intros ->. apply Hnot. rewrite app_comm_cons, elem_of_app. right.
        by apply list_elem_of_singleton. }
      assert (u ∈ visited st) as Hu'.
      { apply elem_of_union in Hu as [?%elem_of_singleton|?]; done. }
      assert (u ∉ cur :: q st) as Hnot'.
      { intros Hin. apply Hnot. rewrite app_comm_cons, elem_of_app. by left. }
      apply Hback in Hm; [|done].
      destruct (Hcl u Hu') as [?|Hall]; [done|].
      assert (v ∈ visited st) as Hv.
      { destruct Hmove as [(d' & Hd' & ->) Hdist]. by apply Hall. }
      apply Hback in Hn; [|done]. by apply (D3 u v).
Qed.

Lemma size_disc_cells :
  Z.of_nat (size (disc_cells center k start)) <= 2 + 3 * k * (k + 1).
Proof.
  unfold disc_cells. rewrite size_union_alt, size_singleton.
  pose proof (subseteq_size
                (list_to_set (Add center <$> gamemap.disk_coords k) ∖ {[start]})
                (list_to_set (Add center <$> gamemap.disk_coords k) : gset Axial)
                (subseteq_difference_l _ _ _ (reflexivity _))) as Hle.
  destruct (decide (k < 0)) as [Hneg|Hpos].
  - rewrite disk_coords_negative in * by lia.
    change (list_to_set (Add center <$> [])) with (∅ : gset Axial) in *.
    rewrite size_empty in Hle. assert (0 <= k * (k + 1)) by nia. lia.
  - rewrite size_list_to_set in Hle by (apply NoDup_disk_cells; [done|lia]).
    rewrite length_fmap in Hle.
    pose proof (length_disk_coords k ltac:(lia)). lia.
Qed.

(** Expanding a dequeued cell. *)
Lemma bfs_expand cur order st :
  Forall (λ idx, 0 <= idx < 6) order →
  (bfs_inv center k start goal st ∧ bfs_closed center k goal (cur :: q st) st
    ∧ cur ∈ visited st)
  ∧ bfs_layers center k start (cur :: q st) st
  ∧ bfs_short center k start goal st →
  ∃ st', for_each (bfs_visit center k goal cur) st order = Some st'
    ∧ ((bfs_inv center k start goal st'
        ∧ bfs_closed center k goal (cur :: q st') st' ∧ cur ∈ visited st')
       ∧ bfs_layers center k start (cur :: q st') st'
       ∧ bfs_short center k start goal st')
    ∧ bfs_le st st'
    ∧ Forall (λ idx, bfs_seen center k cur idx st') order.
Proof.
  intros Horder Hinv.
  pose proof bfs_le_preorder as Hpre.
  apply (for_each_grow (bfs_visit center k goal cur)
           (λ st, (bfs_inv center k start goal st
                   ∧ bfs_closed center k goal (cur :: q st) st
                   ∧ cur ∈ visited st)
                  ∧ bfs_layers center k start (cur :: q st) st
                  ∧ bfs_short center k start goal st)
           bfs_le (bfs_seen center k cur) (λ idx, 0 <= idx < 6)); [| |done|done].
  - intros idx st1 st2 (Hv & _ & Hf) Hseen Hf2 d Hd Hdist.
    apply Hv. by apply Hseen; [apply Hf|..].
  - intros st1 idx Hidx (H1 & Hl & Hs).
    destruct (bfs_visit_step cur st1 idx Hidx H1) as (st2 & Hstep & H2 & Hle & Hseen).
    exists st2. split; [done|]. split; [|done]. split; [done|].
    destruct H1 as (Hi & Hc & Hcur).
    by apply (bfs_visit_layers cur st1 idx st2).
Qed.

(** The search loop ends within as many rounds as there are cells, and
    leaves a closed tree whose depths are distances. *)
Lemma bfs_loop_runs order fuel st :
  (∀ i, 0 <= i < 6 ↔ i ∈ order) →
  bfs_inv center k start goal st →
  bfs_closed center k goal (q st) st →
  bfs_layers center k start (q st) st →
  bfs_short center k start goal st →
  (size (disc_cells center k start) + length (q st)
   ≤ fuel + size (visited st))%nat →
  ∃ st', bfs_loop fuel center k goal order st = Some st'
    ∧ bfs_inv center k start goal st'
    ∧ bfs_closed center k goal [] st'
    ∧ bfs_short center k start goal st'.
Proof.
  intros Horder. revert st.
  induction fuel as [|fuel IH]; intros st Hinv Hcl Hlay Hshort Hfuel.
  - pose proof (subseteq_size _ _ (inv_cells _ _ _ _ _ Hinv)) as Hsize.
    cbn [bfs_loop]. destruct (q st) as [|cur rest] eqn:Hq.
    { by exists st. }
    destruct (found st) eqn:Hfound.
    { exists st. split; [done|]. split; [done|]. split; [|done].
      intros Hf. congruence. }
    cbn [length] in Hfuel. lia.
  - cbn [bfs_loop]. destruct (q st) as [|cur rest] eqn:Hq.
    { by exists st. }
    destruct (found st) eqn:Hfound.
    { exists st. split; [done|]. split; [done|]. split; [|done].
      intros Hf. congruence. }
    destruct Hinv as [Istart Icells Iqueue Iprev Itree Ifound].
    destruct (bfs_expand cur order (MkBfs (prev st) (visited st) rest false))
      as (st2 & Hfor & ((Hinv2 & Hcl2 & Hcur2) & Hlay2 & Hshort2)
          & (Hvis & Hlen & Hfnd) & Hseen).
    { apply Forall_forall. intros idx Hidx. by apply Horder. }
    { split; [split; [|split]|split]; cbn [prev visited q found].
      - split; cbn [prev visited q found]; try done.
        intros a Ha. apply Iqueue. rewrite Hq. by right.
      - intros _. by apply Hcl.
      - apply Iqueue. rewrite Hq. by left.
      - intros _. by apply Hlay.
      - intros Hf. done. }
    rewrite Hfor. cbn [mbind option_bind]. cbn [prev visited q found] in *.
    assert (bfs_closed center k goal (q st2) st2) as Hcl3.
    { intros Hf2. destruct (Hcl2 Hf2) as [Hgoal Hall]. split; [done|].
      intros a Ha. destruct (Hall a Ha) as [[->|Hin]%elem_of_cons|Hdone].
      * right. intros d (i & Hi & ->)%elem_of_Directions Hdist.
        rewrite Forall_forall in Hseen.
        apply (Hseen (Z.of_nat i)); [apply Horder; lia|done| |done].
        rewrite index_Directions by lia. by rewrite Nat2Z.id.
      * by left.
      * by right. }
    apply IH; [done|done| |done|].
    + intros Hf2. destruct (Hlay2 Hf2) as (S1 & S2 & D4 & D3).
      destruct (Hcl3 Hf2) as [_ Hall3].
      split; [|split; [|split]].
      * intros l1 l2 a b m n Heq Ha Hb.
        apply (S1 (cur :: l1) l2 a b m n); [by rewrite Heq|by right|done].
      * intros a b m n Ha Hb. apply (S2 a b m n); by right.
      * intros u v m n Hu Hnot Hv Hm Hn.
        destruct (decide (u = cur)) as [->|Hne].
        -- apply (S1 [cur] (q st2) cur v m n eq_refl); [|done..].
           by apply list_elem_of_singleton.
        -- apply (D4 u v m n); [done| |by right|done|done].
           intros [?|?]%elem_of_cons; done.
      * intros u v m n Hu Hnot Hmove Hm Hn.
        destruct (decide (u = cur)) as [->|Hne].
        -- assert (v ∈ visited st2) as Hv.
           { destruct (Hall3 cur Hu) as [?|Hall]; [done|].
             destruct Hmove as [(d & Hd & ->) Hdist]. by apply Hall. }
           destruct (decide (v ∈ cur :: q st2)) as [Hopen|Hexp].
           ++ apply (S2 cur v m n); [by left|done..].
           ++ pose proof (D4 v cur n m Hv Hexp ltac:(by left) Hn Hm). lia.
        -- apply (D3 u v m n); [done| |done..].
           intros [?|?]%elem_of_cons; done.
    + cbn [length] in Hfuel. lia.
Qed.

(** The length of a chain is below the number of visited cells. *)
Lemma chain_bound st a n :
  bfs_inv center k start goal st → chain (prev st) start a n →
  (S n ≤ size (visited st))%nat
  ∧ ∃ anc, (∀ fuel path, (n ≤ fuel)%nat →
              walk_back fuel (prev st) start a path = Some (path ++ anc))
      ∧ length anc = n
      ∧ last (a :: anc) = Some start
      ∧ NoDup (a :: anc)
      ∧ (∀ i x y, (a :: anc) !! i = Some x → (a :: anc) !! S i = Some y →
           move center k y x).
Proof.
  intros [Istart Icells Iqueue Iprev Itree Ifound] Hchain.
  destruct (walk_back_chain _ _ _ _ Hchain)
    as (anc & Hw & Hlen & Hlast & Hdepth & Hprev).
  assert (NoDup (a :: anc)) as Hnd.
  { apply NoDup_alt. intros i j x Hi Hj.
    pose proof (lookup_lt_Some _ _ _ Hi) as Hil.
    pose proof (lookup_lt_Some _ _ _ Hj) as Hjl.
    pose proof (chain_depth_unique _ _ _ _ _ (Hdepth i x Hi) (Hdepth j x Hj)).
    cbn [length] in *. lia. }
  split.
  - assert (list_to_set (a :: anc) ⊆ visited st) as Hsub.
    { intros x [i Hi]%elem_of_list_to_set%list_elem_of_lookup.
      pose proof (Hdepth i x Hi) as Hx. inversion Hx as [|x' b m Hne Hb Hm]; subst.
      - done.
      - by destruct (Iprev _ _ Hb) as (? & _). }
    apply subseteq_size in Hsub. rewrite size_list_to_set in Hsub by done.
    cbn [length] in Hsub. lia.
  - exists anc. split; [done|]. split; [done|]. split; [done|]. split; [done|].
    intros i x y Hx Hy.
    by destruct (Iprev _ _ (Hprev i x y Hx Hy)) as (_ & _ & _ & ?).
Qed.

(** Every cell has a neighbour one step closer to the centre, from
    which a direction leads back. *)
Lemma closer a :
  bounded (2 ^ 41) a → 0 < dist center a →
  ∃ d d', d ∈ Directions ∧ d' ∈ Directions
    ∧ Q d' = - Q d ∧ R d' = - R d
    ∧ dist center (MkAxial (Q a + Q d) (R a + R d)) = dist center a - 1.
Proof.
  intros [Haq Har] Hpos. unfold dist in *. cbn [Q R].
  assert (∀ i j, (i < 6)%nat → (j < 6)%nat →
            Q (dir j) = - Q (dir i) → R (dir j) = - R (dir i) →
            Z.max (Z.abs (Q center - (Q a + Q (dir i))))
              (Z.max (Z.abs (R center - (R a + R (dir i))))
                 (Z.abs (Q center + R center
                         - (Q a + Q (dir i) + (R a + R (dir i))))))
            = Z.max (Z.abs (Q center - Q a))
                (Z.max (Z.abs (R center - R a))
                   (Z.abs (Q center + R center - (Q a + R a)))) - 1 →
            ∃ d d', d ∈ Directions ∧ d' ∈ Directions
              ∧ Q d' = - Q d ∧ R d' = - R d
              ∧ Z.max (Z.abs (Q center - (Q a + Q d)))
                  (Z.max (Z.abs (R center - (R a + R d)))
                     (Z.abs (Q center + R center - (Q a + Q d + (R a + R d)))))
                = Z.max (Z.abs (Q center - Q a))
                    (Z.max (Z.abs (R center - R a))
                       (Z.abs (Q center + R center - (Q a + R a)))) - 1) as Hpick.
  { intros i j Hi Hj HQ HR Heq. exists (dir i), (dir j).
    split; [apply elem_of_Directions; eauto|].
    split; [apply elem_of_Directions; eauto|]. done. }
  set (x := Q center - Q a) in *. set (z := R center - R a) in *.
  destruct (Z.lt_trichotomy x 0) as [Hx|[Hx|Hx]];
    destruct (Z.lt_trichotomy z 0) as [Hz|[Hz|Hz]];
    destruct (Z.lt_trichotomy (x + z) 0) as [Hs|[Hs|Hs]]; try lia.
  all: first
    [ apply (Hpick 0%nat 3%nat); [lia|lia|reflexivity|reflexivity|cbn; lia]
    | apply (Hpick 1%nat 4%nat); [lia|lia|reflexivity|reflexivity|cbn; lia]
    | apply (Hpick 2%nat 5%nat); [lia|lia|reflexivity|reflexivity|cbn; lia]
    | apply (Hpick 3%nat 0%nat); [lia|lia|reflexivity|reflexivity|cbn; lia]
    | apply (Hpick 4%nat 1%nat); [lia|lia|reflexivity|reflexivity|cbn; lia]
    | apply (Hpick 5%nat 2%nat); [lia|lia|reflexivity|reflexivity|cbn; lia] ].
Qed.

Lemma near_bounded a :
  bounded (2 ^ 41) a → dist center a <= 2 ^ 30 → bounded (2 ^ 40 + 2 ^ 30) a.
Proof.
  intros [? ?] Hd. destruct Hcenter. unfold dist in Hd. split; lia.
Qed.

(** The disc is connected through its centre. *)
Lemma disc_connected n a :
  bounded (2 ^ 41) a → dist center a = Z.of_nat n → Z.of_nat n <= k →
  rtc (move center k) center a ∧ rtc (move center k) a center.
Proof.
  revert a. induction n as [|n IH]; intros a Ha Hd Hn.
  - assert (a = center) as ->; [|done].
    destruct Ha, Hcenter, a, center. unfold dist in Hd. cbn in *. f_equal; lia.
  - destruct (closer a Ha ltac:(lia)) as (d & d' & Hd1 & Hd2 & HQ & HR & Hcl).
    set (a' := MkAxial (Q a + Q d) (R a + R d)) in *.
    pose proof (near_bounded a Ha ltac:(lia)) as [Haq Har].
    apply elem_of_Directions in Hd1 as Hd1'. destruct Hd1' as (i & _ & Hi).
    apply elem_of_Directions in Hd2 as Hd2'. destruct Hd2' as (j & _ & Hj).
    pose proof (dir_bounded i) as [? ?]. pose proof (dir_bounded j) as [? ?].
    rewrite <- Hi, <- Hj in *.
    assert (bounded (2 ^ 41) a') as Ha' by (split; cbn; lia).
    destruct (IH a' Ha' ltac:(lia) ltac:(lia)) as [Hfrom Hto].
    pose proof (near_bounded a' Ha' ltac:(lia)) as [Haq' Har'].
    split.
    + eapply rtc_r; [exact Hfrom|]. split.
      * exists d'. split; [done|].
        rewrite Add_exact by (split; cbn [Q R] in *; lia).
        destruct a. cbn. f_equal; lia.
      * destruct Hcenter. rewrite DistanceAxial_exact by (split; lia). lia.
    + apply (rtc_l _ _ a'); [|exact Hto]. split.
      * exists d. split; [done|]. by rewrite Add_exact by (split; lia).
      * destruct Hcenter. rewrite DistanceAxial_exact by (split; lia). lia.
Qed.

(** [BFSPath] returns within [2 + 3R(R+1)] rounds.  A path it returns
    leads from [start] to [goal] by steps to neighbouring cells inside
    the disc, without visiting a cell twice, and no walk of such steps
    from [start] to [goal] is shorter; it returns [nil] only when no
    such walk exists, which never happens when both ends lie in the
    disc. *)
Theorem BFSPath_spec order fuel :
  order ≡ₚ [0; 1; 2; 3; 4; 5] →
  2 + 3 * k * (k + 1) <= Z.of_nat fuel →
  ∃ res, BFSPath fuel center k start goal order = Some res
    ∧ (∀ p, res = Some p →
         path_ok center k start goal p
         ∧ ∀ L, nsteps (move center k) L start goal → (length p ≤ S L)%nat)
    ∧ (res = None → ¬ rtc (move center k) start goal)
    ∧ (bounded (2 ^ 40) goal → DistanceAxial center start <= k →
       DistanceAxial center goal <= k → res ≠ None).
Proof.
  intros Hperm Hfuel. unfold BFSPath.
  destruct (decide (start = goal)) as [Heq|Hne].
  { exists (Some [start]). split; [done|]. split; [|split; [done|done]].
    intros p [= <-]. split; [|intros L _; cbn; lia].
    split; [done|]. split; [by rewrite Heq|].
    split; [apply NoDup_singleton|]. intros [|i] a b; [done|done]. }
  assert (∀ i, 0 <= i < 6 ↔ i ∈ order) as Horder.
  { intros i. rewrite Hperm, !elem_of_cons, elem_of_nil. lia. }
  pose proof size_disc_cells as Hsize.
  destruct (bfs_loop_runs order fuel (MkBfs ∅ {[start]} [start] false) Horder)
    as (st & Hloop & Hinv & Hclosed & Hshort).
  { split; cbn [prev visited q found].
    - by apply elem_of_singleton.
    - apply union_subseteq_l.
    - intros a ->%list_elem_of_singleton. by apply elem_of_singleton.
    - intros a b. by rewrite lookup_empty.
    - intros a ->%elem_of_singleton. exists 0%nat. constructor.
    - done. }
  { intros _. cbn [visited q]. split.
    - intros Hg%elem_of_singleton. congruence.
    - intros a ->%elem_of_singleton. left. by apply list_elem_of_singleton. }
  { intros _. cbn [prev visited q].
    assert (∀ a m, a ∈ [start] → chain (∅ : gmap Axial Axial) start a m → m = 0%nat)
      as Hzero.
    { intros a m ->%list_elem_of_singleton Hm.
      apply (chain_depth_unique _ _ _ _ _ Hm). constructor. }
    split; [|split; [|split]].
    - intros l1 l2 a b m n Heq Ha Hb Hm Hn.
      rewrite (Hzero a m); [lia| |done]. rewrite Heq, elem_of_app. by left.
    - intros a b m n Ha Hb Hm Hn. rewrite (Hzero b n); [lia|done|done].
    - intros u v m n ->%elem_of_singleton Hnot. exfalso. apply Hnot.
      by apply list_elem_of_singleton.
    - intros u v m n ->%elem_of_singleton Hnot. exfalso. apply Hnot.
      by apply list_elem_of_singleton. }
  { intros Hf. done. }
  { cbn [visited q length]. rewrite size_singleton. lia. }
  rewrite Hloop. cbn [mbind option_bind].
  destruct (found st) eqn:Hfound; cbn [negb].
  - destruct (inv_tree _ _ _ _ _ Hinv goal (inv_found _ _ _ _ _ Hinv Hfound))
      as [n Hchain].
    destruct (chain_bound st goal n Hinv Hchain)
      as (Hn & anc & Hwalk & Hlen & Hlast & Hnd & Hmoves).
    pose proof (subseteq_size _ _ (inv_cells _ _ _ _ _ Hinv)) as Hsub.
    rewrite (Hwalk fuel [goal]) by lia. cbn [mbind option_bind app].
    eexists. split; [done|]. split; [|split; [done|done]].
    intros p [= <-]. split.
    + split; [by rewrite head_reverse|].
      split; [by rewrite last_reverse|]. split; [by rewrite reverse_Permutation|].
      intros i a b [Ha Hi]%reverse_lookup_Some [Hb Hi']%reverse_lookup_Some.
      apply (Hmoves (length (goal :: anc) - S (S i))%nat); [done|].
      by replace (S (length (goal :: anc) - S (S i)))
        with (length (goal :: anc) - S i)%nat by lia.
    + intros L HL. rewrite length_reverse. cbn [length]. rewrite Hlen.
      pose proof (Hshort Hfound n L Hchain HL). lia.
  - exists None. split; [done|]. split; [done|].
    destruct (Hclosed Hfound) as [Hgoal Hall].
    assert (¬ rtc (move center k) start goal) as Hunreach.
    { intros Hrtc. apply Hgoal.
      refine (rtc_ind_r (λ z, z ∈ visited st) start _ _ goal Hrtc).
      - apply (inv_start _ _ _ _ _ Hinv).
      - intros a b _ [(d & Hd & ->) Hdist] Ha.
        destruct (Hall a Ha) as [[]%elem_of_nil|Hcl]. by apply Hcl. }
    split; [done|]. intros Hgoalb Hds Hdg _. apply Hunreach.
    destruct Hcenter, Hstart, Hgoalb.
    rewrite DistanceAxial_exact in Hds, Hdg by (split; lia).
    pose proof (dist_nonneg center start). pose proof (dist_nonneg center goal).
    destruct (disc_connected (Z.to_nat (dist center start)) start)
      as [_ Hto]; [split; lia|lia|lia|].
    destruct (disc_connected (Z.to_nat (dist center goal)) goal)
      as [Hfrom _]; [split; lia|lia|lia|].
    by etrans.
Qed.
End search.
End bfs_facts.

(** ** Portals: the cell of an edge with the least hash *)

Module portal_facts.
Import hex chunk path gamemap_facts hex_geometry chunk_geometry.
Import hex_facts ring_facts edge_facts chunk_facts.

Lemma lxor_u64 a b :
  0 <= a < 2 ^ 64 → 0 <= b < 2 ^ 64 → 0 <= Z.lxor a b < 2 ^ 64.
Proof.
  intros Ha Hb.
  assert (0 <= Z.lxor a b) as Hnn by (apply Z.lxor_nonneg; lia).
  split; [done|].
  destruct (decide (Z.lxor a b = 0)) as [->|Hne]; [lia|].
  apply Z.log2_lt_pow2; [lia|].
  pose proof (Z.log2_lxor a b ltac:(lia) ltac:(lia)) as Hlog.
  assert (∀ x, 0 <= x < 2 ^ 64 → Z.log2 x < 64) as Hl.
  { intros x Hx. destruct (decide (x = 0)) as [->|?]; [done|].
    apply Z.log2_lt_pow2; lia. }
  pose proof (Hl a Ha). pose proof (Hl b Hb). lia.
Qed.

Lemma shiftr_u64 x n : 0 <= n → 0 <= x < 2 ^ 64 → 0 <= Z.shiftr x n < 2 ^ 64.
Proof.
  intros Hn Hx. rewrite Z.shiftr_div_pow2 by done.
  assert (0 < 2 ^ n) by (apply Z.pow_pos_nonneg; lia).
  split; [apply Z.div_pos; lia|].
  apply Z.div_lt_upper_bound; [done|]. nia.
Qed.

Lemma u64_range z : 0 <= u64 z < 2 ^ 64.
Proof. unfold u64. apply Z.mod_pos_bound. lia. Qed.

(** The hash is a [uint64]. *)
Lemma hashCoordWithSeed_range seed a : 0 <= hashCoordWithSeed seed a < 2 ^ 64.
Proof.
  unfold hashCoordWithSeed. cbv zeta.
  apply lxor_u64; [apply u64_range|]. apply shiftr_u64; [lia|apply u64_range].
Qed.

(** The scan keeps the first position of the least hash seen so far. *)
Lemma select_scan seed l :
  let st := foldl (select_step seed) (0, 2 ^ 64 - 1) (imap pair l) in
  l ≠ [] →
  ∃ a, 0 <= st.1 ∧ l !! Z.to_nat st.1 = Some a
    ∧ hashCoordWithSeed seed a = st.2
    ∧ ∀ j b, l !! j = Some b →
        st.2 <= hashCoordWithSeed seed b
        ∧ ((j < Z.to_nat st.1)%nat → st.2 < hashCoordWithSeed seed b).
Proof.
  induction l as [|x l IH] using rev_ind; [intros st Hne; by destruct Hne|]. intros st _.
  subst st. rewrite imap_app, foldl_app. cbn [imap foldl].
  rewrite Nat.add_0_r.
  set (st := foldl (select_step seed) (0, 2 ^ 64 - 1) (imap pair l)) in *.
  pose proof (hashCoordWithSeed_range seed x) as Hx.
  remember (select_step seed st (length l, x)) as r eqn:Hr.
  unfold select_step in Hr. cbn [fst snd] in Hr.
  destruct (decide (l = [])) as [->|Hne].
  - subst st. cbn [imap foldl fst snd length app] in *.
    destruct (Z.ltb_spec (hashCoordWithSeed seed x) (2 ^ 64 - 1)) as [Hlt|Hge];
      subst r; cbn [fst snd]; exists x; (split; [lia|]); (split; [done|]);
      (split; [lia|]); intros [|j] b; try done; intros [= <-]; split; lia.
  - destruct (IH Hne) as (a & Hpos & Ha & Hh & Hmin).
    destruct (Z.ltb_spec (hashCoordWithSeed seed x) st.2) as [Hlt|Hge];
      subst r; cbn [fst snd].
    + exists x. split; [lia|]. rewrite Nat2Z.id.
      split; [by rewrite lookup_app_r, Nat.sub_diag by lia|]. split; [done|].
      intros j b Hb. apply lookup_app_Some in Hb as [Hb|[Hj Hb]].
      * destruct (Hmin j b Hb). split; lia.
      * apply list_lookup_singleton_Some in Hb as [_ <-]. split; lia.
    + exists a. split; [done|]. split; [by apply lookup_app_l_Some|].
      split; [done|]. intros j b Hb.
      apply lookup_app_Some in Hb as [Hb|[Hj Hb]]; [by apply Hmin|].
      apply list_lookup_singleton_Some in Hb as [_ <-].
      apply lookup_lt_Some in Ha. split; lia.
Qed.

Lemma ring_side_dist c k side a :
  bounded (2 ^ 40) c → 1 <= k <= 2 ^ 40 → (side < 6)%nat →
  a ∈ ring_side_cells c k side → DistanceAxial c a = k.
Proof.
  intros Hc Hk Hside Ha. pose proof Hc as [Hq Hr].
  assert (a ∈ ring_cells c k) as Hring.
  { apply elem_of_ring_side in Ha as (t & Ht & ->).
    apply elem_of_ring_cells. by exists side, t. }
  destruct a as [x y]. pose proof Hring as Hcoords%ring_cells_by_coords.
  rewrite DistanceAxial_exact by (split; cbn; lia).
  by apply ring_cells_dist; [lia|].
Qed.

(** [SelectPortalDeterministic] returns the cell of the edge with the
    least hash, the first one in edge order if several share it, together
    with its index on the edge; the cell lies on the ring of radius [R]
    (it is the centre itself for [R <= 0]). *)
Theorem SelectPortalDeterministic_spec center k side seed :
  bounded (2 ^ 40) center → k <= 2 ^ 40 → 0 <= side < 6 →
  ∃ a i e,
    SelectPortalDeterministic center k side seed = Some (a, i)
    ∧ Edge center k side = Some e
    ∧ 0 <= i < Z.max 1 k
    ∧ e !! Z.to_nat i = Some a
    ∧ DistanceAxial center a = Z.max 0 k
    ∧ ∀ j b, e !! j = Some b →
        hashCoordWithSeed seed a <= hashCoordWithSeed seed b
        ∧ ((j < Z.to_nat i)%nat →
           hashCoordWithSeed seed a < hashCoordWithSeed seed b).
Proof.
  intros Hc Hk Hside. unfold SelectPortalDeterministic.
  assert (∃ e, Edge center k side = Some e
               ∧ Z.of_nat (length e) = Z.max 1 k
               ∧ ∀ a, a ∈ e → DistanceAxial center a = Z.max 0 k)
    as (e & He & Hlen & Hdist).
  { destruct (decide (k <= 0)) as [Hle|Hpos].
    - exists [center]. split; [|split].
      + unfold Edge. by rewrite (proj2 (Z.leb_le k 0)).
      + cbn. lia.
      + intros a ->%list_elem_of_singleton.
        rewrite (proj2 (DistanceAxial_zero center center ltac:(destruct Hc; split; lia)
                          ltac:(destruct Hc; split; lia))) by done. lia.
    - exists (ring_side_cells center k (Z.to_nat side)). split; [|split].
      + rewrite <- (Z2Nat.id side) at 1 by lia. apply Edge_ring_side; [done|lia|lia].
      + rewrite length_ring_side. lia.
      + intros a Ha. rewrite (ring_side_dist center k (Z.to_nat side)); [lia|done|lia|lia|done]. }
  rewrite He. cbn [mbind option_bind].
  destruct (Z.eqb_spec (Z.of_nat (length e)) 0) as [?|_]; [lia|].
  assert (e ≠ []) as Hne by (intros ->; cbn in Hlen; lia).
  destruct (select_scan seed e Hne) as (a & Hpos & Ha & Hh & Hmin).
  set (st := foldl (select_step seed) (0, 2 ^ 64 - 1) (imap pair e)) in *.
  assert (index e st.1 = Some a) as ->.
  { unfold index. by destruct (Z.ltb_spec st.1 0) as [?|_]; [lia|]. }
  cbn [mbind option_bind]. exists a, st.1, e.
  pose proof (lookup_lt_Some _ _ _ Ha) as Hlt.
  split; [done|]. split; [done|]. split; [lia|]. split; [done|].
  split; [apply Hdist; by eapply list_elem_of_lookup_2|].
  intros j b Hb. rewrite Hh. by apply Hmin.
Qed.
End portal_facts.

(** ** Neighbours inside a disc and the distance heuristic *)

Module neighbour_facts.
Import hex chunk path gamemap_facts hex_geometry chunk_geometry path_geometry.
Import hex_facts chunk_facts.

Lemma NoDup_Directions : NoDup Directions.
Proof.
  apply NoDup_alt. intros i j x Hi Hj.
  pose proof (lookup_lt_Some _ _ _ Hi) as Hil.
  pose proof (lookup_lt_Some _ _ _ Hj) as Hjl. cbn in Hil, Hjl.
  do 6 (destruct i as [|i];
        [do 6 (destruct j as [|j]; [cbn in Hi, Hj; congruence|]); lia|]).
  lia.
Qed.

Lemma length_bind_singletons {A B} (f : A → list B) (l : list A) :
  Forall (λ x, length (f x) = 1%nat) l → length (l ≫= f) = length l.
Proof.
  induction 1 as [|x l Hx Hl IH]; [done|].
  rewrite bind_cons, length_app, Hx, IH. done.
Qed.

(** A step to a neighbour changes the distance to any cell by at most
    one. *)
Lemma max3_step x0 y0 z0 x1 y1 z1 :
  Z.abs (x1 - x0) <= 1 → Z.abs (y1 - y0) <= 1 → Z.abs (z1 - z0) <= 1 →
  Z.abs (Z.max x1 (Z.max y1 z1) - Z.max x0 (Z.max y0 z0)) <= 1.
Proof. lia. Qed.

Lemma abs_step x e : Z.abs e <= 1 → Z.abs (Z.abs (x + e) - Z.abs x) <= 1.
Proof. lia. Qed.

Lemma dir_steps i :
  Z.abs (Q (dir i)) <= 1 ∧ Z.abs (R (dir i)) <= 1
  ∧ Z.abs (Q (dir i) + R (dir i)) <= 1.
Proof.
  do 6 (destruct i as [|i]; [cbn; lia|]).
  unfold dir. rewrite lookup_ge_None_2 by (cbn; lia). cbn. lia.
Qed.

Lemma step_distance a d g :
  bounded (2 ^ 41) a → bounded (2 ^ 41) g → d ∈ Directions →
  Add a d = MkAxial (Q a + Q d) (R a + R d)
  ∧ Z.abs (DistanceAxial (Add a d) g - DistanceAxial a g) <= 1
  ∧ Z.abs (DistanceAxial g (Add a d) - DistanceAxial g a) <= 1.
Proof.
  intros [Haq Har] [Hgq Hgr] (i & Hi & ->)%elem_of_Directions.
  pose proof (dir_steps i) as (Hdq & Hdr & Hds).
  rewrite Add_exact by (split; lia). split; [done|].
  rewrite !DistanceAxial_exact by (split; cbn [Q R]; lia).
  unfold dist. cbn [Q R]. clear Haq Har Hgq Hgr Hi.
  split; apply max3_step.
  - replace (Q a + Q (dir i) - Q g) with (Q a - Q g + Q (dir i)) by lia.
    by apply abs_step.
  - replace (R a + R (dir i) - R g) with (R a - R g + R (dir i)) by lia.
    by apply abs_step.
  - replace (Q a + Q (dir i) + (R a + R (dir i)) - (Q g + R g))
      with (Q a + R a - (Q g + R g) + (Q (dir i) + R (dir i))) by lia.
    by apply abs_step.
  - replace (Q g - (Q a + Q (dir i))) with (Q g - Q a + - Q (dir i)) by lia.
    apply abs_step. lia.
  - replace (R g - (R a + R (dir i))) with (R g - R a + - R (dir i)) by lia.
    apply abs_step. lia.
  - replace (Q g + R g - (Q a + Q (dir i) + (R a + R (dir i))))
      with (Q g + R g - (Q a + R a) + - (Q (dir i) + R (dir i))) by lia.
    apply abs_step. lia.
Qed.

(** [NeighborsWithinDisc] and the unexported [neighborsWithinDisc] list,
    in the order of [Directions] and without repetition, the moves of
    the search from [a]: the neighbours of [a] inside the disc, all six
    of them when [a] is strictly inside.  [HeuristicTo] changes by at
    most one along each of them and vanishes at the goal. *)
Theorem NeighborsWithinDisc_spec center k goal a :
  bounded (2 ^ 40) center → bounded (2 ^ 40) a → bounded (2 ^ 40) goal →
  let ns := NeighborsWithinDisc center k a in
  neighborsWithinDisc a center k = ns
  ∧ NoDup ns
  ∧ (∀ b, b ∈ ns ↔ move center k a b)
  ∧ (DistanceAxial center a < k → length ns = 6%nat)
  ∧ (∀ b, b ∈ ns → Z.abs (HeuristicTo goal b - HeuristicTo goal a) <= 1)
  ∧ HeuristicTo goal goal = 0.
Proof.
  intros Hc Ha Hg ns. subst ns. unfold NeighborsWithinDisc, HeuristicTo.
  pose proof Hc as [Hcq Hcr]. pose proof Ha as [Haq Har].
  pose proof Hg as [Hgq Hgr].
  assert (∀ b, b ∈ Directions ≫= (λ d, if DistanceAxial center (Add a d) <=? k
                                       then [Add a d] else [])
               ↔ move center k a b) as Hmem.
  { intros b. rewrite list_elem_of_bind. unfold move. split.
    - intros (d & Hb & Hd).
      destruct (Z.leb_spec (DistanceAxial center (Add a d)) k) as [Hle|Hgt].
      + apply list_elem_of_singleton in Hb as ->. split; [by exists d|done].
      + by apply elem_of_nil in Hb.
    - intros [(d & Hd & ->) Hle]. exists d. split; [|done].
      rewrite (proj2 (Z.leb_le _ _)) by done. by apply list_elem_of_singleton. }
  split; [reflexivity|]. split; [|split; [done|split; [|split]]].
  - apply NoDup_bind; [| |apply NoDup_Directions].
    + intros d1 d2 b Hd1 Hd2 Hb1 Hb2.
      destruct (Z.leb_spec (DistanceAxial center (Add a d1)) k);
        [|by apply elem_of_nil in Hb1].
      destruct (Z.leb_spec (DistanceAxial center (Add a d2)) k);
        [|by apply elem_of_nil in Hb2].
      apply list_elem_of_singleton in Hb1, Hb2. subst b.
      destruct (step_distance a d1 a) as [E1 _]; [split; lia..|done|].
      destruct (step_distance a d2 a) as [E2 _]; [split; lia..|done|].
      rewrite E1, E2 in Hb2. destruct d1, d2. cbn in Hb2.
      injection Hb2 as ? ?. f_equal; lia.
    + intros d _. destruct (_ <=? _); [apply NoDup_singleton|constructor].
  - intros Hin. rewrite length_bind_singletons; [done|].
    apply Forall_forall. intros d Hd.
    destruct (step_distance a d center) as (_ & _ & Hstep); [split; lia..|done|].
    by rewrite (proj2 (Z.leb_le _ _)) by lia.
  - intros b [(d & Hd & ->) _]%Hmem.
    destruct (step_distance a d goal) as (_ & Hstep & _); [split; lia..|done|].
    done.
  - by apply DistanceAxial_zero; split; lia.
Qed.
End neighbour_facts.


Lemma DistanceAxial_metric_witness :
  let a := hex.MkAxial 0 0 in
  let b := hex.MkAxial 3 (-1) in
  let c := hex.MkAxial (-2) 5 in
  hex_geometry.bounded (2 ^ 50) a
  ∧ hex_geometry.bounded (2 ^ 50) b
  ∧ hex_geometry.bounded (2 ^ 50) c
  ∧ hex.DistanceAxial a b = hex.DistanceAxial b a
  ∧ hex.DistanceAxial a c <= hex.DistanceAxial a b + hex.DistanceAxial b c.
Proof.
  intros a b c.
  assert (hex_geometry.bounded (2 ^ 50) a) as Ha by (split; cbn; lia).
  assert (hex_geometry.bounded (2 ^ 50) b) as Hb by (split; cbn; lia).
  assert (hex_geometry.bounded (2 ^ 50) c) as Hc by (split; cbn; lia).
  split; [exact Ha|]. split; [exact Hb|]. split; [exact Hc|].
  destruct (hex_facts.DistanceAxial_metric a b c Ha Hb Hc) as (_ & _ & Hsym & Htri).
  split; [exact Hsym|exact Htri].
Defined.

Lemma neighbours_at_distance_one_witness :
  let a := hex.MkAxial 4 (-7) in
  let b := hex.MkAxial 5 (-8) in
  hex_geometry.bounded (2 ^ 49) a
  ∧ hex_geometry.bounded (2 ^ 49) b
  ∧ (hex.DistanceAxial a b = 1 ↔ ∃ d, d ∈ hex.Directions ∧ b = hex.Add a d).
Proof.
  intros a b.
  assert (hex_geometry.bounded (2 ^ 49) a) as Ha by (split; cbn; lia).
  assert (hex_geometry.bounded (2 ^ 49) b) as Hb by (split; cbn; lia).
  split; [exact Ha|]. split; [exact Hb|].
  exact (hex_facts.neighbours_at_distance_one a b Ha Hb).
Defined.

Lemma Ring_spec_witness :
  hex_geometry.bounded (2 ^ 40) (hex.MkAxial 0 0)
  ∧ - 2 ^ 40 <= 2 <= 2 ^ 40
  ∧ match hex.Ring (hex.MkAxial 0 0) 2 with
    | Some l => Z.of_nat (length l) = 12 ∧ NoDup l
    | None => False
    end.
Proof.
  assert (hex_geometry.bounded (2 ^ 40) (hex.MkAxial 0 0)) as Hc
    by (split; cbn; lia).
  assert (- 2 ^ 40 <= 2 <= 2 ^ 40) as Hk by lia.
  split; [exact Hc|]. split; [exact Hk|].
  pose proof (ring_facts.Ring_spec (hex.MkAxial 0 0) 2 Hc Hk) as Hspec.
  destruct (hex.Ring (hex.MkAxial 0 0) 2) as [l|].
  - destruct Hspec as (_ & Hlen & Hnd & _). split; [exact Hlen|exact Hnd].
  - lia.
Defined.

Lemma Edge_spec_witness :
  hex_geometry.bounded (2 ^ 40) (hex.MkAxial 0 0)
  ∧ 9 <= 2 ^ 40
  ∧ hex.Edge (hex.MkAxial 0 0) 9 0
    = Some (hex_geometry.ring_side_cells (hex.MkAxial 0 0) 9 0).
Proof.
  assert (hex_geometry.bounded (2 ^ 40) (hex.MkAxial 0 0)) as Hc
    by (split; cbn; lia).
  assert (9 <= 2 ^ 40) as HR by lia.
  split; [exact Hc|]. split; [exact HR|].
  pose proof (edge_facts.Edge_spec (hex.MkAxial 0 0) 9 0 Hc HR) as Hspec.
  destruct (decide (9 <= 0)) as [?|_]; [lia|].
  destruct (decide (0 <= 0 < 6)) as [_|?]; [|lia].
  exact (proj1 Hspec).
Defined.

Lemma Disk_spec_witness :
  hex_geometry.bounded (2 ^ 40) (hex.MkAxial 3 (-4))
  ∧ Z.abs 2 <= 2 ^ 30
  ∧ (∃ l, hex_geometry.Disk (hex.MkAxial 3 (-4)) 2 = Some l
       ∧ Z.of_nat (length l) = 19 ∧ NoDup l)
  ∧ Z.abs 3000000 <= 2 ^ 30
  ∧ hex_geometry.Disk (hex.MkAxial 3 (-4)) 3000000 = None.
Proof.
  assert (hex_geometry.bounded (2 ^ 40) (hex.MkAxial 3 (-4))) as Hc
    by (split; cbn; lia).
  assert (Z.abs 2 <= 2 ^ 30) as Hr by lia.
  assert (Z.abs 3000000 <= 2 ^ 30) as Hr' by lia.
  split; [exact Hc|]. split; [exact Hr|]. split; [|split; [exact Hr'|]].
  - pose proof (disk_facts.Disk_spec (hex.MkAxial 3 (-4)) 2 Hc Hr) as Hspec.
    destruct (decide (1 + 3 * 2 * (2 + 1) <= 2 ^ 44)) as [_|?]; [|lia].
    destruct Hspec as (l & Hl & Hlen & Hnd & _).
    exists l. split; [exact Hl|]. split; [exact Hlen|exact Hnd].
  - pose proof (disk_facts.Disk_spec (hex.MkAxial 3 (-4)) 3000000 Hc Hr') as Hspec.
    destruct (decide (1 + 3 * 3000000 * (3000000 + 1) <= 2 ^ 44)) as [?|_]; [lia|].
    exact Hspec.
Defined.

Lemma New_spec_witness :
  Z.abs 1 <= 2 ^ 30
  ∧ ∃ gm, gamemap.New 1 = inr gm
      ∧ gamemap.ChunkRadius gm = 1
      ∧ Z.of_nat (size (gamemap.Chunks gm)) = 7.
Proof.
  assert (Z.abs 1 <= 2 ^ 30) as Hn by lia.
  split; [exact Hn|].
  destruct (map_facts.New_spec 1 Hn) as (gm & Hnew & Hrad & Hsize & _).
  exists gm. split; [exact Hnew|]. split; [exact Hrad|].
  destruct (decide (1 < 0)) as [?|_]; [lia|]. exact Hsize.
Defined.

Lemma NewHexChunk_world_positions_witness :
  let p := hex.MkAxial 1 (-1) in
  hex_geometry.bounded (2 ^ 40) p
  ∧ ∀ l1 l2 h1 h2,
      gamemap.HexChunk_GetHex (gamemap.NewHexChunk p) l1 = Some h1 →
      gamemap.HexChunk_GetHex (gamemap.NewHexChunk p) l2 = Some h2 →
      gamemap.WorldPos h1 = gamemap.WorldPos h2 → l1 = l2.
Proof.
  intros p.
  assert (hex_geometry.bounded (2 ^ 40) p) as Hp by (split; cbn; lia).
  split; [exact Hp|].
  exact (proj1 (proj2 (map_facts.NewHexChunk_world_positions p Hp))).
Defined.

Lemma NeighborChunkCenter_spec_witness :
  hex_geometry.bounded (2 ^ 40) chunk_demo.origin
  ∧ Z.abs 9 <= 2 ^ 40
  ∧ ∃ n, chunk.NeighborChunkCenter chunk_demo.origin 9 0 = Some n
      ∧ hex.DistanceAxial chunk_demo.origin n = 2 * Z.abs 9.
Proof.
  assert (hex_geometry.bounded (2 ^ 40) chunk_demo.origin) as Hc
    by (split; cbn; lia).
  assert (Z.abs 9 <= 2 ^ 40) as Hk by lia.
  split; [exact Hc|]. split; [exact Hk|].
  pose proof (chunk_facts.NeighborChunkCenter_spec chunk_demo.origin 9 0 Hc Hk)
    as Hspec.
  destruct (decide (0 <= 0 < 6)) as [_|?]; [|lia].
  destruct Hspec as (n & Hn & Hd & _). exists n. split; [exact Hn|exact Hd].
Defined.

Lemma Edge_faces_next_neighbour_witness :
  hex_geometry.bounded (2 ^ 40) chunk_demo.origin
  ∧ 1 <= 3 <= 2 ^ 40
  ∧ 0 <= 0 < 6
  ∧ ∃ n e, chunk.NeighborChunkCenter chunk_demo.origin 3 0 = Some n
      ∧ hex.Edge chunk_demo.origin 3 0 = Some e
      ∧ Forall (λ a, hex.DistanceAxial chunk_demo.origin a = 3
                     ∧ 3 < hex.DistanceAxial n a) e.
Proof.
  assert (hex_geometry.bounded (2 ^ 40) chunk_demo.origin) as Hc
    by (split; cbn; lia).
  assert (1 <= 3 <= 2 ^ 40) as Hk by lia.
  assert (0 <= 0 < 6) as Hs by lia.
  split; [exact Hc|]. split; [exact Hk|]. split; [exact Hs|].
  destruct (chunk_facts.Edge_faces_next_neighbour chunk_demo.origin 3 0 Hc Hk Hs)
    as (n & e & e' & Hn & He & _ & Hfar & _).
  exists n, e. split; [exact Hn|]. split; [exact He|exact Hfar].
Defined.

Lemma ComputeBoundarySpurs_spec_witness :
  Forall (hex_geometry.bounded (2 ^ 40)) chunk_demo.plan
  ∧ 1 <= 2 ^ 40
  ∧ ∃ spurs,
      chunk.ComputeBoundarySpurs chunk_demo.plan 1 chunk_demo.union = Some spurs
      ∧ NoDup (chunk.Origin <$> spurs)
      ∧ Forall (chunk_geometry.spur_ok chunk_demo.union chunk_demo.plan 1) spurs.
Proof.
  assert (Forall (hex_geometry.bounded (2 ^ 40)) chunk_demo.plan) as Hplan.
  { constructor; [split; cbn; lia|constructor]. }
  assert (1 <= 2 ^ 40) as Hk by lia.
  split; [exact Hplan|]. split; [exact Hk|].
  destruct (spur_facts.ComputeBoundarySpurs_spec
              chunk_demo.plan 1 chunk_demo.union Hplan Hk)
    as (spurs & Hrun & Hnd & Hok & _).
  exists spurs. split; [exact Hrun|]. split; [exact Hnd|exact Hok].
Defined.

Lemma EvaluateInternalLinks_spec_witness :
  Forall (λ sp, 0 <= chunk.Dir sp < 6) chunk_demo.spurs
  ∧ ∃ links rejected,
      chunk.EvaluateInternalLinks chunk_demo.spurs 1 chunk_demo.union
        = Some (links, rejected)
      ∧ Forall (chunk_geometry.link_ok chunk_demo.union 1 chunk_demo.spurs) links.
Proof.
  assert (Forall (λ sp, 0 <= chunk.Dir sp < 6) chunk_demo.spurs) as Hdirs.
  { constructor; [cbn; lia|constructor]. }
  split; [exact Hdirs|].
  destruct (link_facts.EvaluateInternalLinks_spec
              chunk_demo.spurs 1 chunk_demo.union Hdirs)
    as (links & rejected & Hrun & Hok & _).
  exists links, rejected. split; [exact Hrun|exact Hok].
Defined.

Lemma BFSPath_spec_witness :
  let center := hex.MkAxial 0 0 in
  let start := hex.MkAxial (-1) 0 in
  let goal := hex.MkAxial 1 0 in
  hex_geometry.bounded (2 ^ 40) center
  ∧ hex_geometry.bounded (2 ^ 40) start
  ∧ Z.abs 1 <= 2 ^ 30
  ∧ [0; 1; 2; 3; 4; 5] ≡ₚ [0; 1; 2; 3; 4; 5]
  ∧ 2 + 3 * 1 * (1 + 1) <= Z.of_nat 8
  ∧ ∃ res, path.BFSPath 8 center 1 start goal [0; 1; 2; 3; 4; 5] = Some res
      ∧ ∀ p, res = Some p →
          path_geometry.path_ok center 1 start goal p
          ∧ ∀ L, nsteps (path_geometry.move center 1) L start goal →
                 (length p ≤ S L)%nat.
Proof.
  intros center start goal.
  assert (hex_geometry.bounded (2 ^ 40) center) as Hc by (split; cbn; lia).
  assert (hex_geometry.bounded (2 ^ 40) start) as Hs by (split; cbn; lia).
  assert (Z.abs 1 <= 2 ^ 30) as Hk by lia.
  assert ([0; 1; 2; 3; 4; 5] ≡ₚ [0; 1; 2; 3; 4; 5]) as Hp by reflexivity.
  assert (2 + 3 * 1 * (1 + 1) <= Z.of_nat 8) as Hf by lia.
  split; [exact Hc|]. split; [exact Hs|]. split; [exact Hk|].
  split; [exact Hp|]. split; [exact Hf|].
  destruct (bfs_facts.BFSPath_spec center 1 start goal Hc Hs Hk
              [0; 1; 2; 3; 4; 5] 8%nat Hp Hf) as (res & Hrun & Hok & _).
  exists res. split; [exact Hrun|exact Hok].
Defined.

Lemma SelectPortalDeterministic_spec_witness :
  hex_geometry.bounded (2 ^ 40) chunk_demo.origin
  ∧ 9 <= 2 ^ 40
  ∧ 0 <= 0 < 6
  ∧ ∃ a i, path.SelectPortalDeterministic chunk_demo.origin 9 0 12345 = Some (a, i)
      ∧ 0 <= i < Z.max 1 9
      ∧ hex.DistanceAxial chunk_demo.origin a = Z.max 0 9.
Proof.
  assert (hex_geometry.bounded (2 ^ 40) chunk_demo.origin) as Hc
    by (split; cbn; lia).
  assert (9 <= 2 ^ 40) as Hk by lia.
  assert (0 <= 0 < 6) as Hs by lia.
  split; [exact Hc|]. split; [exact Hk|]. split; [exact Hs|].
  destruct (portal_facts.SelectPortalDeterministic_spec
              chunk_demo.origin 9 0 12345 Hc Hk Hs)
    as (a & i & e & Hrun & _ & Hi & _ & Hd & _).
  exists a, i. split; [exact Hrun|]. split; [exact Hi|exact Hd].
Defined.

Lemma NeighborsWithinDisc_spec_witness :
  let center := hex.MkAxial 0 0 in
  let goal := hex.MkAxial 3 0 in
  let a := hex.MkAxial 1 0 in
  hex_geometry.bounded (2 ^ 40) center
  ∧ hex_geometry.bounded (2 ^ 40) a
  ∧ hex_geometry.bounded (2 ^ 40) goal
  ∧ NoDup (path.NeighborsWithinDisc center 1 a)
  ∧ ∀ b, b ∈ path.NeighborsWithinDisc center 1 a
         ↔ path_geometry.move center 1 a b.
Proof.
  intros center goal a.
  assert (hex_geometry.bounded (2 ^ 40) center) as Hc by (split; cbn; lia).
  assert (hex_geometry.bounded (2 ^ 40) a) as Ha by (split; cbn; lia).
  assert (hex_geometry.bounded (2 ^ 40) goal) as Hg by (split; cbn; lia).
  split; [exact Hc|]. split; [exact Ha|]. split; [exact Hg|].
  destruct (neighbour_facts.NeighborsWithinDisc_spec center 1 goal a Hc Ha Hg)
    as (_ & Hnd & Hmem & _).
  split; [exact Hnd|exact Hmem].
Defined.
